(** * Lounge document instances

    A shallow embedding of [lib/basemodel.js] (class [AbstractBaseModel] and
    its two builds, [BaseModel] and [PlainBaseModel]).

    JavaScript objects have identity and are mutated in place, so documents,
    arrays, plain objects and dates live in a heap and values refer to them by
    address.  Schemas are shared by every instance of a model and are kept in
    a table of their own.  User supplied callbacks (getters, defaults,
    validators, transforms) are total, side-effect free functions. *)

From Stdlib Require Import ZArith Ascii.
From stdpp Require Import base strings list pretty.

Set Warnings "-register-all".

(** ** JavaScript values *)

Abbreviation addr := nat.

(** Numbers are the integers; fractions, infinities and [NaN] are not
    covered. *)
Inductive val :=
| VUndef
| VNull
| VBool (b : bool)
| VNum (n : Z)
| VStr (s : string)
| VFun (f : nat)
| VRef (a : addr).

(** A plain object: its own enumerable properties, in enumeration order. *)
Abbreviation props := (list (string * val)).

Fixpoint alookup {A} (k : string) (l : list (string * A)) : option A :=
  match l with
  | [] => None
  | (k', x) :: r => if String.eqb k k' then Some x else alookup k r
  end.

(** [obj[k] = x]: overwrite in place, or add the key at the end, which is
    where JavaScript enumerates a new key unless it is an array index (those
    come first, in ascending order). *)
Fixpoint aset {A} (k : string) (x : A) (l : list (string * A)) : list (string * A) :=
  match l with
  | [] => [(k, x)]
  | (k', y) :: r => if String.eqb k k' then (k', x) :: r else (k', y) :: aset k x r
  end.

Definition keys {A} (l : list (string * A)) : list string := map fst l.

Definition inb (k : string) (l : list string) : bool := existsb (String.eqb k) l.

Definition truthy (v : val) : bool :=
  match v with
  | VUndef | VNull => false
  | VBool b => b
  | VNum n => negb (n =? 0)%Z
  | VStr s => negb (String.eqb s "")
  | VFun _ | VRef _ => true
  end.

(** [_.isObject]: objects and functions. *)
Definition isObject (v : val) : bool :=
  match v with VFun _ | VRef _ => true | _ => false end.

(** [typeof v === 'function'] *)
Definition isFunction (v : val) : bool :=
  match v with VFun _ => true | _ => false end.

(** Booleans, numbers and strings. *)
Definition isPrimitive (v : val) : bool :=
  match v with VBool _ | VNum _ | VStr _ => true | _ => false end.

(** [_.isUndefined(v) || _.isNull(v)] *)
Definition isNullish (v : val) : bool :=
  match v with VUndef | VNull => true | _ => false end.

(** [v === true] and [v === false] *)
Definition isTrue (v : val) : bool :=
  match v with VBool true => true | _ => false end.

Definition isFalse (v : val) : bool :=
  match v with VBool false => true | _ => false end.

(** [name.indexOf('.') !== -1] *)
Fixpoint hasDot (s : string) : bool :=
  match s with
  | EmptyString => false
  | String c r => if Ascii.eqb c "."%char then true else hasDot r
  end.




(** ** Schemas *)

(** The types of a field.  [Alias] fields, which hand every read and write
    on to another field, are not covered. *)
Inductive ftype := TAny | TString | TNumber | TBoolean | TDate | TArray | TObject.

(** Literal data, as written in a schema or produced by a cast: allocated
    afresh wherever it is used. *)
Inductive lit :=
| LNull
| LBool (b : bool)
| LNum (n : Z)
| LStr (s : string)
| LDate (t : Z)
| LArr (l : list lit)
| LObj (l : list (string * lit)).

(** What a cast or a default producer hands back: a value that exists
    already, or new data. *)
Inductive cast := CVal (v : val) | CNew (l : lit).

Inductive fdefault := DLit (l : lit) | DFun (f : props -> cast).

(** A field descriptor ([properties] in the source).  [p_virtual] is the
    virtual's getter, a function of the instance's raw values. *)
Record properties := {
  p_type : ftype;
  p_default : option fdefault;
  p_transform : option (val -> val);
  p_validate : option (val -> bool);
  p_get : option (val -> val);
  p_readOnly : bool;
  p_invisible : bool;
  p_serializable : bool;
  p_virtual : option (props -> val)
}.

Definition isVirtual (p : properties) : bool :=
  match p_virtual p with Some _ => true | None => false end.

(** The options object of [toObject] / [toJSON]; an absent key is
    [VUndef]. *)
Record options := {
  o_transform : val;
  o_json : val;
  o_minimize : val;
  o_virtuals : val;
  o_serializable : val;
  o_dateToISO : val;
  o_useSchemaOptions : val
}.

Definition noOptions : options :=
  {| o_transform := VUndef; o_json := VUndef; o_minimize := VUndef;
     o_virtuals := VUndef; o_serializable := VUndef; o_dateToISO := VUndef;
     o_useSchemaOptions := VUndef |}.

Record schema_options := {
  strict : bool;
  dotNotation : bool;
  so_toObject : option options;
  so_toJSON : option options
}.

(** [descriptor] lists the fields in the order in which [_.each] runs over
    them. *)
Record schema := {
  descriptor : list (string * properties);
  s_options : schema_options
}.

(** ** Instances, heap and world *)

(** An entry of the error log: which step of the field's pipeline refused
    the write, the value that was being set, the value the field keeps and
    the name of the field. *)
Inductive refusal := ValidateRefused | TypecastRefused.

Record error := {
  errorMessage : refusal;
  setValue : val;
  originalValue : val;
  fieldSchema : string
}.

(** The private part of a document: [i_schema] names its schema,
    [i_emitter] is [extendEventEmitter] of the build it comes from, [_obj]
    the raw values, [_errors] the error log and [_getset] the names that
    have an accessor pair defined on the instance. *)
Record instance := {
  i_schema : nat;
  i_emitter : bool;
  _obj : props;
  _errors : list error;
  _getset : list string
}.

Inductive hobj :=
| HObject (p : props)
| HArray (l : list val)
| HDate (t : Z)
| HObjectArray (l : list val)
| HModel (i : instance).

Record world := {
  heap : list hobj;
  schemas : list schema
}.

Definition alloc (o : hobj) (w : world) : world * addr :=
  ({| heap := heap w ++ [o]; schemas := schemas w |}, length (heap w)).

Definition store (a : addr) (o : hobj) (w : world) : world :=
  {| heap := <[a := o]> (heap w); schemas := schemas w |}.

Definition instanceAt (w : world) (a : addr) : option instance :=
  match heap w !! a with
  | Some (HModel i) => Some i
  | _ => None
  end.

Definition schemaOf (w : world) (i : instance) : option schema :=
  schemas w !! i_schema i.

(** ** What the host and the libraries provide

    [eventEmmiterInternals] is [Object.getOwnPropertyNames(new EventEmitter())],
    which depends on the Node release.  [toISOString] is the Date method.
    [typecast] stands for the cast and constraint checks of a typed field
    ([lib/basemodel.utils.js], not part of these sources): it may read the
    heap and yields the value to store, or nothing when the input is
    rejected; being a function, it does not cover a cast that builds or
    updates a nested document in place (type [Object]) or that logs an error
    for each element it drops (type [Array]).  [callTransform] is the effect
    of a user's serialization transform on the object it is given: the
    properties of the object it returns, or nothing when it returns
    [undefined]; a transform that looks at the document or at the options,
    or that hands back an object that existed already, is not covered.  [callFn] is the result
    of calling a function value found in data.  [lodashGet] and [lodashSet]
    are lodash's [_.get] and [_.set] on a document. *)
Class Host := {
  eventEmmiterInternals : list string;
  toISOString : Z -> string;
  typecast : properties -> list hobj -> val -> option cast;
  callTransform : nat -> props -> option props;
  callFn : nat -> list val -> val;
  lodashGet : world -> addr -> string -> val;
  lodashSet : world -> addr -> string -> val -> world
}.

(** ** Reading a field *)

(** Modelled from the spec: the getter that [defineProperty] of
    [lib/basemodel.utils.js] installs for a field is not part of these
    sources.  Following sections 3 and 4.2, a virtual field computes its
    value from the other fields, any other field yields its stored value,
    passed through the descriptor's [get] transform when there is one, and
    storage is never changed.  A name without accessor on this instance is an
    ordinary missing property. *)
Definition readField (i : instance) (index : string) (p : properties) : val :=
  if inb index (_getset i) then
    match p_virtual p with
    | Some g => g (_obj i)
    | None =>
        let raw := default VUndef (alookup index (_obj i)) in
        match p_get p with
        | Some g => g raw
        | None => raw
        end
    end
  else VUndef.

(** ** Serialization *)

Section Serialization.
Context `{Host}.

Definition defaultMinimizeOption (s : schema) (json : val) : val :=
  match (if truthy json then so_toJSON (s_options s) else so_toObject (s_options s)) with
  | Some o => match o_minimize o with VBool b => VBool b | _ => VBool true end
  | None => VBool true
  end.

Definition orDefault (cur dflt : val) : val :=
  match cur with VUndef => dflt | _ => cur end.

(** [opts] is [None] when the caller passed nothing or something that is not
    a plain [Object]; [json] is the second argument of [_toObject].  The
    source fills in the missing keys in the object it works on, which is the
    caller's own when that is kept; here the options are a record and the
    filled-in record is what comes back, so that what the caller finds in its
    object afterwards is not modelled. *)
Definition _prepareToObjectOptions (s : schema) (opts : option options) (json : val)
  : options :=
  let defaultMinimize := defaultMinimizeOption s json in
  let fromSchema :=
    if truthy json then
      let o := default noOptions (so_toJSON (s_options s)) in
      {| o_transform := o_transform o; o_json := VBool true;
         o_minimize := o_minimize o; o_virtuals := o_virtuals o;
         o_serializable := o_serializable o; o_dateToISO := o_dateToISO o;
         o_useSchemaOptions := VBool true |}
    else
      let o := default noOptions (so_toObject (s_options s)) in
      {| o_transform := o_transform o; o_json := VBool false;
         o_minimize := o_minimize o; o_virtuals := o_virtuals o;
         o_serializable := o_serializable o; o_dateToISO := o_dateToISO o;
         o_useSchemaOptions := VBool true |} in
  let o :=
    match opts with
    | Some o => if truthy (o_useSchemaOptions o) then fromSchema else o
    | None => fromSchema
    end in
  {| o_transform := orDefault (o_transform o) (VBool true);
     o_json := orDefault (o_json o) json;
     o_minimize := orDefault (o_minimize o) defaultMinimize;
     o_virtuals := o_virtuals o;
     o_serializable := o_serializable o;
     o_dateToISO := o_dateToISO o;
     o_useSchemaOptions := o_useSchemaOptions o |}.

Definition isDate (w : world) (v : val) : bool :=
  match v with
  | VRef a => match heap w !! a with Some (HDate _) => true | _ => false end
  | _ => false
  end.

(** [_.size] *)
Definition size (w : world) (v : val) : nat :=
  match v with
  | VRef a =>
      match heap w !! a with
      | Some (HObject p) => length p
      | Some (HArray l) | Some (HObjectArray l) => length l
      | _ => 0
      end
  | VStr s => String.length s
  | _ => 0
  end.

(** The recursive call on a nested document: [value.toObject(options)] or
    [value.toJSON(options)]. *)
Definition serializer := world -> addr -> option options -> val -> option (world * val).

Fixpoint eachM {A B} (f : A -> B -> option A) (acc : A) (l : list B) : option A :=
  match l with
  | [] => Some acc
  | x :: r => acc' ← f acc x; eachM f acc' r
  end.

(** Modelled from the spec: [toArray] of an object array (a class that is
    not part of these sources) maps documents held in the array recursively
    and keeps every other element. *)
Definition toArrayElem (rec : serializer) (acc : world * list val) (v : val)
  : option (world * list val) :=
  let '(w, out) := acc in
  match v with
  | VRef r =>
      match heap w !! r with
      | Some (HModel _) =>
          '(w1, v1) ← rec w r None VUndef; Some (w1, out ++ [v1])
      | _ => Some (w, out ++ [v])
      end
  | _ => Some (w, out ++ [v])
  end.

Definition toArray (rec : serializer) (w : world) (l : list val) : option (world * val) :=
  '(w1, out) ← eachM (toArrayElem rec) (w, []) l;
  let '(w2, r) := alloc (HArray out) w1 in
  Some (w2, VRef r).

(** The block under "Clone objects so they can't be modified by reference":
    [value] is an object at address [r].  It yields the world, [ret] (the
    date branch writes to it) and the new [value]. *)
Definition copyValue (rec : serializer) (opts : options) (w : world) (ret : props)
    (index : string) (r : addr) : option (world * props * val) :=
  o ← heap w !! r;
  match o with
  | HModel _ =>
      '(w1, value1) ←
        rec w r (Some opts) (if truthy (o_json opts) then VBool true else VUndef);
      Some (w1, ret, value1)
  | HObjectArray l =>
      '(w1, value1) ← toArray rec w l;
      Some (w1, ret, value1)
  | HArray l =>
      (* value.splice(0): removes every element and returns them *)
      let '(w1, r1) := alloc (HArray l) (store r (HArray []) w) in
      Some (w1, ret, VRef r1)
  | HDate t =>
      let '(w1, d) := alloc (HDate t) w in
      if isTrue (o_dateToISO opts)
      then Some (w1, aset index (VStr (toISOString t)) ret, VRef r)
      else
        let '(w2, d2) := alloc (HDate t) w1 in
        Some (w2, aset index (VRef d2) ret, VRef r)
  | HObject p =>
      if truthy (default VUndef (alookup "_isBaseModel" p))
         || truthy (default VUndef (alookup "_isObjectArray" p))
      then
        (* taken for a document or an object array: its [toObject], [toJSON]
           or [toArray] is called, which is not covered here *)
        None
      else
        (* _.clone: a shallow copy *)
        let '(w1, r1) := alloc (HObject p) w in
        Some (w1, ret, VRef r1)
  end.

(** [this[_privateKey]._this[index]] for a field of the schema: the [get]
    trap of the proxy, then the accessor. *)
Definition proxyGet (s : schema) (w : world) (a : addr) (i : instance)
    (index : string) (p : properties) : val :=
  if dotNotation (s_options s) && hasDot index then lodashGet w a index
  else readField i index p.

(** Whether the loop body returns before it reads the field. *)
Definition skipped (opts : options) (p : properties) : bool :=
  p_invisible p && negb (isVirtual p)
  || isVirtual p && negb (truthy (o_virtuals opts))
  || negb (p_serializable p) && isFalse (o_serializable opts).

(** The body of [_.each(this.schema.descriptor, ...)] in [_toObject]. *)
Definition toObjectField (rec : serializer) (s : schema) (opts : options) (a : addr)
    (acc : world * props) (fld : string * properties) : option (world * props) :=
  let '(w, ret) := acc in
  let '(index, properties) := fld in
  if p_invisible properties && negb (isVirtual properties) then Some acc
  else if isVirtual properties && negb (truthy (o_virtuals opts)) then Some acc
  else if negb (p_serializable properties) && isFalse (o_serializable opts) then Some acc
  else
    i ← instanceAt w a;
    let value := proxyGet s w a i index properties in
    if truthy (o_minimize opts) && isNullish value then Some acc
    else
      match value with
      | VRef r =>
          '(w1, ret1, value1) ← copyValue rec opts w ret index r;
          if negb (isDate w1 value1) && truthy (o_minimize opts)
             && (size w1 value1 =? 0)%nat
          then Some (w1, ret1)
          else Some (w1, aset index value1 ret1)
      | _ => Some (w, aset index value ret)
      end.

(** The transform that is finally applied, if it is a function. *)
Definition resolveTransform (s : schema) (opts : options) : val :=
  let transform := o_transform opts in
  if isTrue transform
     || (match so_toObject (s_options s) with Some _ => true | None => false end)
        && truthy transform
  then
    match (if truthy (o_json opts) then so_toJSON (s_options s)
           else so_toObject (s_options s)) with
    | Some o =>
        match o_transform opts with
        | VFun f => VFun f
        | _ => o_transform o
        end
    | None => transform
    end
  else transform.

(** The body of [_toObject], with the call on nested documents left open. *)
Definition toObjectBody (rec : serializer) (w : world) (a : addr)
    (opts : option options) (json : val) : option (world * val) :=
  i ← instanceAt w a;
  s ← schemaOf w i;
  let options := _prepareToObjectOptions s opts json in
  '(w1, ret) ← eachM (toObjectField rec s options a) (w, []) (descriptor s);
  let ret' :=
    match resolveTransform s options with
    | VFun f => default ret (callTransform f ret)
    | _ => ret
    end in
  let '(w2, r) := alloc (HObject ret') w1 in
  Some (w2, VRef r).

(** [fuel] bounds the depth of nested documents that is followed. *)
Fixpoint _toObject (fuel : nat) (w : world) (a : addr) (opts : option options)
    (json : val) : option (world * val) :=
  match fuel with
  | 0 => None
  | S fuel' => toObjectBody (_toObject fuel') w a opts json
  end.

Definition toObject (fuel : nat) (w : world) (a : addr) (opts : option options) :=
  _toObject fuel w a opts VUndef.

Definition toJSON (fuel : nat) (w : world) (a : addr) (opts : option options) :=
  _toObject fuel w a opts (VBool true).

End Serialization.

(** ** Writing a field *)

(** Allocates a list of items one after the other. *)
Definition allocEach {A B} (f : A -> list hobj -> list hobj * B)
  : list A -> list hobj -> list hobj * list B :=
  fix go (ls : list A) (h : list hobj) : list hobj * list B :=
    match ls with
    | [] => (h, [])
    | x :: r =>
        let '(h1, v) := f x h in
        let '(h2, vs) := go r h1 in
        (h2, v :: vs)
    end.

Fixpoint allocLit (l : lit) (h : list hobj) : list hobj * val :=
  match l with
  | LNull => (h, VNull)
  | LBool b => (h, VBool b)
  | LNum n => (h, VNum n)
  | LStr s => (h, VStr s)
  | LDate t => (h ++ [HDate t], VRef (length h))
  | LArr ls =>
      let '(h1, vs) := allocEach allocLit ls h in
      (h1 ++ [HArray vs], VRef (length h1))
  | LObj ls =>
      let '(h1, ps) :=
        allocEach (fun (kx : string * lit) h =>
                     let '(h1, v) := allocLit kx.2 h in (h1, (kx.1, v))) ls h in
      (h1 ++ [HObject ps], VRef (length h1))
  end.

Definition allocCast (c : cast) (w : world) : world * val :=
  match c with
  | CVal v => (w, v)
  | CNew l =>
      let '(h, v) := allocLit l (heap w) in
      ({| heap := h; schemas := schemas w |}, v)
  end.

Definition setRaw (index : string) (v : val) (i : instance) : instance :=
  {| i_schema := i_schema i; i_emitter := i_emitter i;
     _obj := aset index v (_obj i); _errors := _errors i; _getset := _getset i |}.

Definition logError (e : error) (i : instance) : instance :=
  {| i_schema := i_schema i; i_emitter := i_emitter i;
     _obj := _obj i; _errors := _errors i ++ [e]; _getset := _getset i |}.

Definition defineProperty (index : string) (i : instance) : instance :=
  {| i_schema := i_schema i; i_emitter := i_emitter i;
     _obj := _obj i; _errors := _errors i;
     _getset := if inb index (_getset i) then _getset i else _getset i ++ [index] |}.

Section Writing.
Context `{Host}.

(** Modelled from the spec: the setter that [defineProperty] of
    [lib/basemodel.utils.js] installs for a field is not part of these
    sources.  Following section 4.2: a [readOnly] field ignores the write;
    [transform] replaces the raw value; a failing [validate] records an error
    and keeps the current value; the value is cast to the declared type
    ([Any] is passed through), a failing cast or constraint records an error
    and keeps the current value; otherwise the cast value is stored.  Only
    virtuals without a setter are covered: they have no storage slot and
    ignore writes.  Not covered: the setter of a virtual, which writes to
    other fields; alias fields; and, for the types [Array] and [Object],
    what step 5 does beyond a cast of the whole value (the errors logged for
    dropped elements, the nested document that is built or updated in
    place). *)
Definition writeField (w : world) (a : addr) (index : string) (p : properties)
    (raw : val) : world :=
  match instanceAt w a with
  | None => w
  | Some i =>
      if p_readOnly p then w
      else if isVirtual p then w
      else
        let value := match p_transform p with Some f => f raw | None => raw end in
        let original := default VUndef (alookup index (_obj i)) in
        let failure msg :=
          {| errorMessage := msg; setValue := value; originalValue := original;
             fieldSchema := index |} in
        if negb (match p_validate p with Some f => f value | None => true end)
        then store a (HModel (logError (failure ValidateRefused) i)) w
        else
          match p_type p with
          | TAny => store a (HModel (setRaw index value i)) w
          | _ =>
              match typecast p (heap w) value with
              | None => store a (HModel (logError (failure TypecastRefused) i)) w
              | Some c =>
                  let '(w1, v) := allocCast c w in
                  store a (HModel (setRaw index v i)) w1
              end
          end
  end.

(** [this[index] = value] on the instance itself: the accessor of [index],
    whose setter works on the descriptor object held by the shared schema. *)
Definition accessorSet (w : world) (a : addr) (index : string) (value : val)
  : world * bool :=
  match instanceAt w a with
  | None => (w, false)
  | Some i =>
      match schemaOf w i with
      | None => (w, false)
      | Some s =>
          match alookup index (descriptor s) with
          | Some p =>
              if inb index (_getset i) then (writeField w a index p value, true)
              else
                (* declared by another instance of the model, no accessor
                   here: the proxy reports the property as not writable *)
                (w, false)
          | None => (w, false)
          end
      end
  end.

(** The descriptor that [Schema.add(index, {type: 'any'})] resolves to. *)
Definition anyProperties : properties :=
  {| p_type := TAny; p_default := None; p_transform := None; p_validate := None;
     p_get := None; p_readOnly := false; p_invisible := false;
     p_serializable := true; p_virtual := None |}.

(** Modelled from the spec: [Schema.add] (the schema class is not part of
    these sources) appends a field to the schema and does not redefine an
    existing one.  The field comes last in the enumeration, as it does in
    JavaScript unless its name is an array index. *)
Definition schemaAdd (index : string) (p : properties) (s : schema) : schema :=
  match alookup index (descriptor s) with
  | Some _ => s
  | None => {| descriptor := descriptor s ++ [(index, p)]; s_options := s_options s |}
  end.

Definition _addToSchema (w : world) (a : addr) (index : string) (p : properties)
  : world :=
  match instanceAt w a with
  | None => w
  | Some i =>
      let w1 :=
        {| heap := heap w;
           schemas := alter (schemaAdd index p) (i_schema i) (schemas w) |} in
      store a (HModel (defineProperty index i)) w1
  end.

(** The [set] trap of the proxy; the boolean is what the trap returns. *)
Definition proxySet (w : world) (a : addr) (name : string) (value : val)
  : world * bool :=
  match instanceAt w a with
  | None => (w, false)
  | Some i =>
      match schemaOf w i with
      | None => (w, false)
      | Some s =>
          if dotNotation (s_options s) && hasDot name
          then (lodashSet w a name value, true)
          else
            match alookup name (descriptor s) with
            | None =>
                if i_emitter i && inb name eventEmmiterInternals then (w, true)
                else if strict (s_options s) then (w, false)
                else accessorSet (_addToSchema w a name anyProperties) a name value
            | Some _ => accessorSet w a name value
            end
      end
  end.

(** ** [set] *)

Inductive outcome := Returns (w : world) | Throws (w : world).

Definition worldOf (o : outcome) : world :=
  match o with Returns w | Throws w => w end.

(** [this[_privateKey]._this[key] = value] inside a class body, which is
    strict code: a trap that returns [false] makes the assignment throw a
    [TypeError]. *)
Definition assign (w : world) (a : addr) (key : string) (value : val) : outcome :=
  let '(w1, ok) := proxySet w a key value in
  if ok then Returns w1 else Throws w1.

(** [try { ... } catch (err) {}] *)
Definition tryCatch (o : outcome) : world := worldOf o.

(** The property key a primitive is converted to.  A number is written in
    decimal, which is what JavaScript does for the integers it represents
    exactly, those below 2^53 in absolute value; larger ones (rounded
    digits, exponent notation from 1e21 on) are not covered, nor are keys
    obtained by converting an object or a function to a string. *)
Definition toPropertyKey (v : val) : option string :=
  match v with
  | VStr s => Some s
  | VNum n => if (Z.log2 (Z.abs n) <? 53)%Z then Some (pretty n) else None
  | VBool true => Some "true"
  | VBool false => Some "false"
  | VUndef => Some "undefined"
  | VNull => Some "null"
  | VFun _ | VRef _ => None
  end.

(** What [for (const key in value)] runs over, with the value read at each
    key.  Documents and object arrays used as a map are not covered: what
    they enumerate depends on accessors defined outside these sources. *)
Definition forIn (w : world) (v : val) : option props :=
  match v with
  | VFun _ => Some []
  | VRef r =>
      match heap w !! r with
      | Some (HObject p) => Some p
      | Some (HArray l) => Some (imap (fun n x => (pretty n, x)) l)
      | Some (HDate _) => Some []
      | _ => None
      end
  | _ => None
  end.

(** What [value.hasOwnProperty] resolves to: the method inherited from
    [Object.prototype], or an own property of that name shadowing it.  A map
    made without a prototype, which inherits no such method, is not
    covered. *)
Inductive method := Builtin | UserFn (f : nat) | NotCallable.

Definition hasOwnPropertyOf (w : world) (v : val) : method :=
  match v with
  | VRef r =>
      match heap w !! r with
      | Some (HObject p) =>
          match alookup "hasOwnProperty" p with
          | None => Builtin
          | Some (VFun f) => UserFn f
          | Some _ => NotCallable
          end
      | _ => Builtin
      end
  | _ => Builtin
  end.

Fixpoint setEach (w : world) (a : addr) (m : method) (l : props) : outcome :=
  match l with
  | [] => Returns w
  | (key, x) :: r =>
      match m with
      | NotCallable => Throws w
      | Builtin => setEach (tryCatch (assign w a key x)) a m r
      | UserFn f =>
          if truthy (callFn f [VStr key])
          then setEach (tryCatch (assign w a key x)) a m r
          else setEach w a m r
      end
  end.

Definition set (w : world) (a : addr) (path value : val) : option outcome :=
  if isObject path && negb (truthy value) then
    l ← forIn w path;
    Some (setEach w a (hasOwnPropertyOf w path) l)
  else
    key ← toPropertyKey path;
    Some (Returns (tryCatch (assign w a key value))).

(** ** The error log *)

Definition getErrors (w : world) (a : addr) : list error :=
  match instanceAt w a with Some i => _errors i | None => [] end.

Definition clearErrors (w : world) (a : addr) : world :=
  match instanceAt w a with
  | Some i =>
      store a (HModel {| i_schema := i_schema i; i_emitter := i_emitter i;
                         _obj := _obj i; _errors := []; _getset := _getset i |}) w
  | None => w
  end.

(** [Boolean(this[_privateKey]._errors.length)] *)
Definition hasErrors (w : world) (a : addr) : bool :=
  negb (length (getErrors w a) =? 0)%nat.

(** ** The constructor *)

Definition setReadOnly (b : bool) (p : properties) : properties :=
  {| p_type := p_type p; p_default := p_default p; p_transform := p_transform p;
     p_validate := p_validate p; p_get := p_get p; p_readOnly := b;
     p_invisible := p_invisible p; p_serializable := p_serializable p;
     p_virtual := p_virtual p |}.

Fixpoint amap {A} (k : string) (f : A -> A) (l : list (string * A)) : list (string * A) :=
  match l with
  | [] => []
  | (k', x) :: r => if String.eqb k k' then (k', f x) :: r else (k', x) :: amap k f r
  end.

(** [schema.descriptor[index].readOnly = b] on the shared schema. *)
Definition assignReadOnly (sid : nat) (index : string) (b : bool) (w : world) : world :=
  {| heap := heap w;
     schemas :=
       alter (fun s => {| descriptor := amap index (setReadOnly b) (descriptor s);
                          s_options := s_options s |}) sid (schemas w) |}.

(** The body of the loop that populates the schema defaults. *)
Definition populateDefault (sid : nat) (a : addr) (w : world)
    (fld : string * properties) : world :=
  let '(index, properties) := fld in
  match p_default properties with
  | None => w
  | Some d =>
      let readOnly := p_readOnly properties in
      let w1 := assignReadOnly sid index false w in
      let '(w2, v) :=
        match d with
        | DFun f =>
            match instanceAt w1 a with
            | Some i => allocCast (f (_obj i)) w1
            | None => (w1, VUndef)
            end
        | DLit l => allocCast (CNew l) w1
        end in
      let w3 := fst (accessorSet w2 a index v) in
      assignReadOnly sid index readOnly w3
  end.

(** [new Model(values, options, schema)]: [sid] is the schema, [emitter] tells
    [BaseModel] from [PlainBaseModel], [cloneValues] is [options.clone] and
    [deepClone] the copy that the clone package makes, as new data.  The
    result is the outcome of the constructor and the address of the
    instance. *)
Definition construct (deepClone : list hobj -> val -> lit) (w : world) (sid : nat)
    (emitter : bool) (values : val) (cloneValues : bool) : option (outcome * addr) :=
  s ← schemas w !! sid;
  let i := {| i_schema := sid; i_emitter := emitter; _obj := []; _errors := [];
              _getset := keys (descriptor s) |} in
  let '(w1, a) := alloc (HModel i) w in
  let w2 := foldl (populateDefault sid a) w1 (descriptor s) in
  if isObject values then
    let '(w3, data) :=
      if cloneValues then allocCast (CNew (deepClone (heap w2) values)) w2
      else (w2, values) in
    o ← set w3 a data VUndef;
    Some (o, a)
  else Some (Returns w2, a).

(** [get(path)]: [this[path]], for a path that is a field name. *)
Definition get (w : world) (a : addr) (path : string) : val :=
  match instanceAt w a with
  | Some i =>
      match schemaOf w i with
      | Some s =>
          match alookup path (descriptor s) with
          | Some p => proxyGet s w a i path p
          | None => VUndef
          end
      | None => VUndef
      end
  | None => VUndef
  end.


End Writing.

(** ** [inspect] and the other traps of the proxy *)

(** What the [getOwnPropertyDescriptor] trap hands back, under the names the
    source gives to the keys. *)
Record propertyDescriptor := {
  value : val;
  writeable : bool;
  enumerable : bool;
  configurable : bool
}.

Section Traps.
Context `{Host}.


(** The [ownKeys] trap: [Object.keys(this.toObject())], with the world that
    the serialization leaves. *)
Definition ownKeys (fuel : nat) (w : world) (a : addr) : option (world * list string) :=
  '(w1, v) ← toObject fuel w a None;
  match v with
  | VRef r =>
      match heap w1 !! r with
      | Some (HObject ret) => Some (w1, keys ret)
      | _ => None
      end
  | _ => None
  end.

(** The [has] trap: [Boolean(_private._getset[key])], where [_getset] is the
    instance itself, not the proxy.  A name with an accessor on the instance
    reads through it.  Any other name resolves to a method of the class or to
    a property of the emitter, which is not covered. *)
Definition has (w : world) (a : addr) (key : string) : option bool :=
  i ← instanceAt w a;
  s ← schemaOf w i;
  if inb key (_getset i) then
    p ← alookup key (descriptor s);
    Some (truthy (readField i key p))
  else None.

(** The [getOwnPropertyDescriptor] trap; [None] is [undefined]. *)
Definition getOwnPropertyDescriptor (w : world) (a : addr) (key : string)
  : option propertyDescriptor :=
  match instanceAt w a with
  | None => None
  | Some i =>
      match schemaOf w i with
      | None => None
      | Some s =>
          if inb key (keys (descriptor s)) then
            match alookup key (descriptor s) with
            | Some p =>
                Some {| value := proxyGet s w a i key p;
                        writeable := negb (p_readOnly p);
                        enumerable := true;
                        configurable := true |}
            | None => None
            end
          else None
      end
  end.

End Traps.

(** ** The merge of options as the specification words it *)

(** Section 4.4 of the specification: the effective options are the call-time
    options over the schema-level [toObject] / [toJSON] options over the
    engine defaults. *)
Definition engineDefaults : options :=
  {| o_transform := VBool true; o_json := VUndef; o_minimize := VBool true;
     o_virtuals := VBool false; o_serializable := VBool true;
     o_dateToISO := VBool false; o_useSchemaOptions := VUndef |}.

Definition over (hi lo : options) : options :=
  {| o_transform := orDefault (o_transform hi) (o_transform lo);
     o_json := orDefault (o_json hi) (o_json lo);
     o_minimize := orDefault (o_minimize hi) (o_minimize lo);
     o_virtuals := orDefault (o_virtuals hi) (o_virtuals lo);
     o_serializable := orDefault (o_serializable hi) (o_serializable lo);
     o_dateToISO := orDefault (o_dateToISO hi) (o_dateToISO lo);
     o_useSchemaOptions := orDefault (o_useSchemaOptions hi) (o_useSchemaOptions lo) |}.

Definition schemaLevel (s : schema) (json : val) : options :=
  default noOptions
    (if truthy json then so_toJSON (s_options s) else so_toObject (s_options s)).

Definition specMergedOptions (s : schema) (opts : option options) (json : val)
  : options :=
  over (default noOptions opts) (over (schemaLevel s json) engineDefaults).

(** ** A host and some documents to run the definitions on *)

Module Examples.

(** The own property names of a fresh emitter as older Node releases have
    them.  The casts accept values that already have the declared type and
    nothing else. *)
#[export] Instance node : Host :=
  {| eventEmmiterInternals := ["domain"; "_events"; "_eventsCount"; "_maxListeners"];
     toISOString := fun t =>
       if (t =? 0)%Z then "1970-01-01T00:00:00.000Z" else pretty t;
     typecast := fun p _ v =>
       match p_type p, v with
       | TString, VStr _ | TNumber, VNum _ | TBoolean, VBool _ => Some (CVal v)
       | _, _ => None
       end;
     callTransform := fun _ _ => None;
     callFn := fun _ _ => VUndef;
     lodashGet := fun _ _ _ => VUndef;
     lodashSet := fun w _ _ _ => w |}.

Definition field (t : ftype) : properties :=
  {| p_type := t; p_default := None; p_transform := None; p_validate := None;
     p_get := None; p_readOnly := false; p_invisible := false;
     p_serializable := true; p_virtual := None |}.

Definition plainOptions (strictMode : bool) : schema_options :=
  {| strict := strictMode; dotNotation := false; so_toObject := None;
     so_toJSON := None |}.

Definition document (sid : nat) (emitter : bool) (values : props) : instance :=
  {| i_schema := sid; i_emitter := emitter; _obj := values; _errors := [];
     _getset := keys values |}.

(** [{ country: {type: String, default: 'USA'},
        role: {type: 'any', readOnly: true, default: 'guest'},
        name: String }] *)
Definition memberSchema : schema :=
  {| descriptor :=
       [("country",
         {| p_type := TString; p_default := Some (DLit (LStr "USA"));
            p_transform := None; p_validate := None; p_get := None;
            p_readOnly := false; p_invisible := false; p_serializable := true;
            p_virtual := None |});
        ("role",
         {| p_type := TAny; p_default := Some (DLit (LStr "guest"));
            p_transform := None; p_validate := None; p_get := None;
            p_readOnly := true; p_invisible := false; p_serializable := true;
            p_virtual := None |});
        ("name", field TString)];
     s_options := plainOptions true |}.

(** The values [{ name: 'Bob', role: 'admin' }] wait at address 0. *)
Definition memberWorld : world :=
  {| heap := [HObject [("name", VStr "Bob"); ("role", VStr "admin")]];
     schemas := [memberSchema] |}.

(** [{ tags: {type: 'any', default: ['new', {seen: []}]}, title: String }];
    nothing else is in the world. *)
Definition playlistSchema : schema :=
  {| descriptor :=
       [("tags",
         {| p_type := TAny;
            p_default := Some (DLit (LArr [LStr "new"; LObj [("seen", LArr [])]]));
            p_transform := None; p_validate := None; p_get := None;
            p_readOnly := false; p_invisible := false; p_serializable := true;
            p_virtual := None |});
        ("title", field TString)];
     s_options := plainOptions true |}.

Definition playlistWorld : world := {| heap := []; schemas := [playlistSchema] |}.

(** The examples construct with [options.clone] off; the copy is never
    asked for. *)
Definition noClone : list hobj -> val -> lit := fun _ _ => LNull.



(** [{ name: String, age: Number, active: Boolean, note: 'any' }] and a
    document of it. *)
Definition profileSchema : schema :=
  {| descriptor :=
       [("name", field TString); ("age", field TNumber); ("active", field TBoolean);
        ("note", field TAny)];
     s_options := plainOptions true |}.

Definition profileWorld : world :=
  {| heap := [HModel (document 0 true
                        [("name", VStr "Jim"); ("age", VNum 0); ("active", VBool false);
                         ("note", VNull)])];
     schemas := [profileSchema] |}.

(** [{ tags: 'any', born: Date, meta: 'any' }], and a document holding a
    plain array, a date and a plain object. *)
Definition albumSchema : schema :=
  {| descriptor := [("tags", field TAny); ("born", field TDate); ("meta", field TAny)];
     s_options := plainOptions false |}.

Definition albumWorld : world :=
  {| heap := [HModel (document 0 true
                        [("tags", VRef 1); ("born", VRef 2); ("meta", VRef 3)]);
              HArray [VStr "a"; VStr "b"];
              HDate 0;
              HObject [("k", VNum 1)]];
     schemas := [albumSchema] |}.

Definition isoOptions : options :=
  {| o_transform := VUndef; o_json := VUndef; o_minimize := VUndef;
     o_virtuals := VUndef; o_serializable := VUndef; o_dateToISO := VBool true;
     o_useSchemaOptions := VUndef |}.

(** A cart whose fields hold falsy scalars, nothing, empty aggregates and a
    date. *)
Definition cartSchema : schema :=
  {| descriptor :=
       [("count", field TNumber); ("paid", field TBoolean); ("note", field TString);
        ("coupon", field TString); ("items", field TAny); ("extra", field TAny);
        ("opened", field TDate)];
     s_options := plainOptions true |}.

Definition cartWorld : world :=
  {| heap := [HModel (document 0 false
                        [("count", VNum 0); ("paid", VBool false); ("note", VStr "");
                         ("coupon", VNull); ("items", VRef 1); ("extra", VRef 2);
                         ("opened", VRef 3)]);
              HArray []; HObject []; HDate 0];
     schemas := [cartSchema] |}.

(** An account with an invisible field and a virtual one. *)
Definition fullName (values : props) : val :=
  match alookup "first" values, alookup "last" values with
  | Some (VStr f), Some (VStr l) => VStr (f +:+ " " +:+ l)
  | _, _ => VUndef
  end.

Definition accountSchema : schema :=
  {| descriptor :=
       [("first", field TString);
        ("password",
         {| p_type := TString; p_default := None; p_transform := None;
            p_validate := None; p_get := None; p_readOnly := false;
            p_invisible := true; p_serializable := true; p_virtual := None |});
        ("last", field TString);
        ("fullName",
         {| p_type := TAny; p_default := None; p_transform := None;
            p_validate := None; p_get := None; p_readOnly := false;
            p_invisible := false; p_serializable := true;
            p_virtual := Some fullName |})];
     s_options := plainOptions true |}.

Definition accountWorld : world :=
  {| heap := [HModel {| i_schema := 0; i_emitter := true;
                        _obj := [("first", VStr "Jim"); ("password", VStr "s3cret");
                                 ("last", VStr "Jones")];
                        _errors := [];
                        _getset := ["first"; "password"; "last"; "fullName"] |}];
     schemas := [accountSchema] |}.

(** A schema whose [toObject] options ask for virtuals. *)
Definition virtualsOn : options :=
  {| o_transform := VUndef; o_json := VUndef; o_minimize := VUndef;
     o_virtuals := VBool true; o_serializable := VUndef; o_dateToISO := VUndef;
     o_useSchemaOptions := VUndef |}.

Definition virtualsSchema : schema :=
  {| descriptor := descriptor accountSchema;
     s_options := {| strict := true; dotNotation := false;
                     so_toObject := Some virtualsOn; so_toJSON := None |} |}.




(** A map whose own property shadows [Object.prototype.hasOwnProperty]. *)
Definition shadowWorld : world :=
  {| heap := heap albumWorld ++ [HObject [("hasOwnProperty", VNum 1)]];
     schemas := schemas albumWorld |}.

(** [{ transform: false }] and [{ minimize: false }] as call-time options. *)
Definition untransformed : options :=
  {| o_transform := VBool false; o_json := VUndef; o_minimize := VUndef;
     o_virtuals := VUndef; o_serializable := VUndef; o_dateToISO := VUndef;
     o_useSchemaOptions := VUndef |}.

Definition unminimized : options :=
  {| o_transform := VUndef; o_json := VUndef; o_minimize := VBool false;
     o_virtuals := VUndef; o_serializable := VUndef; o_dateToISO := VUndef;
     o_useSchemaOptions := VUndef |}.

(** A schema whose [toObject] options name a transform, the function 0. *)
Definition redacted : options :=
  {| o_transform := VFun 0; o_json := VUndef; o_minimize := VUndef;
     o_virtuals := VUndef; o_serializable := VUndef; o_dateToISO := VUndef;
     o_useSchemaOptions := VUndef |}.

Definition redactSchema : schema :=
  {| descriptor := descriptor accountSchema;
     s_options := {| strict := true; dotNotation := false;
                     so_toObject := Some redacted; so_toJSON := None |} |}.


(** An order that holds its buyer, a document of another model. *)
Definition orderSchema : schema :=
  {| descriptor := [("id", field TNumber); ("buyer", field TAny)];
     s_options := plainOptions true |}.

Definition orderWorld : world :=
  {| heap := [HModel (document 0 false [("id", VNum 7); ("buyer", VRef 1)]);
              HModel (document 1 true
                        [("name", VStr "Jim"); ("age", VNum 0); ("active", VBool false);
                         ("note", VNull)])];
     schemas := [orderSchema; profileSchema] |}.

(** The cart, and at address 4 a map with a key that its schema does not
    declare. *)
Definition updateWorld : world :=
  {| heap := heap cartWorld
             ++ [HObject [("count", VNum 2); ("bogus", VNum 1); ("note", VStr "x")]];
     schemas := schemas cartWorld |}.

(** Two albums of the same model. *)
Definition twinsWorld : world :=
  {| heap := [HModel (document 0 true
                        [("tags", VNull); ("born", VNull); ("meta", VNull)]);
              HModel (document 0 true
                        [("tags", VNull); ("born", VNull); ("meta", VNull)])];
     schemas := [albumSchema] |}.

(** An order that is its own buyer. *)
Definition loopWorld : world :=
  {| heap := [HModel (document 0 false [("id", VNum 7); ("buyer", VRef 0)])];
     schemas := [orderSchema] |}.

End Examples.

(** ** How serialization may change the heap *)

(** From [w] to [w']: the schemas are the same, every object that existed is
    still there, and only plain arrays may differ, by having been emptied. *)
Definition evolves (w w' : world) : Prop :=
  schemas w' = schemas w /\
  forall r o, heap w !! r = Some o ->
    match o with
    | HArray l => heap w' !! r = Some (HArray l) \/ heap w' !! r = Some (HArray [])
    | _ => heap w' !! r = Some o
    end.

(** A value that the loop copies without calling into another document or
    an object array. *)
Definition flat (w : world) (v : val) : Prop :=
  match v with
  | VRef r =>
      match heap w !! r with
      | Some (HArray _) | Some (HDate _) => True
      | Some (HObject p) =>
          truthy (default VUndef (alookup "_isBaseModel" p))
          || truthy (default VUndef (alookup "_isObjectArray" p)) = false
      | _ => False
      end
  | _ => True
  end.

(** [rec'] gives every result that [rec] gives. *)
Definition refines (rec rec' : serializer) : Prop :=
  forall w a o j res, rec w a o j = Some res -> rec' w a o j = Some res.

Definition evolving (rec : serializer) : Prop :=
  forall w a o j w' v, rec w a o j = Some (w', v) -> evolves w w'.

(** Two instances that are the same document at different times. *)
Definition sameDocument (i j : instance) : Prop :=
  i_schema j = i_schema i /\ i_emitter j = i_emitter i /\ _getset j = _getset i.

(** The value a default resolves to, in a world where the document has the
    raw values [values]. *)
Definition defaultCast (d : fdefault) (values : props) : cast :=
  match d with
  | DLit l => CNew l
  | DFun f => f values
  end.

(** The schema [sid] of the world does not have [dotNotation] on. *)
Definition plainPaths (sid : nat) (w : world) : Prop :=
  forall s, schemas w !! sid = Some s -> dotNotation (s_options s) = false.

(** The pipeline of a field that is not [readOnly] takes [raw] and stores
    [v]: the field is no virtual, the validator accepts the transformed
    value, and the cast (none for [Any]) hands back the existing value [v]. *)
Definition accepts `{Host} (p : properties) (h : list hobj) (raw v : val) : Prop :=
  isVirtual p = false
  /\ (let value := match p_transform p with Some f => f raw | None => raw end in
      match p_validate p with Some f => f value | None => true end = true
      /\ match p_type p with
         | TAny => v = value
         | _ => typecast p h value = Some (CVal v)
         end).

(** ** Copies of literal data *)

(** [P] relates the two lists item by item. *)
Definition all2 {A B} (P : A -> B -> Prop) : list A -> list B -> Prop :=
  fix go (la : list A) (lb : list B) : Prop :=
    match la, lb with
    | [], [] => True
    | x :: la', y :: lb' => P x y /\ go la' lb'
    | _, _ => False
    end.

(** In the heap [h] the value [v] is a copy of the literal [l] that is made
    of objects at the addresses from [n] on: a primitive is itself, and every
    date, array and object of [l], at any depth, has an object of its own at
    such an address, with the copies of its parts as content. *)
Fixpoint cloneOf (h : list hobj) (n : nat) (l : lit) (v : val) : Prop :=
  match l with
  | LNull => v = VNull
  | LBool b => v = VBool b
  | LNum m => v = VNum m
  | LStr s => v = VStr s
  | LDate t => exists r, v = VRef r /\ n <= r /\ h !! r = Some (HDate t)
  | LArr ls =>
      exists r vs, v = VRef r /\ n <= r /\ h !! r = Some (HArray vs)
                   /\ all2 (cloneOf h n) ls vs
  | LObj ls =>
      exists r ps, v = VRef r /\ n <= r /\ h !! r = Some (HObject ps)
                   /\ all2 (fun (kl : string * lit) (kv : string * val) =>
                              kl.1 = kv.1 /\ cloneOf h n kl.2 kv.2) ls ps
  end.

(** ** What a write may change *)

(** [s'] is [s] with fields of the [Any] descriptor appended. *)
Definition extends (s s' : schema) : Prop :=
  s_options s' = s_options s
  /\ exists added,
       descriptor s' = descriptor s ++ added
       /\ Forall (fun fld : string * properties => fld.2 = anyProperties) added.

(** From [w] to [w'] by writes through the proxy of the document at [a]:
    every schema is extended at most, and a strict one is as it was; the
    document keeps its schema, its build and its accessors, and its error log
    has grown at most; the schemas of other models and the other objects of
    the heap are as they were. *)
Definition written (a : addr) (w w' : world) : Prop :=
  (forall sid s, schemas w !! sid = Some s ->
     exists s', schemas w' !! sid = Some s' /\ extends s s'
                /\ (strict (s_options s) = true -> s' = s))
  /\ (forall i, instanceAt w a = Some i ->
        exists j, instanceAt w' a = Some j
          /\ i_schema j = i_schema i /\ i_emitter j = i_emitter i
          /\ (forall n, inb n (_getset i) = true -> inb n (_getset j) = true)
          /\ _errors i `prefix_of` _errors j
          /\ forall sid, sid <> i_schema i -> schemas w' !! sid = schemas w !! sid)
  /\ (forall r o, heap w !! r = Some o -> r <> a -> heap w' !! r = Some o).

(** The field [k] is not among the names [names] that are written, or it is
    declared [readOnly] by [s]. *)
Definition spared (s : schema) (names : list string) (k : string) : Prop :=
  k ∉ names
  \/ exists p, alookup k (descriptor s) = Some p /\ p_readOnly p = true.

(** The names that [set(path, value)] writes to. *)
Definition setNames (w : world) (path value : val) : list string :=
  if isObject path && negb (truthy value)
  then keys (default [] (forIn w path))
  else option_list (toPropertyKey path).

(** A field with a storage slot of its own whose pipeline works on that slot
    alone: no virtual, and of a type other than [Array] and [Object], whose
    casts go through the elements or build and update nested documents. *)
Definition scalarType (t : ftype) : bool :=
  match t with TArray | TObject => false | _ => true end.

Definition plainField (p : properties) : bool :=
  negb (isVirtual p) && scalarType (p_type p).

(** Those of the names [names] that [s] declares are plain fields. *)
Definition plainNames (s : schema) (names : list string) : Prop :=
  forall n p, n ∈ names -> alookup n (descriptor s) = Some p -> plainField p = true.

(** ** Serializations without a transform function *)

(** No schema of the world names a transform function, for [toObject] or for
    [toJSON]. *)
Definition noTransforms (w : world) : Prop :=
  forall sid s o, schemas w !! sid = Some s ->
    so_toObject (s_options s) = Some o \/ so_toJSON (s_options s) = Some o ->
    isFunction (o_transform o) = false.

(** ** Serializations that differ in [json] only *)







(** * Properties *)

Ltac decided :=
  match goal with |- ?P => apply (bool_decide_unpack P); vm_compute; exact I end.

Ltac declared := apply list_elem_of_In; simpl; tauto.

(** Settles [plainNames] on a schema and names that are given in full. *)
Ltac plainly :=
  let n := fresh "n" in
  let p := fresh "p" in
  let Hin := fresh "Hin" in
  let Hp := fresh "Hp" in
  intros n p Hin Hp; apply list_elem_of_In in Hin; vm_compute in Hin;
  repeat (destruct Hin as [<- | Hin]); try (destruct Hin);
  vm_compute in Hp; try discriminate Hp; injection Hp as <-; reflexivity.


(** ** Association lists *)

Lemma alookup_aset_eq {A} k (x : A) l : alookup k (aset k x l) = Some x.
Proof.
  induction l as [|[k' y] r IH]; simpl.
  - by rewrite String.eqb_refl.
  - destruct (String.eqb k k') eqn:E; simpl; rewrite E; [done | exact IH].
Qed.

Lemma alookup_aset_ne {A} k k' (x : A) l :
  k <> k' -> alookup k (aset k' x l) = alookup k l.
Proof.
  intros Hne. induction l as [|[k0 y] r IH]; simpl.
  - apply String.eqb_neq in Hne. by rewrite Hne.
  - destruct (String.eqb k' k0) eqn:E; simpl.
    + apply String.eqb_eq in E. subst k0.
      apply String.eqb_neq in Hne. by rewrite Hne.
    + destruct (String.eqb k k0); [done | exact IH].
Qed.

Lemma inb_true k l : inb k l = true <-> k ∈ l.
Proof.
  unfold inb. rewrite existsb_exists. split.
  - intros (x & Hin & He). apply String.eqb_eq in He. subst.
    by apply list_elem_of_In.
  - intros Hin. exists k. split; [by apply list_elem_of_In | apply String.eqb_refl].
Qed.

Lemma inb_false k l : inb k l = false <-> k ∉ l.
Proof.
  rewrite <- inb_true. destruct (inb k l); split; intros; congruence.
Qed.

Lemma alookup_None {A} k (l : list (string * A)) :
  alookup k l = None <-> k ∉ keys l.
Proof.
  induction l as [|[k' y] r IH]; simpl.
  - split; [intros _; apply not_elem_of_nil | done].
  - destruct (String.eqb k k') eqn:E.
    + apply String.eqb_eq in E. subst. split; [done |].
      intros Hn. exfalso. apply Hn. apply list_elem_of_here.
    + apply String.eqb_neq in E. rewrite IH. rewrite not_elem_of_cons. tauto.
Qed.

Lemma alookup_elem {A} k (x : A) l : alookup k l = Some x -> (k, x) ∈ l.
Proof.
  induction l as [|[k' y] r IH]; simpl; [done |].
  destruct (String.eqb k k') eqn:E.
  - apply String.eqb_eq in E. intros [= ->]. subst. apply list_elem_of_here.
  - intros Hl. apply list_elem_of_further. auto.
Qed.

Lemma elem_alookup {A} k (x : A) l :
  NoDup (keys l) -> (k, x) ∈ l -> alookup k l = Some x.
Proof.
  induction l as [|[k' y] r IH]; simpl; intros Hnd Hin.
  - by apply elem_of_nil in Hin.
  - apply NoDup_cons in Hnd as [Hk Hnd].
    apply elem_of_cons in Hin as [[= -> ->] | Hin].
    + by rewrite String.eqb_refl.
    + destruct (String.eqb k k') eqn:E.
      * apply String.eqb_eq in E. subst. exfalso. apply Hk.
        apply (list_elem_of_fmap_2 fst) in Hin. exact Hin.
      * auto.
Qed.

Lemma keys_aset {A} k (x : A) l :
  keys (aset k x l) = if inb k (keys l) then keys l else keys l ++ [k].
Proof.
  induction l as [|[k' y] r IH]; simpl; [done |].
  destruct (String.eqb k k') eqn:E; simpl; [done |].
  rewrite IH. unfold inb. by destruct (existsb _ _).
Qed.

Lemma keys_app {A} (l1 l2 : list (string * A)) : keys (l1 ++ l2) = keys l1 ++ keys l2.
Proof. apply map_app. Qed.

Lemma alookup_app_r {A} k (l1 l2 : list (string * A)) :
  alookup k l1 = None -> alookup k (l1 ++ l2) = alookup k l2.
Proof.
  induction l1 as [|[k' y] r IH]; simpl; [done |].
  destruct (String.eqb k k'); [done | exact IH].
Qed.

Lemma alookup_app_l {A} k (x : A) (l1 l2 : list (string * A)) :
  alookup k l1 = Some x -> alookup k (l1 ++ l2) = Some x.
Proof.
  induction l1 as [|[k' y] r IH]; simpl; [done |].
  destruct (String.eqb k k'); [done | exact IH].
Qed.

Lemma alookup_amap_eq {A} k (f : A -> A) l x :
  alookup k l = Some x -> alookup k (amap k f l) = Some (f x).
Proof.
  induction l as [|[k' y] r IH]; simpl; [done |].
  destruct (String.eqb k k') eqn:E; simpl; rewrite E; [congruence | exact IH].
Qed.

Lemma amap_amap {A} k (f g : A -> A) l :
  amap k g (amap k f l) = amap k (fun x => g (f x)) l.
Proof.
  induction l as [|[k' y] r IH]; simpl; [done |].
  destruct (String.eqb k k') eqn:E; simpl; rewrite E; [done | by rewrite IH].
Qed.

Lemma amap_id {A} k (f : A -> A) l x :
  alookup k l = Some x -> f x = x -> amap k f l = l.
Proof.
  induction l as [|[k' y] r IH]; simpl; [done |].
  destruct (String.eqb k k') eqn:E.
  - intros [= ->] ->. done.
  - intros Hl Hf. by rewrite IH.
Qed.

Lemma list_alter_same {A} (f : A -> A) (l : list A) n x :
  l !! n = Some x -> f x = x -> alter f n l = l.
Proof.
  intros Hl Hf. apply list_eq. intros m. destruct (decide (n = m)) as [<- | Hne].
  - rewrite list_lookup_alter_eq, Hl. simpl. by rewrite Hf.
  - by rewrite list_lookup_alter_ne.
Qed.

(** ** Serialization only empties arrays *)

Lemma evolves_refl w : evolves w w.
Proof. split; [done |]. intros r o Hr. destruct o; auto. Qed.

Lemma evolves_trans w1 w2 w3 : evolves w1 w2 -> evolves w2 w3 -> evolves w1 w3.
Proof.
  intros [Hs1 H1] [Hs2 H2]. split; [congruence |].
  intros r o Hr. specialize (H1 r o Hr).
  destruct o; try (by apply (H2 _ _ H1)).
  destruct H1 as [H1 | H1].
  - apply (H2 _ _ H1).
  - right. destruct (H2 _ _ H1) as [? | ?]; done.
Qed.

Lemma alloc_evolves o w : evolves w (alloc o w).1.
Proof.
  split; [done |]. intros r o' Hr. simpl.
  assert ((heap w ++ [o]) !! r = Some o') as Hl.
  { rewrite lookup_app_l; [done | by eapply lookup_lt_Some]. }
  destruct o'; auto.
Qed.

Lemma alloc_lookup o w : heap (alloc o w).1 !! (alloc o w).2 = Some o.
Proof. simpl. by rewrite list_lookup_middle. Qed.

Lemma splice_evolves w r l :
  heap w !! r = Some (HArray l) -> evolves w (store r (HArray []) w).
Proof.
  intros Hr. split; [done |]. intros r' o Hr'. simpl.
  destruct (decide (r = r')) as [E | Hne].
  - subst r'. assert (o = HArray l) as -> by congruence. right.
    apply list_lookup_insert_eq. by eapply lookup_lt_Some.
  - rewrite list_lookup_insert_ne by done. destruct o; auto.
Qed.

Lemma evolves_instance w w' a i :
  evolves w w' -> instanceAt w a = Some i -> instanceAt w' a = Some i.
Proof.
  intros [_ He]. unfold instanceAt. destruct (heap w !! a) as [o|] eqn:Ha; [|done].
  destruct o; try done. intros [= ->]. by rewrite (He _ _ Ha).
Qed.

Lemma evolves_date w w' r t :
  evolves w w' -> heap w !! r = Some (HDate t) -> heap w' !! r = Some (HDate t).
Proof. intros [_ He] Hr. apply (He _ _ Hr). Qed.

Lemma evolves_object w w' r p :
  evolves w w' -> heap w !! r = Some (HObject p) -> heap w' !! r = Some (HObject p).
Proof. intros [_ He] Hr. apply (He _ _ Hr). Qed.

Lemma evolves_emptied w w' r :
  evolves w w' -> heap w !! r = Some (HArray []) -> heap w' !! r = Some (HArray []).
Proof. intros [_ He] Hr. by destruct (He _ _ Hr). Qed.

Section SerializationFacts.
Context `{Host}.

Lemma eachM_cons {A B} (f : A -> B -> option A) acc x l :
  eachM f acc (x :: l) = acc' ← f acc x; eachM f acc' l.
Proof. reflexivity. Qed.

Lemma eachM_app {A B} (f : A -> B -> option A) acc l1 l2 :
  eachM f acc (l1 ++ l2) = acc' ← eachM f acc l1; eachM f acc' l2.
Proof.
  revert acc. induction l1 as [|x r IH]; intros acc; simpl; [done |].
  destruct (f acc x) as [acc'|]; simpl; [apply IH | done].
Qed.

Lemma toArray_evolves rec w l w' v :
  evolving rec -> toArray rec w l = Some (w', v) -> evolves w w'.
Proof.
  intros Hrec. unfold toArray.
  assert (forall l w out w1 out1,
    eachM (toArrayElem rec) (w, out) l = Some (w1, out1) -> evolves w w1) as Hloop.
  { clear w l w' v. induction l as [|x r IH]; intros w out w1 out1.
    - intros [= <- _]. apply evolves_refl.
    - rewrite eachM_cons.
      destruct (toArrayElem rec (w, out) x) as [[w0 out0]|] eqn:Hx; simpl; [|done].
      intros Hr. apply IH in Hr. refine (evolves_trans _ _ _ _ Hr).
      unfold toArrayElem in Hx.
      destruct x; try (injection Hx as <- _; apply evolves_refl).
      destruct (heap w !! a) as [[]|];
        try (injection Hx as <- _; apply evolves_refl).
      destruct (rec w a None VUndef) as [[w2 v2]|] eqn:Hn; simpl in Hx; [|done].
      injection Hx as <- _. by eapply Hrec. }
  destruct (eachM _ _ l) as [[w1 out]|] eqn:Hl; simpl; [|done].
  intros [= <- _]. eapply evolves_trans; [by eapply Hloop | apply alloc_evolves].
Qed.

Lemma copyValue_evolves rec opts w ret index r w1 ret1 v1 :
  evolving rec -> copyValue rec opts w ret index r = Some (w1, ret1, v1) ->
  evolves w w1.
Proof.
  intros Hrec. unfold copyValue.
  destruct (heap w !! r) as [o|] eqn:Hr; simpl; [|done].
  destruct o as [p|l|t|l|i].
  - destruct (_ || _); [done |]. intros [= <- _ _]. apply alloc_evolves.
  - intros [= <- _ _]. eapply evolves_trans; [by eapply splice_evolves |].
    apply (alloc_evolves (HArray l) (store r (HArray []) w)).
  - destruct (isTrue (o_dateToISO opts)); intros [= <- _ _].
    + apply alloc_evolves.
    + eapply evolves_trans; [apply (alloc_evolves (HDate t) w) |].
      apply (alloc_evolves (HDate t) (alloc (HDate t) w).1).
  - destruct (toArray rec w l) as [[w2 v2]|] eqn:Ha; simpl; [|done].
    intros [= <- _ _]. by eapply toArray_evolves.
  - destruct (rec w r _ _) as [[w2 v2]|] eqn:Hn; simpl; [|done].
    intros [= <- _ _]. by eapply Hrec.
Qed.

Lemma toObjectField_evolves rec sch opts a w ret fld w' ret' :
  evolving rec -> toObjectField rec sch opts a (w, ret) fld = Some (w', ret') ->
  evolves w w'.
Proof.
  intros Hrec. unfold toObjectField. destruct fld as [index p].
  repeat (match goal with
          | |- context [if ?b then Some (w, ret) else _] => destruct b
          end; [intros [= <- _]; apply evolves_refl |]).
  destruct (instanceAt w a) as [i|]; simpl; [|done].
  destruct (_ && isNullish _); [intros [= <- _]; apply evolves_refl |].
  destruct (proxyGet sch w a i index p) as [| |b|n|s|f|r];
    try (intros [= <- _]; apply evolves_refl).
  destruct (copyValue rec opts w ret index r) as [[[w1 ret1] v1]|] eqn:Hc;
    simpl; [|done].
  apply copyValue_evolves in Hc; [|done].
  destruct (_ && _); by intros [= <- _].
Qed.

Lemma eachM_evolves rec sch opts a l w ret w' ret' :
  evolving rec ->
  eachM (toObjectField rec sch opts a) (w, ret) l = Some (w', ret') -> evolves w w'.
Proof.
  intros Hrec. revert w ret. induction l as [|x r IH]; intros w ret.
  - intros [= <- _]. apply evolves_refl.
  - rewrite eachM_cons.
    destruct (toObjectField rec sch opts a (w, ret) x) as [[w0 ret0]|] eqn:Hx;
      simpl; [|done].
    intros Hr. eapply evolves_trans; [by eapply toObjectField_evolves | eauto].
Qed.

Lemma toObjectBody_evolving rec : evolving rec -> evolving (toObjectBody rec).
Proof.
  intros Hrec w a o j w' v. unfold toObjectBody.
  destruct (instanceAt w a) as [i|]; simpl; [|done].
  destruct (schemaOf w i) as [s|]; simpl; [|done].
  destruct (eachM _ _ _) as [[w1 ret]|] eqn:Hl; simpl; [|done].
  intros [= <- _]. eapply evolves_trans; [by eapply eachM_evolves |].
  apply alloc_evolves.
Qed.

Lemma _toObject_evolving fuel : evolving (_toObject fuel).
Proof.
  induction fuel as [|n IH]; [by intros ? ? ? ? ? ? | ].
  simpl. by apply toObjectBody_evolving.
Qed.

(** ** One iteration of the loop *)

Lemma copyValue_date rec opts w ret index r t :
  heap w !! r = Some (HDate t) ->
  exists w1 x, copyValue rec opts w ret index r = Some (w1, aset index x ret, VRef r)
               /\ evolves w w1.
Proof.
  intros Hr. unfold copyValue. rewrite Hr. simpl.
  destruct (isTrue (o_dateToISO opts)).
  - eexists _, _. split; [reflexivity | apply alloc_evolves].
  - eexists _, _. split; [reflexivity |].
    eapply evolves_trans; [apply (alloc_evolves (HDate t) w) |].
    apply (alloc_evolves (HDate t) (alloc (HDate t) w).1).
Qed.

Lemma copyValue_not_date rec opts w ret index r w1 ret1 v1 :
  evolving rec ->
  copyValue rec opts w ret index r = Some (w1, ret1, v1) ->
  isDate w1 v1 = false -> ret1 = ret.
Proof.
  intros Hrec. unfold copyValue.
  destruct (heap w !! r) as [o|] eqn:Hr; simpl; [|done].
  destruct o as [p|l|t|l|i].
  - destruct (_ || _); [done |]. by intros [= _ <- _].
  - by intros [= _ <- _].
  - destruct (copyValue_date rec opts w ret index r t Hr) as (w2 & x & Hc & Hev).
    unfold copyValue in Hc. rewrite Hr in Hc. simpl in Hc. rewrite Hc.
    intros [= <- _ <-]. unfold isDate.
    by rewrite (evolves_date _ _ _ _ Hev Hr).
  - destruct (toArray rec w l) as [[w2 v2]|]; simpl; [|done]. by intros [= _ <- _].
  - destruct (rec w r _ _) as [[w2 v2]|]; simpl; [|done]. by intros [= _ <- _].
Qed.

Lemma copyValue_ret rec opts w ret index r w1 ret1 v1 :
  copyValue rec opts w ret index r = Some (w1, ret1, v1) ->
  ret1 = ret \/ exists x, ret1 = aset index x ret.
Proof.
  unfold copyValue.
  destruct (heap w !! r) as [o|] eqn:Hr; simpl; [|done].
  destruct o as [p|l|t|l|i].
  - destruct (_ || _); [done |]. intros [= _ <- _]. by left.
  - intros [= _ <- _]. by left.
  - destruct (isTrue (o_dateToISO opts)); intros [= _ <- _]; right; eauto.
  - destruct (toArray rec w l) as [[w2 v2]|]; simpl; [|done].
    intros [= _ <- _]. by left.
  - destruct (rec w r _ _) as [[w2 v2]|]; simpl; [|done].
    intros [= _ <- _]. by left.
Qed.

Lemma skipped_false opts p :
  skipped opts p = false ->
  p_invisible p && negb (isVirtual p) = false
  /\ isVirtual p && negb (truthy (o_virtuals opts)) = false
  /\ negb (p_serializable p) && isFalse (o_serializable opts) = false.
Proof.
  unfold skipped. intros Hs.
  apply orb_false_iff in Hs as [Hs H3]. apply orb_false_iff in Hs as [H1 H2]. done.
Qed.

Lemma toObjectField_skipped rec sch opts a w ret index p :
  skipped opts p = true ->
  toObjectField rec sch opts a (w, ret) (index, p) = Some (w, ret).
Proof.
  unfold skipped, toObjectField. intros Hs.
  destruct (p_invisible p && negb (isVirtual p)); [done |].
  destruct (isVirtual p && negb (truthy (o_virtuals opts))); [done |].
  destruct (negb (p_serializable p) && isFalse (o_serializable opts)); done.
Qed.

Lemma toObjectField_visited rec sch opts a w ret index p i :
  skipped opts p = false -> instanceAt w a = Some i ->
  dotNotation (s_options sch) && hasDot index = false ->
  toObjectField rec sch opts a (w, ret) (index, p) =
    let value := readField i index p in
    if truthy (o_minimize opts) && isNullish value then Some (w, ret)
    else
      match value with
      | VRef r =>
          '(w1, ret1, value1) ← copyValue rec opts w ret index r;
          if negb (isDate w1 value1) && truthy (o_minimize opts)
             && (size w1 value1 =? 0)%nat
          then Some (w1, ret1)
          else Some (w1, aset index value1 ret1)
      | _ => Some (w, aset index value ret)
      end.
Proof.
  intros Hs Hi Hdot. apply skipped_false in Hs as (H1 & H2 & H3).
  unfold toObjectField, proxyGet. rewrite H1, H2, H3, Hi, Hdot. reflexivity.
Qed.

(** An iteration writes to no key but its own. *)
Lemma toObjectField_other rec sch opts a w ret index p w' ret' k :
  toObjectField rec sch opts a (w, ret) (index, p) = Some (w', ret') ->
  k <> index -> alookup k ret' = alookup k ret.
Proof.
  intros Hf Hne. destruct (skipped opts p) eqn:Hs.
  { rewrite toObjectField_skipped in Hf by done. by injection Hf as <- <-. }
  unfold toObjectField in Hf. apply skipped_false in Hs as (H1 & H2 & H3).
  rewrite H1, H2, H3 in Hf.
  destruct (instanceAt w a) as [i|]; simpl in Hf; [|done].
  destruct (_ && isNullish _); [by injection Hf as <- <- |].
  destruct (proxyGet sch w a i index p) as [| |b|n|s|f|r];
    try (injection Hf as <- <-; by apply alookup_aset_ne).
  destruct (copyValue rec opts w ret index r) as [[[w1 ret1] v1]|] eqn:Hc;
    simpl in Hf; [|done].
  assert (alookup k ret1 = alookup k ret) as Hr1.
  { destruct (copyValue_ret _ _ _ _ _ _ _ _ _ Hc) as [-> | [x ->]]; [done |].
    by apply alookup_aset_ne. }
  destruct (_ && _); injection Hf as <- <-; [done |].
  by rewrite alookup_aset_ne.
Qed.

Lemma eachM_other rec sch opts a l w ret w' ret' k :
  eachM (toObjectField rec sch opts a) (w, ret) l = Some (w', ret') ->
  k ∉ keys l -> alookup k ret' = alookup k ret.
Proof.
  revert w ret. induction l as [|[index p] r IH]; intros w ret.
  - by intros [= <- <-].
  - rewrite eachM_cons.
    destruct (toObjectField rec sch opts a (w, ret) (index, p)) as [[w0 ret0]|] eqn:Hx;
      simpl; [|done].
    intros Hr Hk. simpl in Hk. apply not_elem_of_cons in Hk as [Hne Hk].
    rewrite (IH _ _ Hr Hk). by eapply toObjectField_other.
Qed.

(** An iteration adds at most its own key, at the end. *)
Lemma toObjectField_keys rec sch opts a w ret index p w' ret' :
  toObjectField rec sch opts a (w, ret) (index, p) = Some (w', ret') ->
  keys ret' = keys ret \/ keys ret' = keys ret ++ [index].
Proof.
  assert (forall (x : val) (l : props),
    keys (aset index x l) = keys l \/ keys (aset index x l) = keys l ++ [index]) as Hk.
  { intros x l. rewrite keys_aset. destruct (inb index (keys l)); auto. }
  assert (forall (x y : val) (l : props),
    keys (aset index x (aset index y l)) = keys l
    \/ keys (aset index x (aset index y l)) = keys l ++ [index]) as Hk2.
  { intros x y l. rewrite !keys_aset. destruct (inb index (keys l)) eqn:E.
    - rewrite E. auto.
    - replace (inb index (keys l ++ [index])) with true; [auto |].
      symmetry. apply inb_true. apply elem_of_app. right. apply list_elem_of_here. }
  intros Hf. destruct (skipped opts p) eqn:Hs.
  { rewrite toObjectField_skipped in Hf by done. injection Hf as <- <-. by left. }
  unfold toObjectField in Hf. apply skipped_false in Hs as (H1 & H2 & H3).
  rewrite H1, H2, H3 in Hf.
  destruct (instanceAt w a) as [i|]; simpl in Hf; [|done].
  destruct (_ && isNullish _); [injection Hf as <- <-; by left |].
  destruct (proxyGet sch w a i index p) as [| |b|n|s|f|r];
    try (injection Hf as <- <-; apply Hk).
  destruct (copyValue rec opts w ret index r) as [[[w1 ret1] v1]|] eqn:Hc;
    simpl in Hf; [|done].
  destruct (copyValue_ret _ _ _ _ _ _ _ _ _ Hc) as [-> | [x ->]];
    destruct (_ && _); injection Hf as <- <-; auto.
Qed.

Lemma eachM_keys rec sch opts a l w ret w' ret' :
  eachM (toObjectField rec sch opts a) (w, ret) l = Some (w', ret') ->
  exists ks, keys ret' = keys ret ++ ks /\ sublist ks (keys l).
Proof.
  revert w ret. induction l as [|[index p] r IH]; intros w ret.
  - intros [= <- <-]. exists []. by rewrite app_nil_r.
  - rewrite eachM_cons.
    destruct (toObjectField rec sch opts a (w, ret) (index, p)) as [[w0 ret0]|] eqn:Hx;
      simpl; [|done].
    intros Hr. destruct (IH _ _ Hr) as (ks & Hks & Hsub).
    destruct (toObjectField_keys _ _ _ _ _ _ _ _ _ _ Hx) as [E | E]; rewrite E in Hks.
    + exists ks. split; [done | by apply sublist_cons].
    + exists (index :: ks). split; [by rewrite Hks, <- app_assoc |].
      by apply sublist_skip.
Qed.

(** The loop over a schema with distinct field names, cut at one field. *)
Lemma eachM_split rec sch opts a pre index p post w w' ret :
  NoDup (keys (pre ++ (index, p) :: post)) ->
  eachM (toObjectField rec sch opts a) (w, []) (pre ++ (index, p) :: post) = Some (w', ret) ->
  exists wk retk wk' retk',
    eachM (toObjectField rec sch opts a) (w, []) pre = Some (wk, retk)
    /\ toObjectField rec sch opts a (wk, retk) (index, p) = Some (wk', retk')
    /\ alookup index retk = None
    /\ alookup index ret = alookup index retk'
    /\ (evolving rec -> evolves w wk /\ evolves wk' w').
Proof.
  intros Hnd Hl. rewrite eachM_app in Hl.
  apply bind_Some in Hl as ([wk retk] & Hpre & Hl). rewrite eachM_cons in Hl.
  apply bind_Some in Hl as ([wk' retk'] & Hx & Hpost).
  exists wk, retk, wk', retk'.
  rewrite keys_app in Hnd. apply NoDup_app in Hnd as (_ & Hdisj & Hnd).
  simpl in Hnd. apply NoDup_cons in Hnd as [Hpostk _].
  split_and!; try done.
  - apply alookup_None. destruct (eachM_keys _ _ _ _ _ _ _ _ _ Hpre) as (ks & Hks & Hsub).
    simpl in Hks. subst ks. intros Hin.
    apply (Hdisj index); [by apply (sublist_subseteq _ _ Hsub) | apply list_elem_of_here].
  - by eapply eachM_other.
  - intros Hrec. split; by eapply eachM_evolves.
Qed.

(** The loop of a whole serialization, seen from one visited field: the
    iteration of that field runs in a world that evolved from the initial
    one, and what it leaves under its key is what the result has there. *)
Lemma field_outcome rec sch options a w w1 ret i pre index p post :
  evolving rec -> instanceAt w a = Some i ->
  NoDup (keys (pre ++ (index, p) :: post)) ->
  skipped options p = false ->
  dotNotation (s_options sch) && hasDot index = false ->
  eachM (toObjectField rec sch options a) (w, []) (pre ++ (index, p) :: post)
    = Some (w1, ret) ->
  exists wk retk wk' retk',
    eachM (toObjectField rec sch options a) (w, []) pre = Some (wk, retk)
    /\ evolves w wk /\ evolves wk' w1
    /\ alookup index retk = None
    /\ alookup index ret = alookup index retk'
    /\ Some (wk', retk') =
       (let value := readField i index p in
        if truthy (o_minimize options) && isNullish value then Some (wk, retk)
        else
          match value with
          | VRef r =>
              '(w1, ret1, value1) ← copyValue rec options wk retk index r;
              if negb (isDate w1 value1) && truthy (o_minimize options)
                 && (size w1 value1 =? 0)%nat
              then Some (w1, ret1)
              else Some (w1, aset index value1 ret1)
          | _ => Some (wk, aset index value retk)
          end).
Proof.
  intros Hrec Hi Hnd Hs Hdot Hl.
  destruct (eachM_split _ _ _ _ _ _ _ _ _ _ _ Hnd Hl)
    as (wk & retk & wk' & retk' & Hpre & Hx & Hnone & Hfin & Hev).
  destruct (Hev Hrec) as [Hev1 Hev2].
  exists wk, retk, wk', retk'. split_and!; try done.
  rewrite <- Hx. apply toObjectField_visited; [done | | done].
  by eapply evolves_instance.
Qed.

Lemma toObjectBody_result rec w a opts json i s w' v :
  instanceAt w a = Some i -> schemaOf w i = Some s ->
  isFunction (resolveTransform s (_prepareToObjectOptions s opts json)) = false ->
  toObjectBody rec w a opts json = Some (w', v) ->
  exists w1 ret,
    eachM (toObjectField rec s (_prepareToObjectOptions s opts json) a) (w, [])
      (descriptor s) = Some (w1, ret)
    /\ v = VRef (length (heap w1))
    /\ heap w' !! length (heap w1) = Some (HObject ret)
    /\ evolves w1 w'.
Proof.
  intros Hi Hs Hnf. unfold toObjectBody. rewrite Hi. simpl. rewrite Hs. simpl.
  destruct (eachM _ _ _) as [[w1 ret]|] eqn:Hl; simpl; [|done].
  intros [= <- <-]. exists w1, ret. split_and!; try done.
  - destruct (resolveTransform _ _); try done; simpl; by apply list_lookup_middle.
  - apply alloc_evolves.
Qed.

(** A visited field that reads as a boolean, a number or a string is in the
    result with that value, with or without [minimize]. *)
Lemma primitive_in_result fuel w a opts json i s w' v index p :
  instanceAt w a = Some i -> schemaOf w i = Some s ->
  NoDup (keys (descriptor s)) ->
  isFunction (resolveTransform s (_prepareToObjectOptions s opts json)) = false ->
  (index, p) ∈ descriptor s ->
  skipped (_prepareToObjectOptions s opts json) p = false ->
  dotNotation (s_options s) && hasDot index = false ->
  isPrimitive (readField i index p) = true ->
  _toObject fuel w a opts json = Some (w', v) ->
  exists r ret,
    v = VRef r /\ heap w' !! r = Some (HObject ret)
    /\ alookup index ret = Some (readField i index p).
Proof.
  intros Hi Hs Hnd Hnf Hin Hsk Hdot Hprim Hto.
  destruct fuel as [|fuel]; [done |]. simpl in Hto.
  destruct (toObjectBody_result _ _ _ _ _ _ _ _ _ Hi Hs Hnf Hto)
    as (w1 & ret & Hl & -> & Hret & _).
  exists (length (heap w1)), ret. split_and!; try done.
  apply list_elem_of_split in Hin as (pre & post & Hd). rewrite Hd in Hnd, Hl.
  destruct (field_outcome _ _ _ _ _ _ _ _ _ _ _ _ (_toObject_evolving fuel) Hi Hnd Hsk
              Hdot Hl)
    as (wk & retk & wk' & retk' & _ & _ & _ & _ & Hfin & Hstep).
  rewrite Hfin. simpl in Hstep.
  destruct (readField i index p); try done; simpl in Hstep;
    rewrite ?andb_false_r in Hstep; injection Hstep as _ ->; apply alookup_aset_eq.
Qed.

(** ** What the result of a serialization holds *)

(** C4: what the result holds for a Date field is the stored date object
    itself, whatever [dateToISO] says: the copy and the ISO string written by
    the date branch are overwritten by the final assignment of the loop. *)
Theorem date_field_holds_stored_date fuel w a opts json i s w' v index p x t :
  instanceAt w a = Some i -> schemaOf w i = Some s ->
  NoDup (keys (descriptor s)) ->
  isFunction (resolveTransform s (_prepareToObjectOptions s opts json)) = false ->
  (index, p) ∈ descriptor s ->
  skipped (_prepareToObjectOptions s opts json) p = false ->
  dotNotation (s_options s) && hasDot index = false ->
  readField i index p = VRef x -> heap w !! x = Some (HDate t) ->
  _toObject fuel w a opts json = Some (w', v) ->
  exists r ret,
    v = VRef r /\ heap w' !! r = Some (HObject ret)
    /\ alookup index ret = Some (VRef x).
Proof.
  intros Hi Hs Hnd Hnf Hin Hsk Hdot Hread Hx Hto.
  destruct fuel as [|fuel]; [done |]. simpl in Hto.
  destruct (toObjectBody_result _ _ _ _ _ _ _ _ _ Hi Hs Hnf Hto)
    as (w1 & ret & Hl & -> & Hret & _).
  exists (length (heap w1)), ret. split_and!; try done.
  apply list_elem_of_split in Hin as (pre & post & Hd). rewrite Hd in Hnd, Hl.
  destruct (field_outcome _ _ _ _ _ _ _ _ _ _ _ _ (_toObject_evolving fuel) Hi Hnd Hsk
              Hdot Hl)
    as (wk & retk & wk' & retk' & _ & Hev & _ & _ & Hfin & Hstep).
  rewrite Hfin. rewrite Hread in Hstep. simpl in Hstep.
  rewrite andb_false_r in Hstep.
  pose proof (evolves_date _ _ _ _ Hev Hx) as Hxk.
  destruct (copyValue_date (_toObject fuel) (_prepareToObjectOptions s opts json)
              wk retk index x t Hxk) as (w2 & y & Hc & Hev2).
  rewrite Hc in Hstep. simpl in Hstep.
  unfold isDate in Hstep. rewrite (evolves_date _ _ _ _ Hev2 Hxk) in Hstep.
  simpl in Hstep. injection Hstep as _ ->. apply alookup_aset_eq.
Qed.

Lemma toObjectBody_loop rec w a opts json i s w' v :
  instanceAt w a = Some i -> schemaOf w i = Some s ->
  toObjectBody rec w a opts json = Some (w', v) ->
  exists w1 ret,
    eachM (toObjectField rec s (_prepareToObjectOptions s opts json) a) (w, [])
      (descriptor s) = Some (w1, ret)
    /\ evolves w1 w'.
Proof.
  intros Hi Hs. unfold toObjectBody. rewrite Hi. simpl. rewrite Hs. simpl.
  destruct (eachM _ _ _) as [[w1 ret]|] eqn:Hl; simpl; [|done].
  intros [= <- <-]. exists w1, ret. split; [done | apply alloc_evolves].
Qed.

(** C1: serializing a document empties every plain array that a visited
    field holds: [value.splice(0)] moves the elements out of the stored array
    into the one that is handed to the result. *)
Theorem toObject_empties_stored_array fuel w a opts json i s w' v index p x l :
  instanceAt w a = Some i -> schemaOf w i = Some s ->
  NoDup (keys (descriptor s)) ->
  (index, p) ∈ descriptor s ->
  skipped (_prepareToObjectOptions s opts json) p = false ->
  dotNotation (s_options s) && hasDot index = false ->
  readField i index p = VRef x -> heap w !! x = Some (HArray l) ->
  _toObject fuel w a opts json = Some (w', v) ->
  heap w' !! x = Some (HArray []).
Proof.
  intros Hi Hs Hnd Hin Hsk Hdot Hread Hx Hto.
  destruct fuel as [|fuel]; [done |]. simpl in Hto.
  destruct (toObjectBody_loop _ _ _ _ _ _ _ _ _ Hi Hs Hto) as (w1 & ret & Hl & Hev1).
  apply list_elem_of_split in Hin as (pre & post & Hd). rewrite Hd in Hnd, Hl.
  destruct (field_outcome _ _ _ _ _ _ _ _ _ _ _ _ (_toObject_evolving fuel) Hi Hnd Hsk
              Hdot Hl)
    as (wk & retk & wk' & retk' & _ & Hev & Hev' & _ & _ & Hstep).
  rewrite Hread in Hstep. simpl in Hstep. rewrite andb_false_r in Hstep.
  apply (evolves_emptied w1 w'); [done |]. apply (evolves_emptied wk' w1); [done |].
  assert (exists l', heap wk !! x = Some (HArray l')) as [l' Hxk].
  { destruct Hev as [_ Hev]. destruct (Hev _ _ Hx); eauto. }
  unfold copyValue in Hstep. rewrite Hxk in Hstep. simpl in Hstep.
  assert (<[x:=HArray []]> (heap wk) !! x = Some (HArray [])) as Hxe.
  { apply list_lookup_insert_eq. by eapply lookup_lt_Some. }
  match type of Hstep with context [if ?b then _ else _] => destruct b end;
    injection Hstep as -> _; simpl;
    (rewrite lookup_app_l; [done | by eapply lookup_lt_Some]).
Qed.

(** C5: with [minimize] on (and no transform function in play), for every
    field that the loop visits: a field that reads as [undefined] or [null]
    is left out of the result; so is a field whose serialized value is an
    empty aggregate that is not a date, in particular a field holding an
    empty plain object or an empty plain array; a field that reads as a
    boolean, a number or a string, [false], [0] and [""] included, is in the
    result with that very value; and a field holding a date is in the
    result. *)
Theorem minimize_omits_empty_keeps_scalars fuel w a opts json i s w' v :
  instanceAt w a = Some i -> schemaOf w i = Some s ->
  NoDup (keys (descriptor s)) ->
  truthy (o_minimize (_prepareToObjectOptions s opts json)) = true ->
  isFunction (resolveTransform s (_prepareToObjectOptions s opts json)) = false ->
  _toObject (S fuel) w a opts json = Some (w', v) ->
  exists r ret,
    v = VRef r /\ heap w' !! r = Some (HObject ret)
    /\ forall index p, (index, p) ∈ descriptor s ->
       skipped (_prepareToObjectOptions s opts json) p = false ->
       dotNotation (s_options s) && hasDot index = false ->
       (isNullish (readField i index p) = true -> alookup index ret = None)
       /\ (forall pre post wk retk x wk1 ret1 v1,
             descriptor s = pre ++ (index, p) :: post ->
             eachM (toObjectField (_toObject fuel) s (_prepareToObjectOptions s opts json) a)
               (w, []) pre = Some (wk, retk) ->
             readField i index p = VRef x ->
             copyValue (_toObject fuel) (_prepareToObjectOptions s opts json)
               wk retk index x = Some (wk1, ret1, v1) ->
             isDate wk1 v1 = false -> size wk1 v1 = 0 ->
             alookup index ret = None)
       /\ (forall x, readField i index p = VRef x ->
             heap w !! x = Some (HObject []) \/ heap w !! x = Some (HArray []) ->
             alookup index ret = None)
       /\ (isPrimitive (readField i index p) = true ->
             alookup index ret = Some (readField i index p))
       /\ (forall x t, readField i index p = VRef x ->
             heap w !! x = Some (HDate t) ->
             alookup index ret = Some (VRef x)).
Proof.
  intros Hi Hs Hnd Hmin Hnf Hto. simpl in Hto.
  destruct (toObjectBody_result _ _ _ _ _ _ _ _ _ Hi Hs Hnf Hto)
    as (w1 & ret & Hl & -> & Hret & _).
  exists (length (heap w1)), ret. split_and!; try done.
  intros index p Hin Hsk Hdot.
  remember (_prepareToObjectOptions s opts json) as options eqn:Hopt.
  assert (forall pre post, descriptor s = pre ++ (index, p) :: post ->
    exists wk retk wk' retk',
      eachM (toObjectField (_toObject fuel) s options a) (w, []) pre = Some (wk, retk)
      /\ evolves w wk /\ alookup index retk = None
      /\ alookup index ret = alookup index retk'
      /\ Some (wk', retk') =
         (let value := readField i index p in
          if isNullish value then Some (wk, retk)
          else
            match value with
            | VRef r =>
                '(w1, ret1, value1) ← copyValue (_toObject fuel) options wk retk index r;
                if negb (isDate w1 value1) && (size w1 value1 =? 0)%nat
                then Some (w1, ret1)
                else Some (w1, aset index value1 ret1)
            | _ => Some (wk, aset index value retk)
            end)) as Hfield.
  { intros pre post Hd. rewrite Hd in Hnd, Hl.
    destruct (field_outcome _ _ _ _ _ _ _ _ _ _ _ _ (_toObject_evolving fuel)
                Hi Hnd Hsk Hdot Hl)
      as (wk & retk & wk' & retk' & Hpre & Hev & _ & Hnone & Hfin & Hstep).
    exists wk, retk, wk', retk'. split_and!; try done.
    rewrite Hstep. simpl. rewrite Hmin. simpl.
    destruct (isNullish _); [done |]. destruct (readField i index p); try done.
    destruct (copyValue _ _ _ _ _ _) as [[[? ?] ?]|]; simpl; [|done].
    by rewrite andb_true_r. }
  destruct (list_elem_of_split _ _ Hin) as (pre0 & post0 & Hd0).
  destruct (Hfield _ _ Hd0)
    as (wk & retk & wk' & retk' & Hpre & Hev & Hnone & Hfin & Hstep).
  split_and!.
  - intros Hnull. simpl in Hstep. rewrite Hnull in Hstep.
    injection Hstep as _ ->. by rewrite Hfin.
  - intros pre post wk0 retk0 x wk1 ret1 v1 Hd Hpre1 Hread Hc Hnd1 Hsz.
    destruct (Hfield _ _ Hd)
      as (wk2 & retk2 & wk2' & retk2' & Hpre2 & _ & Hnone2 & Hfin2 & Hstep2).
    rewrite Hpre1 in Hpre2. injection Hpre2 as <- <-.
    rewrite Hread in Hstep2. simpl in Hstep2. rewrite Hc in Hstep2. simpl in Hstep2.
    rewrite Hnd1, Hsz in Hstep2. simpl in Hstep2. injection Hstep2 as _ ->.
    rewrite Hfin2.
    by rewrite (copyValue_not_date _ _ _ _ _ _ _ _ _ (_toObject_evolving fuel) Hc Hnd1).
  - intros x Hread Hempty. rewrite Hread in Hstep. simpl in Hstep.
    unfold copyValue in Hstep.
    assert (heap wk !! x = Some (HObject []) \/ heap wk !! x = Some (HArray []))
      as [Hxk | Hxk].
    { destruct Hempty as [Hx | Hx]; [left; by eapply evolves_object |].
      right; by eapply evolves_emptied. }
    + rewrite Hxk in Hstep. simpl in Hstep.
      rewrite list_lookup_middle in Hstep by done. simpl in Hstep.
      injection Hstep as _ ->. by rewrite Hfin.
    + rewrite Hxk in Hstep. simpl in Hstep.
      rewrite list_lookup_middle in Hstep by (by rewrite length_insert).
      simpl in Hstep. injection Hstep as _ ->. by rewrite Hfin.
  - intros Hprim. simpl in Hstep.
    destruct (readField i index p); try done; simpl in Hstep;
      injection Hstep as _ ->; rewrite Hfin; apply alookup_aset_eq.
  - intros x t Hread Hx. rewrite Hread in Hstep. simpl in Hstep.
    pose proof (evolves_date _ _ _ _ Hev Hx) as Hxk.
    destruct (copyValue_date (_toObject fuel) options wk retk index x t Hxk)
      as (w2 & y & Hc & Hev2).
    rewrite Hc in Hstep. simpl in Hstep. unfold isDate in Hstep.
    rewrite (evolves_date _ _ _ _ Hev2 Hxk) in Hstep. simpl in Hstep.
    injection Hstep as _ ->. rewrite Hfin. apply alookup_aset_eq.
Qed.

(** The result is a new object whose keys are field names of the schema, in
    the schema's order. *)
Lemma result_shape fuel w a opts json i s w' v :
  instanceAt w a = Some i -> schemaOf w i = Some s ->
  isFunction (resolveTransform s (_prepareToObjectOptions s opts json)) = false ->
  _toObject fuel w a opts json = Some (w', v) ->
  exists r ret,
    v = VRef r /\ heap w' !! r = Some (HObject ret)
    /\ evolves w w' /\ sublist (keys ret) (keys (descriptor s)).
Proof.
  intros Hi Hs Hnf Hto.
  pose proof (_toObject_evolving fuel _ _ _ _ _ _ Hto) as Hev.
  destruct fuel as [|fuel]; [done |]. simpl in Hto.
  destruct (toObjectBody_result _ _ _ _ _ _ _ _ _ Hi Hs Hnf Hto)
    as (w1 & ret & Hl & -> & Hret & _).
  exists (length (heap w1)), ret. split_and!; try done.
  destruct (eachM_keys _ _ _ _ _ _ _ _ _ Hl) as (ks & Hks & Hsub). simpl in Hks.
  by rewrite Hks.
Qed.


(** *** A result exists *)

Lemma flat_evolves w w' v : evolves w w' -> flat w v -> flat w' v.
Proof.
  intros [_ Hev] Hf. destruct v; try done. unfold flat in *.
  destruct (heap w !! a) as [o|] eqn:Ha; [|done]. specialize (Hev _ _ Ha).
  destruct o; try done.
  - by rewrite Hev.
  - by destruct Hev as [-> | ->].
  - by rewrite Hev.
Qed.

Lemma copyValue_flat rec opts w ret index r :
  flat w (VRef r) -> exists res, copyValue rec opts w ret index r = Some res.
Proof.
  unfold flat, copyValue. destruct (heap w !! r) as [[p|l|t|l|i]|]; simpl; try done.
  - intros ->. eexists; reflexivity.
  - eexists; reflexivity.
  - destruct (isTrue _); eexists; reflexivity.
Qed.

(** With a unit of fuel, the serialization of a document whose visited
    fields hold nothing but primitives, functions, plain arrays, dates and
    plain objects yields a result. *)
Lemma toObject_flat_returns fuel w a opts json i s :
  instanceAt w a = Some i -> schemaOf w i = Some s ->
  (forall index p, (index, p) ∈ descriptor s ->
     skipped (_prepareToObjectOptions s opts json) p = false ->
     dotNotation (s_options s) && hasDot index = false
     /\ flat w (readField i index p)) ->
  exists w' r, _toObject (S fuel) w a opts json = Some (w', VRef r).
Proof.
  intros Hi Hs Hflat. simpl. unfold toObjectBody. rewrite Hi. simpl. rewrite Hs. simpl.
  remember (_prepareToObjectOptions s opts json) as options eqn:Hopt. clear Hopt.
  assert (forall l wk ret, evolves w wk ->
            (forall fld, fld ∈ l -> fld ∈ descriptor s) ->
            exists res, eachM (toObjectField (_toObject fuel) s options a) (wk, ret) l
                        = Some res) as Hloop.
  { induction l as [|[index p] rest IH]; intros wk ret Hev Hsub; [eexists; reflexivity |].
    rewrite eachM_cons.
    assert (exists wk' ret', toObjectField (_toObject fuel) s options a (wk, ret) (index, p)
                             = Some (wk', ret')) as (wk' & ret' & Hx).
    { destruct (skipped options p) eqn:Hsk.
      { rewrite toObjectField_skipped by done. eexists _, _; reflexivity. }
      destruct (Hflat index p) as [Hdot Hf]; [apply Hsub, list_elem_of_here | done |].
      rewrite (toObjectField_visited _ _ _ _ _ _ _ _ i Hsk) by
        (done || by eapply evolves_instance).
      simpl. destruct (_ && isNullish _); [eexists _, _; reflexivity |].
      pose proof (flat_evolves _ _ _ Hev Hf) as Hfk.
      destruct (readField i index p) as [| |b|n|str|f|r]; try (eexists _, _; reflexivity).
      destruct (copyValue_flat (_toObject fuel) options wk ret index r Hfk)
        as [[[w1 ret1] v1] ->]. simpl.
      match goal with |- context [if ?b then _ else _] => destruct b end;
        eexists _, _; reflexivity. }
    rewrite Hx. simpl. apply IH.
    - eapply evolves_trans; [exact Hev |].
      eapply toObjectField_evolves; [apply _toObject_evolving | exact Hx].
    - intros fld Hin. apply Hsub. by apply list_elem_of_further. }
  destruct (Hloop (descriptor s) w [] (evolves_refl w)) as [[w1 ret] ->]; [done |].
  simpl. eexists _, _; reflexivity.
Qed.

(** *** Fuel is only a bound *)

Lemma eachM_refines {A B} (f g : A -> B -> option A) l :
  (forall acc x res, f acc x = Some res -> g acc x = Some res) ->
  forall acc res, eachM f acc l = Some res -> eachM g acc l = Some res.
Proof.
  intros Hfg. induction l as [|x r IH]; intros acc res; [done |].
  rewrite !eachM_cons. intros Hl.
  apply bind_Some in Hl as (acc' & Hx & Hr). rewrite (Hfg _ _ _ Hx). simpl. by apply IH.
Qed.

Lemma toArray_refines rec rec' w l res :
  refines rec rec' -> toArray rec w l = Some res -> toArray rec' w l = Some res.
Proof.
  intros Href. unfold toArray. intros Hl.
  apply bind_Some in Hl as ([w1 out] & Hl & Hres).
  rewrite (eachM_refines (toArrayElem rec) (toArrayElem rec') l) with (res := (w1, out));
    [done | | done].
  intros [w0 out0] x res0. unfold toArrayElem.
  destruct x; try done. destruct (heap w0 !! a) as [[]|]; try done.
  intros Hx. apply bind_Some in Hx as ([w2 v2] & Hn & Hx).
  by rewrite (Href _ _ _ _ _ Hn).
Qed.

Lemma copyValue_refines rec rec' opts w ret index r res :
  refines rec rec' ->
  copyValue rec opts w ret index r = Some res ->
  copyValue rec' opts w ret index r = Some res.
Proof.
  intros Href. unfold copyValue.
  destruct (heap w !! r) as [[p|l|t|l|i]|]; simpl; try done.
  - intros Hx. apply bind_Some in Hx as ([w2 v2] & Hn & Hx).
    by rewrite (toArray_refines _ _ _ _ _ Href Hn).
  - intros Hx. apply bind_Some in Hx as ([w2 v2] & Hn & Hx).
    by rewrite (Href _ _ _ _ _ Hn).
Qed.

Lemma toObjectField_refines rec rec' sch opts a acc fld res :
  refines rec rec' ->
  toObjectField rec sch opts a acc fld = Some res ->
  toObjectField rec' sch opts a acc fld = Some res.
Proof.
  intros Href. unfold toObjectField. destruct acc as [w ret], fld as [index p].
  repeat (match goal with
          | |- context [if ?b then Some (w, ret) else _] => destruct b
          end; [done |]).
  destruct (instanceAt w a) as [i|]; simpl; [|done].
  destruct (_ && isNullish _); [done |].
  destruct (proxyGet sch w a i index p) as [| |b|n|str|f|r]; try done.
  intros Hx. apply bind_Some in Hx as ([[w1 ret1] v1] & Hc & Hx).
  by rewrite (copyValue_refines _ _ _ _ _ _ _ _ Href Hc).
Qed.

Lemma toObjectBody_refines rec rec' :
  refines rec rec' -> refines (toObjectBody rec) (toObjectBody rec').
Proof.
  intros Href w a o j res. unfold toObjectBody.
  destruct (instanceAt w a) as [i|]; simpl; [|done].
  destruct (schemaOf w i) as [s|]; simpl; [|done].
  intros Hx. apply bind_Some in Hx as ([w1 ret] & Hl & Hx).
  rewrite (eachM_refines _ (toObjectField rec' s (_prepareToObjectOptions s o j) a)
             _ (fun acc x res => toObjectField_refines _ _ _ _ _ acc x res Href)
             _ _ Hl).
  done.
Qed.

(** More fuel gives the same result. *)
Lemma _toObject_fuel n m : n <= m -> refines (_toObject n) (_toObject m).
Proof.
  intros Hle. induction Hle as [|m Hle IH].
  - by intros ? ? ? ? ?.
  - intros w a o j res Hn. apply IH in Hn. clear IH Hle n. revert w a o j res Hn.
    induction m as [|m IHm]; [done |]. intros w a o j res. simpl.
    by apply toObjectBody_refines.
Qed.


End SerializationFacts.

(** ** The options a serialization runs with *)

(** C3 (as amended): the options are not merged three ways.  A plain options
    object without [_useSchemaOptions] is used as it is, with only
    [transform], [json] and [minimize] filled in where undefined: by [true],
    by the flag of the surface, and by the schema-level [minimize] of that
    surface if it is a boolean, else [true].  No other schema-level option
    enters these options, but one more is still applied: when the call-time
    [transform] is left out or [true], the transform that runs at the end is
    the schema-level one of the surface that the prepared [json] selects; a
    call-time transform function, or one that is falsy and not [undefined],
    is kept.  Otherwise (no plain options object, or [_useSchemaOptions]
    set) the call-time options are dropped and the schema-level options of
    the surface are used, with [json] and [_useSchemaOptions] set and
    [transform] and [minimize] defaulting to [true].  [virtuals],
    [serializable] and [dateToISO] get no default. *)
Theorem prepared_options_precedence (s : schema) (opts : option options) (json : val) :
  (forall o, opts = Some o -> truthy (o_useSchemaOptions o) = false ->
     _prepareToObjectOptions s opts json =
       {| o_transform := orDefault (o_transform o) (VBool true);
          o_json := orDefault (o_json o) json;
          o_minimize :=
            orDefault (o_minimize o)
              (match o_minimize (schemaLevel s json) with
               | VBool b => VBool b
               | _ => VBool true
               end);
          o_virtuals := o_virtuals o;
          o_serializable := o_serializable o;
          o_dateToISO := o_dateToISO o;
          o_useSchemaOptions := o_useSchemaOptions o |})
  /\ (opts = None \/ (exists o, opts = Some o /\ truthy (o_useSchemaOptions o) = true) ->
      _prepareToObjectOptions s opts json =
        {| o_transform := orDefault (o_transform (schemaLevel s json)) (VBool true);
           o_json := VBool (truthy json);
           o_minimize := orDefault (o_minimize (schemaLevel s json)) (VBool true);
           o_virtuals := o_virtuals (schemaLevel s json);
           o_serializable := o_serializable (schemaLevel s json);
           o_dateToISO := o_dateToISO (schemaLevel s json);
           o_useSchemaOptions := VBool true |})
  /\ (forall o, opts = Some o -> truthy (o_useSchemaOptions o) = false ->
      (forall f, o_transform o = VFun f ->
         resolveTransform s (_prepareToObjectOptions s opts json) = VFun f)
      /\ (o_transform o <> VUndef -> truthy (o_transform o) = false ->
          resolveTransform s (_prepareToObjectOptions s opts json) = o_transform o)
      /\ (o_transform o = VUndef \/ o_transform o = VBool true ->
          resolveTransform s (_prepareToObjectOptions s opts json) =
            match (if truthy (orDefault (o_json o) json) then so_toJSON (s_options s)
                   else so_toObject (s_options s)) with
            | Some o' => o_transform o'
            | None => VBool true
            end)).
Proof.
  assert (_prepareToObjectOptions s None json =
        {| o_transform := orDefault (o_transform (schemaLevel s json)) (VBool true);
           o_json := VBool (truthy json);
           o_minimize := orDefault (o_minimize (schemaLevel s json)) (VBool true);
           o_virtuals := o_virtuals (schemaLevel s json);
           o_serializable := o_serializable (schemaLevel s json);
           o_dateToISO := o_dateToISO (schemaLevel s json);
           o_useSchemaOptions := VBool true |}) as Hschema.
  { unfold _prepareToObjectOptions, defaultMinimizeOption, schemaLevel.
    destruct (truthy json) eqn:Hj; simpl.
    - destruct (so_toJSON (s_options s)) as [o|]; simpl; [|done].
      by destruct (o_minimize o).
    - destruct (so_toObject (s_options s)) as [o|]; simpl; [|done].
      by destruct (o_minimize o). }
  split; [|split].
  - intros o -> Hu. unfold _prepareToObjectOptions, defaultMinimizeOption, schemaLevel.
    rewrite Hu.
    destruct (truthy json); [destruct (so_toJSON _) | destruct (so_toObject _)]; done.
  - intros [-> | (o & -> & Hu)]; [exact Hschema |].
    rewrite <- Hschema. unfold _prepareToObjectOptions. by rewrite Hu.
  - intros o -> Hu. unfold _prepareToObjectOptions. rewrite Hu.
    unfold resolveTransform. cbn [o_transform o_json]. split; [|split].
    + intros f ->. simpl.
      destruct (so_toObject (s_options s)); simpl; [|done].
      by destruct (if truthy _ then _ else _).
    + intros Hdef Hfalsy.
      assert (orDefault (o_transform o) (VBool true) = o_transform o) as ->
        by (by destruct (o_transform o)).
      assert (isTrue (o_transform o) = false) as ->
        by (by destruct (o_transform o) as [| |[]| | | |]).
      by rewrite Hfalsy, andb_false_r.
    + intros [-> | ->]; simpl;
        by destruct (if truthy _ then _ else _).
Qed.

(** ** Writes *)

Lemma allocEach_extends {A B} (f : A -> list hobj -> list hobj * B) ls :
  Forall (fun x => forall h, exists ext, (f x h).1 = h ++ ext) ls ->
  forall h, exists ext, (allocEach f ls h).1 = h ++ ext.
Proof.
  induction 1 as [|x r Hx _ IH]; intros h; simpl.
  - exists []. by rewrite app_nil_r.
  - destruct (Hx h) as [e1 He1]. destruct (f x h) as [h1 v]. simpl in He1.
    destruct (IH h1) as [e2 He2]. destruct (allocEach f r h1) as [h2 vs]. simpl in *.
    exists (e1 ++ e2). by rewrite He2, He1, app_assoc.
Qed.

Lemma allocLit_extends l : forall h, exists ext, (allocLit l h).1 = h ++ ext.
Proof.
  revert l. fix IH 1. intros [ |b|n|s|t|ls|ls] h; simpl.
  - exists []. by rewrite app_nil_r.
  - exists []. by rewrite app_nil_r.
  - exists []. by rewrite app_nil_r.
  - exists []. by rewrite app_nil_r.
  - by eexists.
  - assert (Forall (fun x => forall h, exists ext, (allocLit x h).1 = h ++ ext) ls)
      as HF.
    { induction ls as [|x r IHr]; constructor; [apply IH | exact IHr]. }
    destruct (allocEach_extends _ _ HF h) as [e He].
    destruct (allocEach allocLit ls h) as [h1 vs]. simpl in *.
    exists (e ++ [HArray vs]). by rewrite He, app_assoc.
  - assert (Forall (fun kx : string * lit => forall h, exists ext,
              (let '(h1, v) := allocLit kx.2 h in (h1, (kx.1, v))).1 = h ++ ext) ls)
      as HF.
    { induction ls as [|[k x] r IHr]; constructor; [|exact IHr].
      intros h0. simpl. destruct (IH x h0) as [e He].
      destruct (allocLit x h0) as [h1 v]. simpl in *. eauto. }
    destruct (allocEach_extends _ _ HF h) as [e He].
    destruct (allocEach _ ls h) as [h1 vs]. simpl in *.
    exists (e ++ [HObject vs]). by rewrite He, app_assoc.
Qed.

Lemma all2_impl {A B} (P Q : A -> B -> Prop) la :
  forall lb, (forall x y, P x y -> Q x y) -> all2 P la lb -> all2 Q la lb.
Proof.
  induction la as [|x la IH]; intros [|y lb] HPQ; simpl; try done.
  intros [Hx Hr]. split; [by apply HPQ | by apply IH].
Qed.

Lemma cloneOf_mono l : forall h h' n n' v,
  n' <= n -> (forall r o, n <= r -> h !! r = Some o -> h' !! r = Some o) ->
  cloneOf h n l v -> cloneOf h' n' l v.
Proof.
  revert l. fix IH 1. intros [ |b|m|s|t|ls|ls] h h' n n' v Hn Hf; simpl; try done.
  - intros (r & -> & Hr & Ho). exists r. split_and!; [done | lia | by apply Hf].
  - intros (r & vs & -> & Hr & Ho & Hall). exists r, vs.
    split_and!; [done | lia | by apply Hf |].
    clear Ho. revert vs Hall. induction ls as [|x ls IHls]; intros [|y vs]; simpl; try done.
    intros [Hx Hrest]. split; [by eapply IH | by apply IHls].
  - intros (r & ps & -> & Hr & Ho & Hall). exists r, ps.
    split_and!; [done | lia | by apply Hf |].
    clear Ho. revert ps Hall. induction ls as [|[k x] ls IHls]; intros [|[k' y] ps]; simpl;
      try done.
    intros [[Hk Hx] Hrest]. split; [split; [done | by eapply IH] | by apply IHls].
Qed.

(** A literal is allocated as a copy of its own: all of it, at any depth,
    in new objects. *)
Lemma allocLit_cloneOf l : forall h,
  cloneOf (allocLit l h).1 (length h) l (allocLit l h).2.
Proof.
  revert l. fix IH 1. intros [ |b|m|s|t|ls|ls] h; simpl; try done.
  - exists (length h). split_and!; [done | lia | by apply list_lookup_middle].
  - assert (forall h0, all2 (cloneOf (allocEach allocLit ls h0).1 (length h0)) ls
                         (allocEach allocLit ls h0).2) as Hall.
    { induction ls as [|x ls IHls]; intros h0; simpl; [done |].
      pose proof (IH x h0) as Hx.
      destruct (allocLit_extends x h0) as [e1 He1].
      destruct (allocLit x h0) as [h1 v]. simpl in Hx, He1. simpl.
      pose proof (IHls h1) as Hrest.
      assert (Forall (fun x => forall h, exists ext, (allocLit x h).1 = h ++ ext) ls) as HF
        by (apply Forall_forall; intros; apply allocLit_extends).
      destruct (allocEach_extends _ _ HF h1) as [e2 He2].
      destruct (allocEach allocLit ls h1) as [h2 vs]. simpl in *. split.
      - eapply cloneOf_mono; [| |exact Hx]; [lia |].
        intros r o _ Hr. rewrite He2. rewrite lookup_app_l; [done | by eapply lookup_lt_Some].
      - eapply all2_impl; [|exact Hrest]. intros a b. apply cloneOf_mono; [|done].
        rewrite He1, length_app. lia. }
    specialize (Hall h).
    assert (Forall (fun x => forall h, exists ext, (allocLit x h).1 = h ++ ext) ls) as HF
      by (apply Forall_forall; intros; apply allocLit_extends).
    destruct (allocEach_extends _ _ HF h) as [e He].
    destruct (allocEach allocLit ls h) as [h1 vs]. simpl in *.
    exists (length h1), vs. split_and!; [done | | by apply list_lookup_middle |].
    + rewrite He, length_app. lia.
    + eapply all2_impl; [|exact Hall]. intros a b. apply cloneOf_mono; [done |].
      intros r o _ Hr. rewrite lookup_app_l; [done | by eapply lookup_lt_Some].
  - set (f := fun (kx : string * lit) h => let '(h1, v) := allocLit kx.2 h in (h1, (kx.1, v))).
    assert (Forall (fun kx : string * lit => forall h, exists ext, (f kx h).1 = h ++ ext) ls)
      as HF.
    { apply Forall_forall. intros [k x] _ h0. unfold f. simpl.
      destruct (allocLit_extends x h0) as [e He].
      destruct (allocLit x h0) as [h1 v]. simpl in *. eauto. }
    assert (forall h0, all2 (fun (kl : string * lit) (kv : string * val) =>
                               kl.1 = kv.1 /\ cloneOf (allocEach f ls h0).1 (length h0) kl.2 kv.2)
                         ls (allocEach f ls h0).2) as Hall.
    { clear HF. induction ls as [|[k x] ls IHls]; intros h0; simpl; [done |].
      assert (f (k, x) h0 = ((allocLit x h0).1, (k, (allocLit x h0).2))) as ->
        by (unfold f; simpl; by destruct (allocLit x h0)).
      pose proof (IH x h0) as Hx.
      destruct (allocLit_extends x h0) as [e1 He1].
      destruct (allocLit x h0) as [h1 v]. simpl in Hx, He1. simpl.
      pose proof (IHls h1) as Hrest.
      assert (Forall (fun kx : string * lit => forall h, exists ext, (f kx h).1 = h ++ ext) ls)
        as HF.
      { apply Forall_forall. intros [k' x'] _ h'. unfold f. simpl.
        destruct (allocLit_extends x' h') as [e He].
        destruct (allocLit x' h') as [h1' v']. simpl in *. eauto. }
      destruct (allocEach_extends _ _ HF h1) as [e2 He2].
      destruct (allocEach f ls h1) as [h2 ps]. simpl in *. split; [split; [done |] |].
      - eapply cloneOf_mono; [| |exact Hx]; [lia |].
        intros r o _ Hr. rewrite He2. rewrite lookup_app_l; [done | by eapply lookup_lt_Some].
      - eapply all2_impl; [|exact Hrest]. intros a b; simpl; intros [Hk Hc]. split; [done |].
        revert Hc. apply cloneOf_mono; [|done].
        rewrite He1, length_app. lia. }
    specialize (Hall h).
    destruct (allocEach_extends _ _ HF h) as [e He].
    destruct (allocEach f ls h) as [h1 ps]. simpl in *.
    exists (length h1), ps. split_and!; [done | | by apply list_lookup_middle |].
    + rewrite He, length_app. lia.
    + eapply all2_impl; [|exact Hall]. intros a b; simpl; intros [Hk Hc]. split; [done |].
      revert Hc. apply cloneOf_mono; [done |].
      intros r o _ Hr. rewrite lookup_app_l; [done | by eapply lookup_lt_Some].
Qed.

Lemma allocCast_extends c w :
  schemas (allocCast c w).1 = schemas w
  /\ exists ext, heap (allocCast c w).1 = heap w ++ ext.
Proof.
  destruct c as [v|l]; simpl.
  - split; [done |]. exists []. by rewrite app_nil_r.
  - destruct (allocLit_extends l (heap w)) as [ext He].
    destruct (allocLit l (heap w)) as [h v]. simpl in *. eauto.
Qed.

Lemma allocCast_instance c w a i :
  instanceAt w a = Some i -> instanceAt (allocCast c w).1 a = Some i.
Proof.
  destruct (allocCast_extends c w) as [_ [ext He]]. unfold instanceAt. rewrite He.
  destruct (heap w !! a) as [o|] eqn:Ha; [|done].
  rewrite lookup_app_l by (by eapply lookup_lt_Some). by rewrite Ha.
Qed.

Lemma store_instance w a i j :
  instanceAt w a = Some i -> instanceAt (store a (HModel j) w) a = Some j.
Proof.
  unfold instanceAt. destruct (heap w !! a) as [o|] eqn:Ha; [|done]. intros _.
  simpl. rewrite list_lookup_insert_eq; [done | by eapply lookup_lt_Some].
Qed.

Section WritingFacts.
Context `{Host}.

Lemma writeField_schemas w a index p v :
  schemas (writeField w a index p v) = schemas w.
Proof.
  unfold writeField. destruct (instanceAt w a) as [i|]; [|done].
  destruct (p_readOnly p); [done |]. destruct (isVirtual p); [done |].
  destruct (negb _); [done |].
  destruct (p_type p); try done;
    (destruct (typecast p (heap w) _) as [c|]; [|done];
     pose proof (allocCast_extends c w) as [Hs _];
     destruct (allocCast c w) as [w1 v1]; simpl in *; done).
Qed.

Lemma writeField_instance w a index p v i :
  instanceAt w a = Some i ->
  exists j, instanceAt (writeField w a index p v) a = Some j /\ sameDocument i j.
Proof.
  intros Hi. unfold writeField. rewrite Hi.
  assert (sameDocument i i) as Hii by done.
  destruct (p_readOnly p); [eauto |]. destruct (isVirtual p); [eauto |].
  destruct (negb _).
  { eexists. split; [by eapply store_instance | done]. }
  destruct (p_type p);
    try (destruct (typecast p (heap w) _) as [c|];
         [pose proof (allocCast_instance c w a i Hi) as Hi1;
          destruct (allocCast c w) as [w1 v1]; simpl in Hi1 |]);
    (eexists; split; [by eapply store_instance | done]).
Qed.

Lemma writeField_readOnly w a index p v :
  p_readOnly p = true -> writeField w a index p v = w.
Proof.
  intros Hro. unfold writeField. rewrite Hro. by destruct (instanceAt w a).
Qed.

(** A field of type [Any] without transform, validator or virtual stores
    what it is given. *)
Lemma writeField_any w a index p v i :
  instanceAt w a = Some i ->
  p_readOnly p = false -> isVirtual p = false -> p_transform p = None ->
  p_validate p = None -> p_type p = TAny ->
  writeField w a index p v = store a (HModel (setRaw index v i)) w.
Proof.
  intros Hi Hro Hv Ht Hva Hty. unfold writeField.
  by rewrite Hi, Hro, Hv, Ht, Hva, Hty.
Qed.

(** C10: on a document that extends the event emitter, a write to an
    undeclared name that is one of the emitter's own property names (none of
    which has a dot in it) is accepted and does nothing, whatever [strict]
    says: the trap returns [true], the values and the shared schema are
    untouched, and [set] returns normally. *)
Theorem emitter_internal_write_is_noop w a i s name value :
  instanceAt w a = Some i -> schemaOf w i = Some s ->
  i_emitter i = true ->
  alookup name (descriptor s) = None ->
  inb name eventEmmiterInternals = true ->
  dotNotation (s_options s) && hasDot name = false ->
  proxySet w a name value = (w, true)
  /\ set w a (VStr name) value = Some (Returns w).
Proof.
  intros Hi Hs Hem Hun Hint Hdot.
  assert (proxySet w a name value = (w, true)) as Hp.
  { unfold proxySet. by rewrite Hi, Hs, Hdot, Hun, Hem, Hint. }
  split; [done |]. unfold set, assign. simpl. by rewrite Hp.
Qed.

(** C7: [set] lets an exception out when it is given a map with an own
    property [hasOwnProperty] that is not a function: the guard
    [value.hasOwnProperty(key)] of the loop is outside the [try]. *)
Theorem set_throws_on_shadowed_hasOwnProperty w a r key x rest v :
  heap w !! r = Some (HObject ((key, x) :: rest)) ->
  alookup "hasOwnProperty" ((key, x) :: rest) = Some v ->
  isFunction v = false ->
  set w a (VRef r) VUndef = Some (Throws w).
Proof.
  intros Hr Hown Hnf. unfold set, forIn, hasOwnPropertyOf. simpl. rewrite Hr. simpl.
  simpl in Hown. rewrite Hown. by destruct v.
Qed.

(** Given a key that is a primitive, [set] returns normally. *)
Lemma set_key_returns w a path value key :
  isObject path = false -> toPropertyKey path = Some key ->
  exists w', set w a path value = Some (Returns w').
Proof.
  intros Hp Hkey. unfold set. rewrite Hp, Hkey. simpl. by eexists.
Qed.

(** Given a plain object that inherits [hasOwnProperty], [set] returns
    normally. *)
Lemma set_map_returns w a r p :
  heap w !! r = Some (HObject p) -> alookup "hasOwnProperty" p = None ->
  exists w', set w a (VRef r) VUndef = Some (Returns w').
Proof.
  intros Hr Hown. unfold set, forIn, hasOwnPropertyOf. simpl. rewrite Hr. simpl.
  rewrite Hown. clear Hr Hown. revert w.
  induction p as [|[k x] rest IH]; intros w; simpl; [by eexists | apply IH].
Qed.

Lemma hasErrors_nonempty w a : hasErrors w a = true <-> getErrors w a <> [].
Proof. unfold hasErrors. destruct (getErrors w a); simpl; split; done. Qed.

(** A write through the field's pipeline changes nothing of the document but
    the raw value of that field and the error log. *)
Lemma writeField_frame w a index p v i :
  instanceAt w a = Some i ->
  exists j, instanceAt (writeField w a index p v) a = Some j /\ sameDocument i j
    /\ forall k, k <> index -> alookup k (_obj j) = alookup k (_obj i).
Proof.
  intros Hi. unfold writeField. rewrite Hi.
  assert (sameDocument i i) as Hii by done.
  destruct (p_readOnly p); [eauto |]. destruct (isVirtual p); [eauto |].
  destruct (negb _).
  { eexists. split; [by eapply store_instance | done]. }
  destruct (p_type p);
    try (destruct (typecast p (heap w) _) as [c|];
         [pose proof (allocCast_instance c w a i Hi) as Hi1;
          destruct (allocCast c w) as [w1 v1]; simpl in Hi1 |]);
    (eexists; split; [by eapply store_instance |]; split; [done |]);
    intros k Hk; simpl; try done; by apply alookup_aset_ne.
Qed.

Lemma accessorSet_frame w a index v i :
  instanceAt w a = Some i ->
  schemas (accessorSet w a index v).1 = schemas w
  /\ exists j, instanceAt (accessorSet w a index v).1 a = Some j /\ sameDocument i j
       /\ forall k, k <> index -> alookup k (_obj j) = alookup k (_obj i).
Proof.
  intros Hi. unfold accessorSet. rewrite Hi.
  assert (exists j, instanceAt w a = Some j /\ sameDocument i j
            /\ forall k, k <> index -> alookup k (_obj j) = alookup k (_obj i)) as Hid.
  { exists i. done. }
  destruct (schemaOf w i) as [s|]; [|done].
  destruct (alookup index (descriptor s)) as [p|]; [|done].
  destruct (inb index (_getset i)); [|done]. simpl.
  split; [apply writeField_schemas | by apply writeField_frame].
Qed.

Lemma assignReadOnly_instance sid index b w a :
  instanceAt (assignReadOnly sid index b w) a = instanceAt w a.
Proof. done. Qed.

Lemma assignReadOnly_schema sid index b w s :
  schemas w !! sid = Some s ->
  schemas (assignReadOnly sid index b w) !! sid =
    Some {| descriptor := amap index (setReadOnly b) (descriptor s);
            s_options := s_options s |}.
Proof. intros Hs. simpl. by rewrite list_lookup_alter_eq, Hs. Qed.

Lemma setReadOnly_same p : setReadOnly (p_readOnly p) p = p.
Proof. by destruct p. Qed.

(** Turning [readOnly] off and back to what it was leaves the schemas as
    they were. *)
Lemma assignReadOnly_restore sid index w w' s p :
  schemas w !! sid = Some s -> alookup index (descriptor s) = Some p ->
  schemas w' = schemas (assignReadOnly sid index false w) ->
  schemas (assignReadOnly sid index (p_readOnly p) w') = schemas w.
Proof.
  intros Hs Hp Hw'. simpl. rewrite Hw'. simpl.
  apply list_eq. intros m. destruct (decide (sid = m)) as [<- | Hne].
  - rewrite !list_lookup_alter_eq, Hs. simpl. rewrite amap_amap.
    destruct s as [d so]. simpl in *. do 2 f_equal.
    apply amap_id with p; [done |]. by destruct p.
  - by rewrite !list_lookup_alter_ne.
Qed.

Lemma allocCast_value c w w' :
  heap w = heap w' -> (allocCast c w).2 = (allocCast c w').2.
Proof.
  intros Hh. destruct c as [v|l]; simpl; [done |]. rewrite Hh.
  by destruct (allocLit l (heap w')).
Qed.

Lemma populateDefault_frame sid a w index p i s :
  instanceAt w a = Some i -> i_schema i = sid ->
  schemas w !! sid = Some s -> alookup index (descriptor s) = Some p ->
  schemas (populateDefault sid a w (index, p)) = schemas w
  /\ exists j, instanceAt (populateDefault sid a w (index, p)) a = Some j
       /\ sameDocument i j
       /\ forall k, k <> index -> alookup k (_obj j) = alookup k (_obj i).
Proof.
  intros Hi Hsid Hs Hp. unfold populateDefault.
  destruct (p_default p) as [d|]; [|split; [done | exists i; done]].
  set (w1 := assignReadOnly sid index false w).
  assert (instanceAt w1 a = Some i) as Hi1 by done.
  assert (exists w2 v, (match d with
                        | DLit l => allocCast (CNew l) w1
                        | DFun f =>
                            match instanceAt w1 a with
                            | Some i => allocCast (f (_obj i)) w1
                            | None => (w1, VUndef)
                            end
                        end) = (w2, v)
          /\ schemas w2 = schemas w1 /\ instanceAt w2 a = Some i)
    as (w2 & v & -> & Hs2 & Hi2).
  { rewrite Hi1.
    destruct d as [l|f];
      [pose proof (allocCast_extends (CNew l) w1) as [E _];
       pose proof (allocCast_instance (CNew l) w1 a i Hi1) as E2;
       destruct (allocCast (CNew l) w1) as [w2 v]
      |pose proof (allocCast_extends (f (_obj i)) w1) as [E _];
       pose proof (allocCast_instance (f (_obj i)) w1 a i Hi1) as E2;
       destruct (allocCast (f (_obj i)) w1) as [w2 v]];
      exists w2, v; done. }
  destruct (accessorSet_frame w2 a index v i Hi2) as (Hs3 & j & Hj & Hsame & Hother).
  split.
  - apply (assignReadOnly_restore sid index w _ s p Hs Hp). by rewrite Hs3, Hs2.
  - exists j. done.
Qed.

Lemma populateDefault_instance sid a w fld i :
  instanceAt w a = Some i ->
  exists j, instanceAt (populateDefault sid a w fld) a = Some j /\ sameDocument i j.
Proof.
  intros Hi. destruct fld as [index p]. unfold populateDefault.
  destruct (p_default p) as [d|]; [|exists i; done].
  set (w1 := assignReadOnly sid index false w).
  assert (instanceAt w1 a = Some i) as Hi1 by done.
  assert (exists w2 v, (match d with
                        | DLit l => allocCast (CNew l) w1
                        | DFun f =>
                            match instanceAt w1 a with
                            | Some i => allocCast (f (_obj i)) w1
                            | None => (w1, VUndef)
                            end
                        end) = (w2, v) /\ instanceAt w2 a = Some i)
    as (w2 & v & -> & Hi2).
  { rewrite Hi1.
    destruct d as [l|f];
      [pose proof (allocCast_instance (CNew l) w1 a i Hi1) as E2;
       destruct (allocCast (CNew l) w1) as [w2 v]
      |pose proof (allocCast_instance (f (_obj i)) w1 a i Hi1) as E2;
       destruct (allocCast (f (_obj i)) w1) as [w2 v]];
      exists w2, v; done. }
  destruct (accessorSet_frame w2 a index v i Hi2) as (_ & j & Hj & Hsame & _).
  exists j. done.
Qed.

Lemma sameDocument_trans i j k : sameDocument i j -> sameDocument j k -> sameDocument i k.
Proof. intros (? & ? & ?) (? & ? & ?). unfold sameDocument. split_and!; congruence. Qed.

Lemma populate_all_instance sid a l w i :
  instanceAt w a = Some i ->
  exists j, instanceAt (foldl (populateDefault sid a) w l) a = Some j
            /\ sameDocument i j.
Proof.
  revert w i. induction l as [|fld r IH]; intros w i Hi; [exists i; done |].
  change (foldl (populateDefault sid a) w (fld :: r))
    with (foldl (populateDefault sid a) (populateDefault sid a w fld) r).
  destruct (populateDefault_instance sid a w fld i Hi) as (j & Hj & Hij).
  destruct (IH _ _ Hj) as (k & Hk & Hjk). exists k. split; [done |].
  by eapply sameDocument_trans.
Qed.

Lemma populate_all_frame sid a s l w i :
  instanceAt w a = Some i -> i_schema i = sid ->
  schemas w !! sid = Some s ->
  (forall index p, (index, p) ∈ l -> alookup index (descriptor s) = Some p) ->
  schemas (foldl (populateDefault sid a) w l) = schemas w
  /\ exists j, instanceAt (foldl (populateDefault sid a) w l) a = Some j
       /\ sameDocument i j
       /\ forall k, k ∉ keys l -> alookup k (_obj j) = alookup k (_obj i).
Proof.
  revert w i. induction l as [|[index p] r IH]; intros w i Hi Hsid Hs Hl.
  { split; [done |]. exists i. done. }
  change (foldl (populateDefault sid a) w ((index, p) :: r))
    with (foldl (populateDefault sid a) (populateDefault sid a w (index, p)) r).
  destruct (populateDefault_frame sid a w index p i s Hi Hsid Hs)
    as (Hs1 & j & Hj & Hij & Hother).
  { apply Hl. apply list_elem_of_here. }
  destruct (IH (populateDefault sid a w (index, p)) j Hj) as (Hs2 & k & Hk & Hjk & Hrest).
  { destruct Hij as (E & _). by rewrite E. }
  { by rewrite Hs1. }
  { intros index' p' Hin. apply Hl. by apply list_elem_of_further. }
  split; [by rewrite Hs2 |]. exists k. split_and!; try done.
  - by eapply sameDocument_trans.
  - intros k0 Hk0. simpl in Hk0. apply not_elem_of_cons in Hk0 as [Hne Hk0].
    rewrite (Hrest _ Hk0). by apply Hother.
Qed.

(** An instance built without values has an accessor for every field that
    the schema has at that moment. *)
Lemma construct_slots dc w sid em values cl s :
  schemas w !! sid = Some s -> isObject values = false ->
  exists w2 j,
    construct dc w sid em values cl = Some (Returns w2, length (heap w))
    /\ instanceAt w2 (length (heap w)) = Some j
    /\ i_schema j = sid /\ i_emitter j = em /\ _getset j = keys (descriptor s).
Proof.
  intros Hs Hv. unfold construct. rewrite Hs. simpl. rewrite Hv.
  set (i := {| i_schema := sid; i_emitter := em; _obj := []; _errors := [];
               _getset := keys (descriptor s) |}).
  set (w1 := {| heap := heap w ++ [HModel i]; schemas := schemas w |}).
  assert (instanceAt w1 (length (heap w)) = Some i) as Hi.
  { unfold instanceAt. simpl. by rewrite list_lookup_middle. }
  destruct (populate_all_instance sid (length (heap w)) (descriptor s) w1 i Hi)
    as (j & Hj & Hs1 & Hs2 & Hs3).
  eexists _, j. split; [reflexivity |]. done.
Qed.

Lemma inb_defineProperty index i : inb index (_getset (defineProperty index i)) = true.
Proof.
  simpl. destruct (inb index (_getset i)) eqn:E; [done |].
  apply inb_true. apply elem_of_app. right. apply list_elem_of_here.
Qed.

(** *** Accessors stay *)

Lemma populateDefault_plainPaths sid a w fld i :
  instanceAt w a = Some i -> plainPaths sid w ->
  plainPaths sid (populateDefault sid a w fld).
Proof.
  intros Hi Hpp. destruct fld as [index p]. unfold populateDefault.
  destruct (p_default p) as [d|]; [|done].
  set (w1 := assignReadOnly sid index false w).
  assert (plainPaths sid w1) as Hpp1.
  { intros s' Hs'. simpl in Hs'. rewrite list_lookup_alter_eq in Hs'.
    destruct (schemas w !! sid) as [s0|] eqn:Hs0; [|done].
    injection Hs' as <-. simpl. by apply Hpp. }
  assert (instanceAt w1 a = Some i) as Hi1 by done.
  assert (exists w2 v, (match d with
                        | DLit l => allocCast (CNew l) w1
                        | DFun f =>
                            match instanceAt w1 a with
                            | Some i => allocCast (f (_obj i)) w1
                            | None => (w1, VUndef)
                            end
                        end) = (w2, v)
          /\ schemas w2 = schemas w1 /\ instanceAt w2 a = Some i)
    as (w2 & v & -> & Hs2 & Hi2).
  { rewrite Hi1.
    destruct d as [l|f];
      [pose proof (allocCast_extends (CNew l) w1) as [E _];
       pose proof (allocCast_instance (CNew l) w1 a i Hi1) as E2;
       destruct (allocCast (CNew l) w1) as [w2 v]
      |pose proof (allocCast_extends (f (_obj i)) w1) as [E _];
       pose proof (allocCast_instance (f (_obj i)) w1 a i Hi1) as E2;
       destruct (allocCast (f (_obj i)) w1) as [w2 v]];
      exists w2, v; done. }
  destruct (accessorSet_frame w2 a index v i Hi2) as (Hs3 & _).
  intros s' Hs'. simpl in Hs'. rewrite Hs3, Hs2 in Hs'.
  rewrite list_lookup_alter_eq in Hs'.
  destruct (schemas w1 !! sid) as [s0|] eqn:Hs0; [|done].
  injection Hs' as <-. simpl. by apply Hpp1.
Qed.

Lemma populate_all_plainPaths sid a l w i :
  instanceAt w a = Some i -> plainPaths sid w ->
  plainPaths sid (foldl (populateDefault sid a) w l).
Proof.
  revert w i. induction l as [|fld r IH]; intros w i Hi Hpp; [done |].
  change (foldl (populateDefault sid a) w (fld :: r))
    with (foldl (populateDefault sid a) (populateDefault sid a w fld) r).
  destruct (populateDefault_instance sid a w fld i Hi) as (j & Hj & _).
  eapply IH; [exact Hj | by eapply populateDefault_plainPaths].
Qed.

(** Without [dotNotation], a write through the proxy keeps the accessors of
    the document. *)
Lemma proxySet_slots w b key v j :
  instanceAt w b = Some j -> plainPaths (i_schema j) w ->
  exists j',
    instanceAt (proxySet w b key v).1 b = Some j'
    /\ i_schema j' = i_schema j
    /\ (forall n, inb n (_getset j) = true -> inb n (_getset j') = true)
    /\ plainPaths (i_schema j) (proxySet w b key v).1.
Proof.
  intros Hj Hpp.
  assert (exists j', instanceAt w b = Some j' /\ i_schema j' = i_schema j
            /\ (forall n, inb n (_getset j) = true -> inb n (_getset j') = true)
            /\ plainPaths (i_schema j) w) as Hsame by (by exists j).
  unfold proxySet. rewrite Hj. destruct (schemaOf w j) as [s|] eqn:Hs; [|done].
  rewrite (Hpp s Hs). simpl.
  destruct (alookup key (descriptor s)) as [p|] eqn:Hp.
  - destruct (accessorSet_frame w b key v j Hj) as (Hsch & j' & Hj' & (E1 & _ & E3) & _).
    exists j'. split_and!; try done.
    + intros n. by rewrite E3.
    + intros s'. rewrite Hsch. apply Hpp.
  - destruct (i_emitter j && inb key eventEmmiterInternals); [done |].
    destruct (strict (s_options s)); [done |].
    set (w1 := _addToSchema w b key anyProperties).
    assert (instanceAt w1 b = Some (defineProperty key j)) as Hj1.
    { unfold w1, _addToSchema. rewrite Hj. eapply store_instance.
      unfold instanceAt in *. simpl. exact Hj. }
    assert (plainPaths (i_schema j) w1) as Hpp1.
    { intros s'. unfold w1, _addToSchema. rewrite Hj. simpl.
      rewrite list_lookup_alter_eq. unfold schemaOf in Hs. rewrite Hs. simpl.
      intros [= <-]. unfold schemaAdd. rewrite Hp. simpl. by apply (Hpp s). }
    destruct (accessorSet_frame w1 b key v _ Hj1)
      as (Hsch & j' & Hj' & (E1 & _ & E3) & _).
    exists j'. split_and!; try done.
    + intros n Hn. rewrite E3. simpl. destruct (inb key (_getset j)); [done |].
      apply inb_true. apply elem_of_app. left. by apply inb_true.
    + intros s'. rewrite Hsch. apply Hpp1.
Qed.

Lemma worldOf_assign w a key v : worldOf (assign w a key v) = (proxySet w a key v).1.
Proof. unfold assign. destruct (proxySet w a key v) as [w1 []]; done. Qed.

Lemma setEach_slots b m l : forall w j,
  instanceAt w b = Some j -> plainPaths (i_schema j) w ->
  exists j',
    instanceAt (worldOf (setEach w b m l)) b = Some j'
    /\ i_schema j' = i_schema j
    /\ (forall n, inb n (_getset j) = true -> inb n (_getset j') = true).
Proof.
  induction l as [|[k x] rest IH]; intros w j Hj Hpp; [by exists j |].
  assert (exists j', instanceAt (worldOf (setEach (tryCatch (assign w b k x)) b m rest)) b
                     = Some j'
            /\ i_schema j' = i_schema j
            /\ (forall n, inb n (_getset j) = true -> inb n (_getset j') = true)) as Hstep.
  { unfold tryCatch. rewrite worldOf_assign.
    destruct (proxySet_slots w b k x j Hj Hpp) as (j1 & Hj1 & E1 & Hsub1 & Hpp1).
    rewrite <- E1 in Hpp1.
    destruct (IH _ _ Hj1 Hpp1) as (j2 & Hj2 & E2 & Hsub2).
    exists j2. split_and!; [done | congruence | auto]. }
  simpl. destruct m as [|f|]; [exact Hstep | | by exists j].
  destruct (truthy (callFn f [VStr k])); [exact Hstep | by apply IH].
Qed.

(** An instance of a schema without [dotNotation], however it is built, has
    an accessor for every field that the schema has at that moment. *)
Lemma construct_slots_values dc w sid em values cl s o b :
  schemas w !! sid = Some s -> dotNotation (s_options s) = false ->
  construct dc w sid em values cl = Some (o, b) ->
  exists j, instanceAt (worldOf o) b = Some j
            /\ forall n, n ∈ keys (descriptor s) -> inb n (_getset j) = true.
Proof.
  intros Hs Hdot. unfold construct. rewrite Hs.
  cbv beta iota zeta delta [mbind option_bind alloc fst snd].
  set (i := {| i_schema := sid; i_emitter := em; _obj := []; _errors := [];
               _getset := keys (descriptor s) |}).
  set (w1 := {| heap := heap w ++ [HModel i]; schemas := schemas w |}).
  assert (instanceAt w1 (length (heap w)) = Some i) as Hi.
  { unfold instanceAt. simpl. by rewrite list_lookup_middle. }
  assert (plainPaths sid w1) as Hpp1.
  { intros s'. simpl. rewrite Hs. by intros [= <-]. }
  destruct (populate_all_instance sid (length (heap w)) (descriptor s) w1 i Hi)
    as (j & Hj & Hs1 & _ & Hs3).
  pose proof (populate_all_plainPaths sid (length (heap w)) (descriptor s) w1 i Hi Hpp1)
    as Hpp2.
  set (w2 := foldl (populateDefault sid (length (heap w))) w1 (descriptor s)) in *.
  assert (forall n, n ∈ keys (descriptor s) -> inb n (_getset j) = true) as Hslots.
  { intros n Hn. rewrite Hs3. by apply inb_true. }
  destruct (isObject values); [|intros [= <- <-]; by exists j].
  assert (exists w3 data,
            (if cl then allocCast (CNew (dc (heap w2) values)) w2 else (w2, values))
            = (w3, data)
            /\ instanceAt w3 (length (heap w)) = Some j /\ plainPaths sid w3)
    as (w3 & data & -> & Hj3 & Hpp3).
  { destruct cl; [|by eexists _, _].
    pose proof (allocCast_extends (CNew (dc (heap w2) values)) w2) as [E _].
    pose proof (allocCast_instance (CNew (dc (heap w2) values)) w2 _ j Hj) as E2.
    destruct (allocCast _ w2) as [w3 data]. exists w3, data. split_and!; try done.
    intros s'. simpl in E. rewrite E. apply Hpp2. }
  intros Hc. apply bind_Some in Hc as (o' & Hset & [= <- <-]).
  assert (i_schema j = sid) as Hsj by exact Hs1.
  rewrite <- Hsj in Hpp3. unfold set in Hset.
  destruct (isObject data && negb (truthy VUndef)).
  - apply bind_Some in Hset as (l & _ & [= <-]).
    destruct (setEach_slots (length (heap w)) (hasOwnPropertyOf w3 data) l w3 j Hj3 Hpp3)
      as (j' & Hj' & _ & Hsub).
    exists j'. split; [done | auto].
  - apply bind_Some in Hset as (key & _ & [= <-]). simpl.
    unfold tryCatch. rewrite worldOf_assign.
    destruct (proxySet_slots w3 (length (heap w)) key VUndef j Hj3 Hpp3)
      as (j' & Hj' & _ & Hsub & _).
    exists j'. split; [done | auto].
Qed.

(** C6 (as amended): a write to a name that the schema does not declare,
    that is not one of the emitter's own property names on a document that
    extends the event emitter, and that is not a dotted path under
    [dotNotation].  Under [strict] the trap refuses it and nothing changes.
    Otherwise the field is appended to the shared schema with the [Any]
    descriptor, the instance gets its accessor, the value is stored, and an
    instance constructed afterwards has a slot for the field: one built
    without values in any case, and one built from values as well if the
    schema has no [dotNotation]. *)
Theorem undeclared_write w a i s name value :
  instanceAt w a = Some i -> schemaOf w i = Some s ->
  alookup name (descriptor s) = None ->
  i_emitter i && inb name eventEmmiterInternals = false ->
  dotNotation (s_options s) && hasDot name = false ->
  (strict (s_options s) = true ->
     proxySet w a name value = (w, false)
     /\ set w a (VStr name) value = Some (Returns w))
  /\ (strict (s_options s) = false ->
      exists w',
        proxySet w a name value = (w', true)
        /\ set w a (VStr name) value = Some (Returns w')
        /\ schemaOf w' i =
             Some {| descriptor := descriptor s ++ [(name, anyProperties)];
                     s_options := s_options s |}
        /\ instanceAt w' a = Some (setRaw name value (defineProperty name i))
        /\ (forall dc em cl, exists w2 j,
              construct dc w' (i_schema i) em VUndef cl
                = Some (Returns w2, length (heap w'))
              /\ instanceAt w2 (length (heap w')) = Some j
              /\ inb name (_getset j) = true)
        /\ (forall dc em values cl o b,
              dotNotation (s_options s) = false ->
              construct dc w' (i_schema i) em values cl = Some (o, b) ->
              exists j, instanceAt (worldOf o) b = Some j
                        /\ inb name (_getset j) = true)).
Proof.
  intros Hi Hs Hun Hint Hdot. split; intros Hstrict.
  - assert (proxySet w a name value = (w, false)) as Hp.
    { unfold proxySet. by rewrite Hi, Hs, Hdot, Hun, Hint, Hstrict. }
    split; [done |]. unfold set, assign. simpl. by rewrite Hp.
  - set (s' := {| descriptor := descriptor s ++ [(name, anyProperties)];
                  s_options := s_options s |}).
    set (w1 := _addToSchema w a name anyProperties).
    assert (instanceAt w1 a = Some (defineProperty name i)) as Hi1.
    { unfold w1, _addToSchema. rewrite Hi. eapply store_instance.
      unfold instanceAt in *. simpl. exact Hi. }
    assert (schemas w1 !! i_schema i = Some s') as Hs1.
    { unfold w1, _addToSchema. rewrite Hi. simpl.
      unfold schemaOf in Hs. rewrite list_lookup_alter_eq, Hs. simpl.
      unfold schemaAdd. by rewrite Hun. }
    assert (alookup name (descriptor s') = Some anyProperties) as Hdecl.
    { simpl. rewrite alookup_app_r by done. simpl. by rewrite String.eqb_refl. }
    set (w' := store a (HModel (setRaw name value (defineProperty name i))) w1).
    assert (proxySet w a name value = (w', true)) as Hp.
    { unfold proxySet. rewrite Hi, Hs, Hdot, Hun, Hint, Hstrict.
      fold w1. unfold accessorSet. rewrite Hi1. unfold schemaOf.
      change (i_schema (defineProperty name i)) with (i_schema i).
      rewrite Hs1, Hdecl, inb_defineProperty.
      by rewrite (writeField_any w1 a name anyProperties value _ Hi1). }
    assert (schemas w' !! i_schema i = Some s') as Hs' by done.
    exists w'. split_and!.
    + done.
    + unfold set, assign. simpl. by rewrite Hp.
    + done.
    + by eapply store_instance.
    + intros dc em cl.
      destruct (construct_slots dc w' (i_schema i) em VUndef cl s' Hs' eq_refl)
        as (w2 & j & Hc & Hj & _ & _ & Hslots).
      exists w2, j. split_and!; try done.
      rewrite Hslots. apply inb_true. simpl. rewrite keys_app.
      apply elem_of_app. right. apply list_elem_of_here.
    + intros dc em values cl o b Hplain Hc.
      destruct (construct_slots_values dc w' (i_schema i) em values cl s' o b Hs' Hplain Hc)
        as (j & Hj & Hslots).
      exists j. split; [done |]. apply Hslots. simpl. rewrite keys_app.
      apply elem_of_app. right. apply list_elem_of_here.
Qed.

Lemma writeField_accepts w a index p raw v i :
  instanceAt w a = Some i -> p_readOnly p = false ->
  accepts p (heap w) raw v ->
  writeField w a index p raw = store a (HModel (setRaw index v i)) w.
Proof.
  intros Hi Hro (Hv & Hva & Hty). unfold writeField.
  rewrite Hi, Hro, Hv. simpl in *. rewrite Hva. simpl.
  destruct (p_type p); try (by rewrite Hty); by subst.
Qed.

Lemma allocCast_heap_only c w w' :
  heap w = heap w' ->
  heap (allocCast c w).1 = heap (allocCast c w').1
  /\ (allocCast c w).2 = (allocCast c w').2.
Proof.
  intros Hh. destruct c as [v|l]; simpl; [done |]. rewrite Hh.
  by destruct (allocLit l (heap w')).
Qed.

(** The iteration of the defaults loop on a field whose pipeline, [readOnly]
    apart, takes the default: the default is stored. *)
Lemma populateDefault_stores sid a w index p d i s v :
  instanceAt w a = Some i -> i_schema i = sid -> inb index (_getset i) = true ->
  schemas w !! sid = Some s -> alookup index (descriptor s) = Some p ->
  p_default p = Some d ->
  accepts (setReadOnly false p) (heap (allocCast (defaultCast d (_obj i)) w).1)
    (allocCast (defaultCast d (_obj i)) w).2 v ->
  exists j, instanceAt (populateDefault sid a w (index, p)) a = Some j
            /\ alookup index (_obj j) = Some v.
Proof.
  intros Hi Hsid Hacc Hs Hp Hd Hok. unfold populateDefault. rewrite Hd.
  set (w1 := assignReadOnly sid index false w).
  assert (instanceAt w1 a = Some i) as Hi1 by done.
  assert ((match d with
           | DLit l => allocCast (CNew l) w1
           | DFun f =>
               match instanceAt w1 a with
               | Some i => allocCast (f (_obj i)) w1
               | None => (w1, VUndef)
               end
           end) = allocCast (defaultCast d (_obj i)) w1) as ->.
  { rewrite Hi1. by destruct d. }
  destruct (allocCast_heap_only (defaultCast d (_obj i)) w1 w eq_refl) as [Hh Hv].
  pose proof (allocCast_extends (defaultCast d (_obj i)) w1) as [Hs2 _].
  pose proof (allocCast_instance (defaultCast d (_obj i)) w1 a i Hi1) as Hi2.
  destruct (allocCast (defaultCast d (_obj i)) w1) as [w2 v2]. simpl in *.
  rewrite <- Hh, <- Hv in Hok.
  assert (accessorSet w2 a index v2
          = (store a (HModel (setRaw index v i)) w2, true)) as ->.
  { unfold accessorSet. rewrite Hi2. unfold schemaOf. rewrite Hs2, Hsid.
    rewrite list_lookup_alter_eq, Hs. simpl.
    rewrite (alookup_amap_eq _ _ _ _ Hp), Hacc.
    by rewrite (writeField_accepts w2 a index _ v2 v i Hi2). }
  exists (setRaw index v i). split.
  - rewrite assignReadOnly_instance. simpl. by eapply store_instance.
  - apply alookup_aset_eq.
Qed.

Lemma foldl_snoc {A B} (f : A -> B -> A) (x : A) (l1 : list B) (y : B) (l2 : list B) :
  foldl f x (l1 ++ y :: l2) = foldl f (f (foldl f x l1) y) l2.
Proof. revert x. induction l1 as [|z r IH]; intros x; simpl; [done | apply IH]. Qed.

(** Writes to a document leave the other objects of the heap alone. *)
Lemma writeField_heap_other w a index p v r o :
  heap w !! r = Some o -> r <> a -> heap (writeField w a index p v) !! r = Some o.
Proof.
  intros Hr Hne. unfold writeField. destruct (instanceAt w a) as [i|]; [|done].
  destruct (p_readOnly p); [done |]. destruct (isVirtual p); [done |].
  assert (forall j, heap (store a (HModel j) w) !! r = Some o) as Hst.
  { intros j. simpl. by rewrite list_lookup_insert_ne. }
  destruct (negb _); [apply Hst |].
  destruct (p_type p); try apply Hst;
    (destruct (typecast p (heap w) _) as [c|]; [|apply Hst];
     destruct (allocCast_extends c w) as [_ [ext He]];
     destruct (allocCast c w) as [w1 v1]; simpl in *;
     rewrite list_lookup_insert_ne by done; rewrite He;
     rewrite lookup_app_l; [done | by eapply lookup_lt_Some]).
Qed.

Lemma accessorSet_heap_other w a index v r o :
  heap w !! r = Some o -> r <> a -> heap (accessorSet w a index v).1 !! r = Some o.
Proof.
  intros Hr Hne. unfold accessorSet. destruct (instanceAt w a) as [i|]; [|done].
  destruct (schemaOf w i) as [s|]; [|done].
  destruct (alookup index (descriptor s)) as [p|]; [|done].
  destruct (inb index (_getset i)); [|done]. by apply writeField_heap_other.
Qed.

Lemma populateDefault_heap_other sid a w fld r o :
  heap w !! r = Some o -> r <> a ->
  heap (populateDefault sid a w fld) !! r = Some o.
Proof.
  intros Hr Hne. destruct fld as [index p]. unfold populateDefault.
  destruct (p_default p) as [d|]; [|done].
  set (w1 := assignReadOnly sid index false w).
  assert (exists w2 v, (match d with
                        | DLit l => allocCast (CNew l) w1
                        | DFun f =>
                            match instanceAt w1 a with
                            | Some i => allocCast (f (_obj i)) w1
                            | None => (w1, VUndef)
                            end
                        end) = (w2, v) /\ heap w2 !! r = Some o)
    as (w2 & v & -> & Hr2).
  { assert (forall c, heap (allocCast c w1).1 !! r = Some o) as Hc.
    { intros c. destruct (allocCast_extends c w1) as [_ [ext He]]. rewrite He.
      rewrite lookup_app_l; [done | by eapply lookup_lt_Some]. }
    destruct d as [l|f].
    - specialize (Hc (CNew l)). destruct (allocCast (CNew l) w1) as [w2 v]. eauto.
    - destruct (instanceAt w1 a) as [i|]; [|by eexists _, _].
      specialize (Hc (f (_obj i))). destruct (allocCast (f (_obj i)) w1) as [w2 v].
      eauto. }
  by apply accessorSet_heap_other.
Qed.

Lemma populate_all_heap_other sid a l w r o :
  heap w !! r = Some o -> r <> a ->
  heap (foldl (populateDefault sid a) w l) !! r = Some o.
Proof.
  revert w. induction l as [|fld rest IH]; intros w Hr Hne; [done |].
  change (foldl (populateDefault sid a) w (fld :: rest))
    with (foldl (populateDefault sid a) (populateDefault sid a w fld) rest).
  apply IH; [by apply populateDefault_heap_other | done].
Qed.

(** A write to a [readOnly] field after construction changes nothing, logs
    nothing and throws nothing. *)
Lemma set_readOnly_ignored w a i s index p v :
  instanceAt w a = Some i -> schemaOf w i = Some s ->
  alookup index (descriptor s) = Some p -> p_readOnly p = true ->
  dotNotation (s_options s) && hasDot index = false ->
  set w a (VStr index) v = Some (Returns w).
Proof.
  intros Hi Hs Hp Hro Hdot. unfold set, assign, proxySet, accessorSet. simpl.
  rewrite Hi, Hs, Hdot, Hp.
  destruct (inb index (_getset i)); [|done]. by rewrite writeField_readOnly.
Qed.

(** What the iteration of the defaults loop allocates for a literal default
    is still there afterwards. *)
Lemma populateDefault_literal sid a w index p l r o :
  p_default p = Some (DLit l) -> r <> a ->
  (allocLit l (heap w)).1 !! r = Some o ->
  heap (populateDefault sid a w (index, p)) !! r = Some o.
Proof.
  intros Hd Hne Hr. unfold populateDefault. rewrite Hd.
  set (w1 := assignReadOnly sid index false w).
  assert (heap (allocCast (CNew l) w1).1 !! r = Some o) as Hr2.
  { simpl. change (heap w1) with (heap w). by destruct (allocLit l (heap w)). }
  destruct (allocCast (CNew l) w1) as [w2 v]. simpl in *.
  by apply accessorSet_heap_other.
Qed.

(** C8: the constructor populates the defaults first and then hands the
    caller's values to [set].  The defaults loop leaves the shared schema as
    it found it, [readOnly] flags included; a default that the field's
    pipeline takes when [readOnly] is off is stored, whether the field is
    [readOnly] or not: a literal allocated afresh, a producer applied to the
    raw values of the instance at that point.  The copy of a literal
    default is deep and the instance's own: each of its dates, arrays and
    objects, at any depth, is a new object, at an address that neither the
    world before the construction nor anything allocated for an earlier
    field uses, and it is still intact when the loop is over; a pipeline
    that hands the value on as it is stores that copy.  After construction a
    write to a [readOnly] field is ignored without a trace. *)
Theorem construct_defaults_then_values dc w sid em values cl s :
  schemas w !! sid = Some s -> NoDup (keys (descriptor s)) ->
  let a := length (heap w) in
  let fresh := {| i_schema := sid; i_emitter := em; _obj := []; _errors := [];
                  _getset := keys (descriptor s) |} in
  let populated pre := foldl (populateDefault sid a) (alloc (HModel fresh) w).1 pre in
  construct dc w sid em values cl =
    (if isObject values then
       let '(w3, data) :=
         if cl then allocCast (CNew (dc (heap (populated (descriptor s))) values))
                      (populated (descriptor s))
         else (populated (descriptor s), values) in
       o ← set w3 a data VUndef; Some (o, a)
     else Some (Returns (populated (descriptor s)), a))
  /\ schemas (populated (descriptor s)) = schemas w
  /\ (forall pre index p post d i v,
        descriptor s = pre ++ (index, p) :: post ->
        p_default p = Some d ->
        instanceAt (populated pre) a = Some i ->
        accepts (setReadOnly false p)
          (heap (allocCast (defaultCast d (_obj i)) (populated pre)).1)
          (allocCast (defaultCast d (_obj i)) (populated pre)).2 v ->
        exists j, instanceAt (populated (descriptor s)) a = Some j
                  /\ alookup index (_obj j) = Some v)
  /\ (forall pre index p post l i,
        descriptor s = pre ++ (index, p) :: post ->
        p_default p = Some (DLit l) ->
        instanceAt (populated pre) a = Some i ->
        let copy := (allocCast (CNew l) (populated pre)).2 in
        length (heap w) < length (heap (populated pre))
        /\ cloneOf (heap (populated (descriptor s))) (length (heap (populated pre)))
             l copy
        /\ (accepts (setReadOnly false p)
              (heap (allocCast (CNew l) (populated pre)).1) copy copy ->
            exists j, instanceAt (populated (descriptor s)) a = Some j
                      /\ alookup index (_obj j) = Some copy))
  /\ (forall w' b i s' index p v,
        instanceAt w' b = Some i -> schemaOf w' i = Some s' ->
        alookup index (descriptor s') = Some p -> p_readOnly p = true ->
        dotNotation (s_options s') && hasDot index = false ->
        set w' b (VStr index) v = Some (Returns w')).
Proof.
  intros Hs Hnd a fresh populated.
  assert (instanceAt (alloc (HModel fresh) w).1 a = Some fresh) as Hfresh.
  { unfold instanceAt. simpl. by rewrite list_lookup_middle. }
  assert (forall index p, (index, p) ∈ descriptor s ->
            alookup index (descriptor s) = Some p) as Hdecl.
  { intros index p Hin. by apply elem_alookup. }
  assert (forall pre index p post d i v,
            descriptor s = pre ++ (index, p) :: post ->
            p_default p = Some d ->
            instanceAt (populated pre) a = Some i ->
            accepts (setReadOnly false p)
              (heap (allocCast (defaultCast d (_obj i)) (populated pre)).1)
              (allocCast (defaultCast d (_obj i)) (populated pre)).2 v ->
            exists j, instanceAt (populated (descriptor s)) a = Some j
                      /\ alookup index (_obj j) = Some v) as Hstored.
  { intros pre index p post d i v Hd Hdef Hi Hok.
    assert (forall index' p', (index', p') ∈ pre ->
              alookup index' (descriptor s) = Some p') as Hpre.
    { intros index' p' Hin. apply Hdecl. rewrite Hd. apply elem_of_app. by left. }
    assert (forall index' p', (index', p') ∈ post ->
              alookup index' (descriptor s) = Some p') as Hpost.
    { intros index' p' Hin. apply Hdecl. rewrite Hd. apply elem_of_app. right.
      by apply list_elem_of_further. }
    destruct (populate_all_frame sid a s pre _ fresh Hfresh eq_refl Hs Hpre)
      as (Hsk & i' & Hi' & (Hsch & _ & Hgs) & _).
    fold (populated pre) in Hsk, Hi'. rewrite Hi in Hi'. injection Hi' as <-.
    destruct (populateDefault_stores sid a (populated pre) index p d i s v)
      as (j & Hj & Hjv); try done.
    { rewrite Hgs. apply inb_true. simpl. rewrite Hd, keys_app.
      apply elem_of_app. right. apply list_elem_of_here. }
    { by rewrite Hsk. }
    { apply Hdecl. rewrite Hd. apply elem_of_app. right. apply list_elem_of_here. }
    pose proof (populateDefault_frame sid a (populated pre) index p i s Hi Hsch)
      as (Hsk1 & j1 & Hj1 & (Hsch1 & _) & _).
    { by rewrite Hsk. }
    { apply Hdecl. rewrite Hd. apply elem_of_app. right. apply list_elem_of_here. }
    rewrite Hj in Hj1. injection Hj1 as <-.
    destruct (populate_all_frame sid a s post _ j Hj) as (_ & k & Hk & _ & Hrest);
      try done.
    { by rewrite Hsch1, Hsch. }
    { by rewrite Hsk1, Hsk. }
    exists k. split.
    + unfold populated. rewrite Hd, foldl_snoc. exact Hk.
    + rewrite Hrest; [done |]. rewrite Hd, keys_app in Hnd.
      apply NoDup_app in Hnd as (_ & _ & Hnd). simpl in Hnd.
      by apply NoDup_cons in Hnd as [Hnd _]. }
  split_and!.
  - unfold construct. rewrite Hs. reflexivity.
  - destruct (populate_all_frame sid a s (descriptor s) _ fresh Hfresh eq_refl Hs)
      as [E _]; [done | exact E].
  - exact Hstored.
  - intros pre index p post l i Hd Hdef Hi copy.
    assert (a < length (heap (populated pre))) as Ha.
    { unfold instanceAt in Hi. destruct (heap (populated pre) !! a) eqn:E; [|done].
      by eapply lookup_lt_Some. }
    split_and!.
    + exact Ha.
    + pose proof (allocLit_cloneOf l (heap (populated pre))) as Hcopy.
      assert (copy = (allocLit l (heap (populated pre))).2) as ->
        by (unfold copy; simpl; by destruct (allocLit l (heap (populated pre)))).
      eapply cloneOf_mono; [| |exact Hcopy]; [done |].
      intros r o Hr Ho. unfold populated at 1. rewrite Hd, foldl_snoc.
      apply populate_all_heap_other; [|lia].
      apply (populateDefault_literal sid a (populated pre) index p l); [done | lia | done].
    + intros Hok. by apply (Hstored pre index p post (DLit l) i copy).
  - intros w' b i s' index p v. apply set_readOnly_ignored.
Qed.

(** An instance built without values: where it is, what it is, and that the
    rest of the heap and the schemas are as before. *)
Lemma construct_fresh dc w sid em cl s :
  schemas w !! sid = Some s -> NoDup (keys (descriptor s)) ->
  exists w2 j,
    construct dc w sid em VUndef cl = Some (Returns w2, length (heap w))
    /\ instanceAt w2 (length (heap w)) = Some j
    /\ i_schema j = sid /\ _getset j = keys (descriptor s)
    /\ schemas w2 = schemas w
    /\ forall r o, heap w !! r = Some o -> heap w2 !! r = Some o.
Proof.
  intros Hs Hnd. unfold construct. rewrite Hs. simpl.
  set (i := {| i_schema := sid; i_emitter := em; _obj := []; _errors := [];
               _getset := keys (descriptor s) |}).
  set (w1 := {| heap := heap w ++ [HModel i]; schemas := schemas w |}).
  assert (instanceAt w1 (length (heap w)) = Some i) as Hi.
  { unfold instanceAt. simpl. by rewrite list_lookup_middle. }
  destruct (populate_all_frame sid (length (heap w)) s (descriptor s) w1 i Hi eq_refl Hs)
    as (Hsch & j & Hj & (Hs1 & _ & Hs3) & _).
  { intros index p Hin. by apply elem_alookup. }
  eexists _, j. split; [reflexivity |]. split_and!; try done.
  intros r o Hr. apply populate_all_heap_other.
  - simpl. rewrite lookup_app_l; [done | by eapply lookup_lt_Some].
  - apply lookup_lt_Some in Hr. lia.
Qed.



End WritingFacts.

(** ** From a document to plain data and back *)

Section RoundTrip.
Context `{Host}.


End RoundTrip.

(** ** Options and transforms down the tree of documents *)

Lemma defaultMinimizeOption_defined s json : defaultMinimizeOption s json <> VUndef.
Proof.
  unfold defaultMinimizeOption.
  destruct (if truthy json then _ else _) as [o|]; [|done]. by destruct (o_minimize o).
Qed.

Lemma orDefault_defined cur dflt : dflt <> VUndef -> orDefault cur dflt <> VUndef.
Proof. by destruct cur. Qed.

Lemma orDefault_keeps cur dflt : cur <> VUndef -> orDefault cur dflt = cur.
Proof. by destruct cur. Qed.

Lemma prepared_explicit s o json :
  truthy (o_useSchemaOptions o) = false ->
  _prepareToObjectOptions s (Some o) json =
    {| o_transform := orDefault (o_transform o) (VBool true);
       o_json := orDefault (o_json o) json;
       o_minimize := orDefault (o_minimize o) (defaultMinimizeOption s json);
       o_virtuals := o_virtuals o;
       o_serializable := o_serializable o;
       o_dateToISO := o_dateToISO o;
       o_useSchemaOptions := o_useSchemaOptions o |}.
Proof. intros Hu. unfold _prepareToObjectOptions. by rewrite Hu. Qed.

Lemma prepared_schema s json :
  _prepareToObjectOptions s None json =
    {| o_transform := orDefault (o_transform (schemaLevel s json)) (VBool true);
       o_json := VBool (truthy json);
       o_minimize := orDefault (o_minimize (schemaLevel s json))
                       (defaultMinimizeOption s json);
       o_virtuals := o_virtuals (schemaLevel s json);
       o_serializable := o_serializable (schemaLevel s json);
       o_dateToISO := o_dateToISO (schemaLevel s json);
       o_useSchemaOptions := VBool true |}.
Proof.
  unfold _prepareToObjectOptions, schemaLevel. by destruct (truthy json).
Qed.

(** The options that reach a nested document of the same schema are the
    ones the parent runs with. *)
Lemma prepared_again s opts json :
  _prepareToObjectOptions s (Some (_prepareToObjectOptions s opts json))
    (if truthy (o_json (_prepareToObjectOptions s opts json)) then VBool true
     else VUndef)
  = _prepareToObjectOptions s opts json.
Proof.
  assert (_prepareToObjectOptions s
            (Some (_prepareToObjectOptions s None json))
            (if truthy (o_json (_prepareToObjectOptions s None json)) then VBool true
             else VUndef)
          = _prepareToObjectOptions s None json) as Hschema.
  { rewrite (prepared_schema s json). cbn [o_json truthy].
    unfold _prepareToObjectOptions at 1. cbn [o_useSchemaOptions truthy].
    unfold _prepareToObjectOptions, defaultMinimizeOption, schemaLevel.
    by destruct (truthy json). }
  destruct opts as [o|]; [|exact Hschema].
  destruct (truthy (o_useSchemaOptions o)) eqn:Hu.
  - assert (_prepareToObjectOptions s (Some o) json = _prepareToObjectOptions s None json)
      as -> by (unfold _prepareToObjectOptions; by rewrite Hu).
    exact Hschema.
  - rewrite (prepared_explicit s o json Hu). unfold _prepareToObjectOptions.
    cbn [o_useSchemaOptions o_transform o_json o_minimize o_virtuals o_serializable
         o_dateToISO].
    rewrite Hu. f_equal.
    + apply orDefault_keeps. by apply orDefault_defined.
    + by destruct (orDefault (o_json o) json).
    + apply orDefault_keeps. apply orDefault_defined, defaultMinimizeOption_defined.
Qed.


(** X2: serialized without explicit options, a document hands options
    marked [_useSchemaOptions] to its nested documents, which replace them by
    the schema-level options of their own schema, for the same surface: a
    nested document is serialized as by its own [toObject()], or its own
    [toJSON()] under [toJSON]. *)
Theorem schema_options_reach_nested_documents `{Host} (s : schema) (json : val)
    (fuel : nat) (w : world) (x : addr) :
  _toObject fuel w x (Some (_prepareToObjectOptions s None json))
    (if truthy (o_json (_prepareToObjectOptions s None json)) then VBool true else VUndef)
  = (if truthy json then toJSON fuel w x None else toObject fuel w x None).
Proof.
  assert (forall s', _prepareToObjectOptions s' (Some (_prepareToObjectOptions s None json))
            (if truthy (o_json (_prepareToObjectOptions s None json)) then VBool true
             else VUndef)
          = _prepareToObjectOptions s' None
              (if truthy json then VBool true else VUndef)) as Hopts.
  { intros s'. rewrite (prepared_schema s json).
    cbn [o_json truthy]. unfold _prepareToObjectOptions at 1.
    cbn [o_useSchemaOptions truthy].
    unfold _prepareToObjectOptions, defaultMinimizeOption.
    by destruct (truthy json). }
  assert (_toObject fuel w x (Some (_prepareToObjectOptions s None json))
            (if truthy (o_json (_prepareToObjectOptions s None json)) then VBool true
             else VUndef)
          = _toObject fuel w x None (if truthy json then VBool true else VUndef)) as ->.
  { destruct fuel as [|fuel]; [done |]. simpl. unfold toObjectBody.
    destruct (instanceAt w x) as [n|]; [|done]. simpl.
    destruct (schemaOf w n) as [s'|]; [|done]. simpl. by rewrite Hopts. }
  unfold toJSON, toObject. by destruct (truthy json).
Qed.


(** ** More on what a serialization does *)




Lemma alookup_is_Some {A} k (l : list (string * A)) : is_Some (alookup k l) <-> k ∈ keys l.
Proof.
  destruct (alookup k l) as [x|] eqn:E.
  - split; [intros _ | by eexists].
    apply alookup_elem in E. by apply (list_elem_of_fmap_2 fst) in E.
  - split; [by intros [? ?] |]. intros Hin. by apply alookup_None in E.
Qed.

Section SerializationMore.
Context `{Host}.

(** What a serialization returns is an object that was not there before. *)
Lemma _toObject_returns_object fuel w a opts json w' v :
  _toObject fuel w a opts json = Some (w', v) ->
  exists r ret, v = VRef r /\ heap w' !! r = Some (HObject ret)
                /\ length (heap w) <= r.
Proof.
  intros Hto. destruct fuel as [|fuel]; [done |]. simpl in Hto. unfold toObjectBody in Hto.
  apply bind_Some in Hto as (i & Hi & Hto). apply bind_Some in Hto as (s & Hs & Hto).
  apply bind_Some in Hto as ([w1 ret] & Hl & Hto). simpl in Hto. injection Hto as <- <-.
  apply eachM_evolves in Hl; [|apply _toObject_evolving].
  eexists _, _. split_and!; [reflexivity | by apply list_lookup_middle |].
  destruct Hl as [_ Hev].
  destruct (decide (length (heap w) <= length (heap w1))) as [|Hlt]; [done |].
  assert (is_Some (heap w !! length (heap w1))) as [o Ho]
    by (apply lookup_lt_is_Some; lia).
  specialize (Hev _ _ Ho).
  assert (is_Some (heap w1 !! length (heap w1))) as Hs1.
  { destruct o; try (by eexists). destruct Hev; by eexists. }
  apply lookup_lt_is_Some in Hs1. lia.
Qed.


(** Without [minimize], an iteration that is not skipped writes its key. *)
Lemma unminimized_field rec sch opts a w ret index p w' ret' :
  skipped opts p = false -> truthy (o_minimize opts) = false ->
  toObjectField rec sch opts a (w, ret) (index, p) = Some (w', ret') ->
  is_Some (alookup index ret').
Proof.
  intros Hsk Hmin Hf. apply skipped_false in Hsk as (H1 & H2 & H3).
  unfold toObjectField in Hf. rewrite H1, H2, H3, Hmin in Hf.
  apply bind_Some in Hf as (i & Hi & Hf). simpl in Hf.
  destruct (proxyGet sch w a i index p) as [| |b|n|str|f|r];
    try (injection Hf as <- <-; rewrite alookup_aset_eq; by eexists).
  apply bind_Some in Hf as ([[w1 ret1] v1] & Hc & Hf).
  rewrite andb_false_r in Hf. simpl in Hf. injection Hf as <- <-.
  rewrite alookup_aset_eq. by eexists.
Qed.

(** Without [minimize], the loop adds the keys of the fields it does not
    skip, in order. *)
Lemma unminimized_keys rec sch opts a l : forall w ret w' ret',
  truthy (o_minimize opts) = false -> NoDup (keys l) ->
  (forall k, k ∈ keys l -> k ∉ keys ret) ->
  eachM (toObjectField rec sch opts a) (w, ret) l = Some (w', ret') ->
  keys ret' = keys ret ++ keys (List.filter (fun fld => negb (skipped opts fld.2)) l).
Proof.
  induction l as [|[index p] rest IH]; intros w ret w' ret' Hmin Hnd Hfresh.
  { intros [= <- <-]. simpl. by rewrite app_nil_r. }
  rewrite eachM_cons. intros Hl.
  apply bind_Some in Hl as ([w0 ret0] & Hx & Hl).
  simpl in Hnd. apply NoDup_cons in Hnd as [Hk Hnd].
  assert (index ∉ keys ret) as Hnew by (apply Hfresh; apply list_elem_of_here).
  assert (keys ret0 = keys ret
                      ++ (if negb (skipped opts p) then [index] else [])) as Hk0.
  { destruct (skipped opts p) eqn:Hsk; simpl.
    - rewrite toObjectField_skipped in Hx by done. injection Hx as <- <-.
      by rewrite app_nil_r.
    - destruct (toObjectField_keys _ _ _ _ _ _ _ _ _ _ Hx) as [E | E]; [|done].
      pose proof (unminimized_field _ _ _ _ _ _ _ _ _ _ Hsk Hmin Hx) as Hsome.
      apply alookup_is_Some in Hsome. by rewrite E in Hsome. }
  rewrite (IH w0 ret0 w' ret' Hmin Hnd).
  - rewrite Hk0. simpl. destruct (negb (skipped opts p)); simpl.
    + by rewrite <- app_assoc.
    + by rewrite app_nil_r.
  - intros k Hin. rewrite Hk0. intros Hin'. apply elem_of_app in Hin' as [Hin' | Hin'].
    + apply (Hfresh k); [by apply list_elem_of_further | done].
    + destruct (negb (skipped opts p)); [|by apply elem_of_nil in Hin'].
      apply list_elem_of_singleton in Hin'. by subst k.
  - exact Hl.
Qed.

(** X4: a serialization that is called without an options argument, in a
    world where no schema names a transform function, changes no document,
    no schema, no date and no plain object (user callbacks being free of side
    effects): the schemas, every document with its values, accessors and
    error log, and every other object that existed are as they were, except
    that plain arrays may have been emptied; and the result is an object that
    did not exist before.  The options that such a call works on are copies
    of the schema-level ones.  (With an options argument the source fills in
    [transform], [json] and [minimize] in the caller's own object, and a
    transform function may hand back an object that existed: neither is
    claimed here.) *)
Theorem serialization_keeps_documents fuel w a json w' v :
  noTransforms w ->
  _toObject fuel w a None json = Some (w', v) ->
  schemas w' = schemas w
  /\ (forall b i, instanceAt w b = Some i -> instanceAt w' b = Some i)
  /\ (forall b, b < length (heap w) -> getErrors w' b = getErrors w b)
  /\ (forall r o, heap w !! r = Some o ->
        heap w' !! r = Some o \/ exists l, o = HArray l /\ heap w' !! r = Some (HArray []))
  /\ exists r ret, v = VRef r /\ heap w !! r = None /\ heap w' !! r = Some (HObject ret).
Proof.
  intros _ Hto. pose proof (_toObject_evolving fuel _ _ _ _ _ _ Hto) as Hev.
  assert (forall r o, heap w !! r = Some o ->
            heap w' !! r = Some o
            \/ exists l, o = HArray l /\ heap w' !! r = Some (HArray [])) as Hobj.
  { intros r o Hr. destruct Hev as [_ Hev]. specialize (Hev _ _ Hr).
    destruct o; auto. destruct Hev; eauto. }
  split_and!.
  - by destruct Hev.
  - intros b i. by apply evolves_instance.
  - intros b Hb. unfold getErrors, instanceAt.
    destruct (lookup_lt_is_Some_2 _ _ Hb) as [o Ho]. rewrite Ho.
    destruct (Hobj _ _ Ho) as [-> | (l & -> & ->)]; done.
  - exact Hobj.
  - destruct (_toObject_returns_object _ _ _ _ _ _ _ Hto) as (r & ret & -> & Hr & Hle).
    exists r, ret. split_and!; [done | by apply lookup_ge_None | done].
Qed.

(** X5: with [minimize] off (and no transform function in play) the keys
    of the result are exactly the declared fields that the checks at the
    head of the loop body let through, in the order of the schema; in
    particular a field that reads as [undefined] or [null] is in the result
    with that value. *)
Theorem without_minimize_visited_fields_stay fuel w a opts json i s w' v :
  instanceAt w a = Some i -> schemaOf w i = Some s ->
  NoDup (keys (descriptor s)) ->
  truthy (o_minimize (_prepareToObjectOptions s opts json)) = false ->
  isFunction (resolveTransform s (_prepareToObjectOptions s opts json)) = false ->
  _toObject fuel w a opts json = Some (w', v) ->
  exists r ret,
    v = VRef r /\ heap w' !! r = Some (HObject ret)
    /\ keys ret =
         keys (List.filter
                 (fun fld => negb (skipped (_prepareToObjectOptions s opts json) fld.2))
                 (descriptor s))
    /\ (forall index p, (index, p) ∈ descriptor s ->
          skipped (_prepareToObjectOptions s opts json) p = false ->
          dotNotation (s_options s) && hasDot index = false ->
          isNullish (readField i index p) = true ->
          alookup index ret = Some (readField i index p)).
Proof.
  intros Hi Hs Hnd Hmin Hnf Hto.
  destruct fuel as [|fuel]; [done |]. simpl in Hto.
  destruct (toObjectBody_result _ _ _ _ _ _ _ _ _ Hi Hs Hnf Hto)
    as (w1 & ret & Hl & -> & Hret & _).
  exists (length (heap w1)), ret. split_and!; try done.
  - rewrite (unminimized_keys _ _ _ _ _ _ _ _ _ Hmin Hnd) with (2 := Hl); [done |].
    intros k _. apply not_elem_of_nil.
  - intros index p Hin Hsk Hdot Hnull.
    apply list_elem_of_split in Hin as (pre & post & Hd). rewrite Hd in Hnd, Hl.
    destruct (field_outcome _ _ _ _ _ _ _ _ _ _ _ _ (_toObject_evolving fuel) Hi Hnd Hsk
                Hdot Hl)
      as (wk & retk & wk' & retk' & _ & _ & _ & _ & Hfin & Hstep).
    rewrite Hfin. cbv zeta in Hstep. rewrite Hmin in Hstep.
    cbn [andb] in Hstep.
    destruct (readField i index p); try done; injection Hstep as _ ->;
      apply alookup_aset_eq.
Qed.


(** X20: a document that holds itself in a field that the loop visits is
    not serialized: the loop calls [toObject] / [toJSON] of the value, which
    visits the same field again, and nothing guards against the cycle (in
    JavaScript the recursion ends in a stack overflow).  No bound on the
    depth gives a result. *)
Theorem self_containing_document_is_not_serialized w a i s index p opts json :
  instanceAt w a = Some i -> schemaOf w i = Some s ->
  (index, p) ∈ descriptor s ->
  skipped (_prepareToObjectOptions s opts json) p = false ->
  dotNotation (s_options s) && hasDot index = false ->
  readField i index p = VRef a ->
  forall fuel, _toObject fuel w a opts json = None.
Proof.
  intros Hi Hs Hin Hsk Hdot Hread fuel.
  remember (_prepareToObjectOptions s opts json) as O eqn:HO.
  assert (forall w1 opts1 json1, evolves w w1 ->
            _prepareToObjectOptions s opts1 json1 = O ->
            _toObject fuel w1 a opts1 json1 = None) as Hall.
  { induction fuel as [|fuel IH]; intros w1 opts1 json1 Hev HO1; [done |].
    simpl. unfold toObjectBody.
    rewrite (evolves_instance _ _ _ _ Hev Hi). simpl.
    unfold schemaOf in *. destruct Hev as [Hsch Hheap]. rewrite Hsch, Hs. simpl.
    rewrite HO1.
    apply list_elem_of_split in Hin as (pre & post & Hd). rewrite Hd.
    rewrite eachM_app.
    destruct (eachM _ (w1, []) pre) as [[wk retk]|] eqn:Hpre;
      cbn [mbind option_bind]; [|done].
    assert (evolves w wk) as Hevk.
    { eapply evolves_trans; [split; [exact Hsch | exact Hheap] |].
      eapply eachM_evolves; [apply _toObject_evolving | exact Hpre]. }
    rewrite eachM_cons.
    rewrite (toObjectField_visited _ _ _ _ _ _ _ _ i Hsk
               (evolves_instance _ _ _ _ Hevk Hi) Hdot).
    rewrite Hread. cbv zeta. cbn [isNullish]. rewrite andb_false_r.
    unfold copyValue.
    assert (heap wk !! a = Some (HModel i)) as Ha.
    { unfold instanceAt in Hi. destruct Hevk as [_ Hk].
      destruct (heap w !! a) as [[]|] eqn:E; try done. injection Hi as ->.
      apply (Hk _ _ E). }
    rewrite Ha. simpl. rewrite IH; [done | done |].
    rewrite <- HO1. apply prepared_again. }
  apply Hall; [apply evolves_refl | done].
Qed.

(** *** [toJSON] against [toObject] *)









(** X9: the keys that the [ownKeys] trap reports (no transform function in
    play) are declared fields, in the order of the schema, and for each of
    them the [getOwnPropertyDescriptor] trap, asked in the world that
    [ownKeys] leaves, hands back an enumerable, configurable descriptor with
    the value the field reads as. *)
Theorem ownKeys_are_declared_fields fuel w a i s w1 ks :
  instanceAt w a = Some i -> schemaOf w i = Some s ->
  isFunction (resolveTransform s (_prepareToObjectOptions s None VUndef)) = false ->
  ownKeys fuel w a = Some (w1, ks) ->
  sublist ks (keys (descriptor s))
  /\ forall k, k ∈ ks ->
       exists p, alookup k (descriptor s) = Some p
         /\ getOwnPropertyDescriptor w1 a k =
              Some {| value := proxyGet s w1 a i k p; writeable := negb (p_readOnly p);
                      enumerable := true; configurable := true |}.
Proof.
  intros Hi Hs Hnf Hk. unfold ownKeys in Hk.
  apply bind_Some in Hk as ([w' v] & Hto & Hk).
  destruct (result_shape _ _ _ _ _ _ _ _ _ Hi Hs Hnf Hto)
    as (r & ret & -> & Hret & Hev & Hsub).
  rewrite Hret in Hk. injection Hk as <- <-. split; [done |].
  intros k Hin. apply (sublist_subseteq _ _ Hsub) in Hin.
  destruct (alookup k (descriptor s)) as [p|] eqn:Hp; [|by apply alookup_None in Hp].
  exists p. split; [done |]. unfold getOwnPropertyDescriptor.
  rewrite (evolves_instance _ _ _ _ Hev Hi). unfold schemaOf in *.
  destruct Hev as [-> _]. rewrite Hs, Hp.
  by replace (inb k (keys (descriptor s))) with true by (symmetry; by apply inb_true).
Qed.

End SerializationMore.

(** ** More on what a write does *)

Lemma extends_refl s : extends s s.
Proof. split; [done |]. exists []. by rewrite app_nil_r. Qed.

Lemma extends_trans s1 s2 s3 : extends s1 s2 -> extends s2 s3 -> extends s1 s3.
Proof.
  intros (Ho1 & l1 & Hd1 & Hl1) (Ho2 & l2 & Hd2 & Hl2). split; [congruence |].
  exists (l1 ++ l2). split; [by rewrite Hd2, Hd1, app_assoc | by apply Forall_app].
Qed.

Lemma written_refl a w : written a w w.
Proof.
  split_and!.
  - intros sid s Hs. exists s. split_and!; [done | apply extends_refl | done].
  - intros i Hi. exists i. done.
  - done.
Qed.

Lemma written_trans a w1 w2 w3 : written a w1 w2 -> written a w2 w3 -> written a w1 w3.
Proof.
  intros (Hs1 & Hi1 & Hh1) (Hs2 & Hi2 & Hh2). split_and!.
  - intros sid s Hs. destruct (Hs1 _ _ Hs) as (s' & Hs' & He & Hst).
    destruct (Hs2 _ _ Hs') as (s'' & Hs'' & He' & Hst').
    exists s''. split_and!; [done | by eapply extends_trans |].
    intros Hstrict. rewrite <- (Hst Hstrict). apply Hst'.
    destruct He as [-> _]. done.
  - intros i Hi. destruct (Hi1 _ Hi) as (j & Hj & E1 & E2 & Hacc & Herr & Hoth).
    destruct (Hi2 _ Hj) as (k & Hk & E1' & E2' & Hacc' & Herr' & Hoth').
    exists k. split_and!; try congruence; auto.
    + by etrans.
    + intros sid Hne. rewrite Hoth' by congruence. by apply Hoth.
  - auto.
Qed.

Lemma spared_extends s s' names k : extends s s' -> spared s names k -> spared s' names k.
Proof.
  unfold spared. intros (_ & added & Hd & _) [Hk | (p & Hp & Hro)]; [by left | right].
  exists p. split; [|done]. rewrite Hd. by apply alookup_app_l.
Qed.

Lemma spared_cons s name names k :
  spared s (name :: names) k -> spared s [name] k /\ spared s names k.
Proof.
  unfold spared. intros [Hk | Hro]; [|split; by right].
  apply not_elem_of_cons in Hk as [Hne Hk]. split; left; [|done].
  apply not_elem_of_cons. split; [done | apply not_elem_of_nil].
Qed.

Section WritingMore.
Context `{Host}.

Lemma writeField_written w a index p v : written a w (writeField w a index p v).
Proof.
  split_and!.
  - intros sid s Hs. rewrite writeField_schemas. exists s.
    split_and!; [done | apply extends_refl | done].
  - intros i Hi. unfold writeField. rewrite Hi.
    assert (forall j w1, instanceAt w1 a = Some i -> schemas w1 = schemas w ->
              i_schema j = i_schema i -> i_emitter j = i_emitter i ->
              _getset j = _getset i -> _errors i `prefix_of` _errors j ->
              exists j', instanceAt (store a (HModel j) w1) a = Some j'
                /\ i_schema j' = i_schema i /\ i_emitter j' = i_emitter i
                /\ (forall n, inb n (_getset i) = true -> inb n (_getset j') = true)
                /\ _errors i `prefix_of` _errors j'
                /\ forall sid, sid <> i_schema i ->
                     schemas (store a (HModel j) w1) !! sid = schemas w !! sid) as Hst.
    { intros j w1 Hi1 Hs1 E1 E2 E3 E4. exists j.
      split_and!; try done; [by eapply store_instance | by rewrite E3 |].
      intros sid _. simpl. by rewrite Hs1. }
    destruct (p_readOnly p); [by exists i |]. destruct (isVirtual p); [by exists i |].
    destruct (negb _).
    { apply Hst; try done. by apply prefix_app_r. }
    destruct (p_type p); try (by apply Hst);
      (destruct (typecast p (heap w) _) as [c|];
       [|apply Hst; try done; by apply prefix_app_r]);
      pose proof (allocCast_instance c w a i Hi) as Hi1;
      pose proof (allocCast_extends c w) as [Hs1 _];
      destruct (allocCast c w) as [w1 v1]; simpl in Hi1, Hs1; by apply Hst.
  - intros r o Hr Hne. by apply writeField_heap_other.
Qed.

Lemma accessorSet_written w a index v : written a w (accessorSet w a index v).1.
Proof.
  unfold accessorSet. destruct (instanceAt w a) as [i|]; [|apply written_refl].
  destruct (schemaOf w i) as [s|]; [|apply written_refl].
  destruct (alookup index (descriptor s)) as [p|]; [|apply written_refl].
  destruct (inb index (_getset i)); [apply writeField_written | apply written_refl].
Qed.

Lemma _addToSchema_written w a index i s :
  instanceAt w a = Some i -> schemaOf w i = Some s ->
  strict (s_options s) = false ->
  written a w (_addToSchema w a index anyProperties).
Proof.
  intros Hi Hs Hstrict. unfold _addToSchema. rewrite Hi. split_and!.
  - intros sid s0 Hs0. simpl. destruct (decide (sid = i_schema i)) as [-> | Hne].
    + rewrite list_lookup_alter_eq, Hs0. simpl. eexists. split; [reflexivity |].
      unfold schemaOf in Hs. assert (s0 = s) as -> by congruence.
      split; [|by rewrite Hstrict]. unfold schemaAdd.
      destruct (alookup index (descriptor s)); [apply extends_refl |].
      split; [done |]. exists [(index, anyProperties)]. split; [done |].
      by constructor.
    + rewrite list_lookup_alter_ne by done. exists s0.
      split_and!; [done | apply extends_refl | done].
  - intros i' Hi'. assert (i' = i) as -> by congruence.
    exists (defineProperty index i). split_and!; try done.
    + eapply store_instance. unfold instanceAt in *. simpl. exact Hi.
    + intros n Hn. simpl. destruct (inb index (_getset i)); [done |].
      apply inb_true. apply elem_of_app. left. by apply inb_true.
    + intros sid Hne. simpl. by rewrite list_lookup_alter_ne.
  - intros r o Hr Hne. simpl. by rewrite list_lookup_insert_ne.
Qed.

Lemma proxySet_written w a name v i s :
  instanceAt w a = Some i -> schemaOf w i = Some s ->
  dotNotation (s_options s) = false ->
  written a w (proxySet w a name v).1.
Proof.
  intros Hi Hs Hdot. unfold proxySet. rewrite Hi, Hs, Hdot. simpl.
  destruct (alookup name (descriptor s)) as [p|]; [apply accessorSet_written |].
  destruct (i_emitter i && inb name eventEmmiterInternals); [apply written_refl |].
  destruct (strict (s_options s)) eqn:Hstrict; [apply written_refl |].
  eapply written_trans; [by eapply _addToSchema_written | apply accessorSet_written].
Qed.

(** What [written] hands on to the next write. *)
Lemma written_next a w w' i s :
  written a w w' -> instanceAt w a = Some i -> schemaOf w i = Some s ->
  exists j s', instanceAt w' a = Some j /\ schemaOf w' j = Some s'
    /\ i_schema j = i_schema i /\ s_options s' = s_options s.
Proof.
  intros (Hsch & Hinst & _) Hi Hs.
  destruct (Hinst _ Hi) as (j & Hj & E & _).
  destruct (Hsch _ _ Hs) as (s' & Hs' & [Ho _] & _).
  exists j, s'. unfold schemaOf. rewrite E. done.
Qed.

Lemma setEach_written a m l : forall w i s,
  instanceAt w a = Some i -> schemaOf w i = Some s ->
  dotNotation (s_options s) = false ->
  written a w (worldOf (setEach w a m l)).
Proof.
  induction l as [|[k x] rest IH]; intros w i s Hi Hs Hdot; [apply written_refl |].
  assert (written a w (worldOf (setEach (tryCatch (assign w a k x)) a m rest))) as Hstep.
  { pose proof (proxySet_written w a k x i s Hi Hs Hdot) as Hw.
    unfold tryCatch. rewrite worldOf_assign.
    destruct (written_next _ _ _ _ _ Hw Hi Hs) as (j & s' & Hj & Hs' & _ & Ho).
    eapply written_trans; [exact Hw |]. eapply IH; [exact Hj | exact Hs' |].
    by rewrite Ho. }
  simpl. destruct m as [|f|]; [exact Hstep | | apply written_refl].
  destruct (truthy (callFn f [VStr k])); [exact Hstep | by eapply IH].
Qed.

Lemma set_written w a path v o i s :
  instanceAt w a = Some i -> schemaOf w i = Some s ->
  dotNotation (s_options s) = false ->
  set w a path v = Some o -> written a w (worldOf o).
Proof.
  intros Hi Hs Hdot. unfold set. destruct (isObject path && negb (truthy v)).
  - intros Hset. apply bind_Some in Hset as (l & _ & [= <-]). by eapply setEach_written.
  - intros Hset. apply bind_Some in Hset as (key & _ & [= <-]). simpl.
    unfold tryCatch. rewrite worldOf_assign. by eapply proxySet_written.
Qed.


(** X11: the [has] trap answers by the truthiness of the value, not by
    whether the field is declared or set: for a declared field with its
    accessor, [key in doc] is [Boolean(doc.get(key))].  So after a write
    that stores a falsy value ([0], [""], [false], [null]) the field holds
    that value and [key in doc] is [false]. *)
Theorem has_reports_truthiness w a i s index p :
  instanceAt w a = Some i -> schemaOf w i = Some s ->
  alookup index (descriptor s) = Some p -> inb index (_getset i) = true ->
  dotNotation (s_options s) && hasDot index = false ->
  has w a index = Some (truthy (get w a index))
  /\ forall raw v,
       p_readOnly p = false -> p_get p = None -> accepts p (heap w) raw v ->
       truthy v = false ->
       exists w',
         set w a (VStr index) raw = Some (Returns w')
         /\ get w' a index = v /\ has w' a index = Some false.
Proof.
  intros Hi Hs Hp Hacc Hdot. split.
  - unfold has, get, proxyGet. rewrite Hi. simpl. rewrite Hs. simpl.
    by rewrite Hacc, Hp, Hdot.
  - intros raw v Hro Hget Hok Hfalsy.
    exists (store a (HModel (setRaw index v i)) w).
    assert (instanceAt (store a (HModel (setRaw index v i)) w) a
            = Some (setRaw index v i)) as Hj by (by eapply store_instance).
    assert (readField (setRaw index v i) index p = v) as Hread.
    { unfold readField. simpl. rewrite Hacc.
      assert (isVirtual p = false) as Hvirt by (by destruct Hok).
      unfold isVirtual in Hvirt. destruct (p_virtual p); [done |].
      by rewrite Hget, alookup_aset_eq. }
    split_and!.
    + unfold set, assign, proxySet, accessorSet. simpl.
      rewrite Hi, Hs, Hdot, Hp, Hacc.
      by rewrite (writeField_accepts w a index p raw v i Hi Hro Hok).
    + unfold get. rewrite Hj. unfold schemaOf in *. simpl. rewrite Hs, Hp.
      unfold proxyGet. by rewrite Hdot.
    + unfold has. rewrite Hj. unfold schemaOf in *. simpl. rewrite Hs. simpl.
      rewrite Hacc, Hp. simpl. by rewrite Hread, Hfalsy.
Qed.

Lemma setEach_strict a s l : forall w i,
  instanceAt w a = Some i -> schemaOf w i = Some s ->
  strict (s_options s) = true -> dotNotation (s_options s) = false ->
  setEach w a Builtin l
  = setEach w a Builtin (List.filter (fun kx => inb kx.1 (keys (descriptor s))) l).
Proof.
  induction l as [|[k x] rest IH]; intros w i Hi Hs Hstrict Hdot; [done |].
  simpl. destruct (inb k (keys (descriptor s))) eqn:Hk.
  - simpl. pose proof (proxySet_written w a k x i s Hi Hs Hdot) as Hw.
    unfold tryCatch. rewrite worldOf_assign.
    destruct Hw as (Hsch & Hinst & _).
    destruct (Hinst _ Hi) as (j & Hj & E & _).
    destruct (Hsch _ _ Hs) as (s' & Hs' & _ & Hsame). rewrite (Hsame Hstrict) in Hs'.
    apply (IH _ j); try done. unfold schemaOf. by rewrite E.
  - assert (tryCatch (assign w a k x) = w) as ->.
    { unfold tryCatch. rewrite worldOf_assign. unfold proxySet.
      rewrite Hi, Hs, Hdot. simpl.
      replace (alookup k (descriptor s)) with (@None properties).
      - rewrite Hstrict. by destruct (_ && _).
      - symmetry. apply alookup_None. by apply inb_false. }
    by apply (IH _ i).
Qed.

(** X12: on a strict schema, [set] given a map does what it does given the
    map without its undeclared keys: the refusal of each undeclared key is
    caught and the loop goes on; and the schema is as it was afterwards. *)
Theorem strict_set_ignores_undeclared_keys w a i s r l :
  instanceAt w a = Some i -> schemaOf w i = Some s ->
  strict (s_options s) = true -> dotNotation (s_options s) = false ->
  heap w !! r = Some (HObject l) -> alookup "hasOwnProperty" l = None ->
  set w a (VRef r) VUndef
  = Some (setEach w a Builtin
            (List.filter (fun kx => inb kx.1 (keys (descriptor s))) l))
  /\ schemas (worldOf (setEach w a Builtin l)) !! i_schema i = Some s.
Proof.
  intros Hi Hs Hstrict Hdot Hr Hown. split.
  - unfold set, forIn, hasOwnPropertyOf. simpl. rewrite Hr. simpl. rewrite Hown.
    f_equal. by eapply setEach_strict.
  - destruct (setEach_written a Builtin l w i s Hi Hs Hdot) as (Hsch & _).
    destruct (Hsch _ _ Hs) as (s' & Hs' & _ & Hsame). by rewrite <- (Hsame Hstrict).
Qed.


(** X14: [set] touches its own document only (without [dotNotation], and
    with plain fields under the names it writes): every other object of the
    heap, the map it is given and other documents included, is as it was,
    and the document is still of the same schema and build and has every
    accessor it had.  Writes to a virtual, to an [Array] or to an [Object]
    field are left out: the setter of a virtual, the casts of the elements
    and the nested document of an [Object] field are not part of this
    model. *)
Theorem set_touches_only_its_document w a path v o i s :
  instanceAt w a = Some i -> schemaOf w i = Some s ->
  dotNotation (s_options s) = false ->
  plainNames s (setNames w path v) ->
  set w a path v = Some o ->
  (forall r x, heap w !! r = Some x -> r <> a -> heap (worldOf o) !! r = Some x)
  /\ exists j, instanceAt (worldOf o) a = Some j
       /\ i_schema j = i_schema i /\ i_emitter j = i_emitter i
       /\ forall n, inb n (_getset i) = true -> inb n (_getset j) = true.
Proof.
  intros Hi Hs Hdot _ Hset.
  destruct (set_written _ _ _ _ _ _ _ Hi Hs Hdot Hset) as (_ & Hinst & Hheap).
  split; [exact Hheap |].
  destruct (Hinst _ Hi) as (j & Hj & E1 & E2 & Hacc & _). by exists j.
Qed.

(** X15: [set] never drops an entry of the error log (without
    [dotNotation]): the log before is a prefix of the log after, so once
    [hasErrors()] is [true] it stays [true] across writes. *)
Theorem set_never_drops_an_error w a path v o i s :
  instanceAt w a = Some i -> schemaOf w i = Some s ->
  dotNotation (s_options s) = false ->
  set w a path v = Some o ->
  getErrors w a `prefix_of` getErrors (worldOf o) a
  /\ (hasErrors w a = true -> hasErrors (worldOf o) a = true).
Proof.
  intros Hi Hs Hdot Hset.
  destruct (set_written _ _ _ _ _ _ _ Hi Hs Hdot Hset) as (_ & Hinst & _).
  destruct (Hinst _ Hi) as (j & Hj & _ & _ & _ & Herr & _).
  assert (getErrors w a `prefix_of` getErrors (worldOf o) a) as Hpre.
  { unfold getErrors. by rewrite Hi, Hj. }
  split; [done |]. unfold hasErrors. destruct Hpre as [k ->].
  by destruct (getErrors w a).
Qed.

(** X16: [clearErrors()] empties the error log and changes nothing else:
    afterwards [getErrors()] is empty and [hasErrors()] is [false], the
    values, the accessors and the schema of the document are as before, so
    that [get] gives for every field what it gave, the schemas and the other
    objects of the heap are as before, and clearing again changes nothing. *)
Theorem clearErrors_resets_the_log_only w a i :
  instanceAt w a = Some i ->
  getErrors (clearErrors w a) a = []
  /\ hasErrors (clearErrors w a) a = false
  /\ schemas (clearErrors w a) = schemas w
  /\ (exists j, instanceAt (clearErrors w a) a = Some j
        /\ _obj j = _obj i /\ sameDocument i j)
  /\ (forall k s, schemaOf w i = Some s ->
        dotNotation (s_options s) && hasDot k = false ->
        get (clearErrors w a) a k = get w a k)
  /\ (forall r o, heap w !! r = Some o -> r <> a -> heap (clearErrors w a) !! r = Some o)
  /\ clearErrors (clearErrors w a) a = clearErrors w a.
Proof.
  intros Hi. unfold clearErrors at 1 2 3 4 5 6 7. rewrite Hi.
  set (j := {| i_schema := i_schema i; i_emitter := i_emitter i; _obj := _obj i;
               _errors := []; _getset := _getset i |}).
  assert (instanceAt (store a (HModel j) w) a = Some j) as Hj by (by eapply store_instance).
  assert (getErrors (store a (HModel j) w) a = []) as He.
  { unfold getErrors. by rewrite Hj. }
  split_and!; try done.
  - unfold hasErrors. by rewrite He.
  - by exists j.
  - intros k s Hs Hdot. unfold get. rewrite Hi, Hj. unfold schemaOf in *. simpl.
    rewrite Hs. destruct (alookup k (descriptor s)) as [p|]; [|done].
    unfold proxyGet. by rewrite Hdot.
  - intros r o Hr Hne. simpl. by rewrite list_lookup_insert_ne.
  - unfold clearErrors. rewrite Hi. fold j. rewrite Hj. simpl.
    unfold store. simpl. f_equal. by rewrite list_insert_insert_eq.
Qed.

Lemma proxySet_spares w a name v i s k :
  instanceAt w a = Some i -> schemaOf w i = Some s ->
  dotNotation (s_options s) = false -> spared s [name] k ->
  exists j, instanceAt (proxySet w a name v).1 a = Some j
            /\ alookup k (_obj j) = alookup k (_obj i).
Proof.
  intros Hi Hs Hdot Hk.
  assert (exists j, instanceAt w a = Some j /\ alookup k (_obj j) = alookup k (_obj i))
    as Hsame by (by exists i).
  unfold proxySet. rewrite Hi, Hs, Hdot. simpl.
  destruct (alookup name (descriptor s)) as [p|] eqn:Hp.
  - destruct (decide (k = name)) as [-> | Hne].
    + destruct Hk as [Hk | (p' & Hp' & Hro)].
      { exfalso. apply Hk, list_elem_of_here. }
      assert (p' = p) as -> by congruence.
      unfold accessorSet. rewrite Hi, Hs, Hp.
      destruct (inb name (_getset i)); [|done]. simpl. by rewrite writeField_readOnly.
    + destruct (accessorSet_frame w a name v i Hi) as (_ & j & Hj & _ & Hother).
      exists j. split; [done | by apply Hother].
  - destruct (i_emitter i && inb name eventEmmiterInternals); [done |].
    destruct (strict (s_options s)); [done |].
    assert (k <> name) as Hne.
    { destruct Hk as [Hk | (p' & Hp' & _)]; [|congruence].
      intros ->. apply Hk, list_elem_of_here. }
    set (w1 := _addToSchema w a name anyProperties).
    assert (instanceAt w1 a = Some (defineProperty name i)) as Hi1.
    { unfold w1, _addToSchema. rewrite Hi. eapply store_instance.
      unfold instanceAt in *. simpl. exact Hi. }
    destruct (accessorSet_frame w1 a name v _ Hi1) as (_ & j & Hj & _ & Hother).
    exists j. split; [done | by rewrite Hother].
Qed.

Lemma setEach_spares a m l k : forall w i s,
  instanceAt w a = Some i -> schemaOf w i = Some s ->
  dotNotation (s_options s) = false -> spared s (keys l) k ->
  exists j, instanceAt (worldOf (setEach w a m l)) a = Some j
            /\ alookup k (_obj j) = alookup k (_obj i).
Proof.
  induction l as [|[key x] rest IH]; intros w i s Hi Hs Hdot Hk; [by exists i |].
  simpl in Hk. apply spared_cons in Hk as [Hk1 Hk2].
  assert (exists j, instanceAt (worldOf (setEach (tryCatch (assign w a key x)) a m rest)) a
                    = Some j
                    /\ alookup k (_obj j) = alookup k (_obj i)) as Hstep.
  { unfold tryCatch. rewrite worldOf_assign.
    destruct (proxySet_spares w a key x i s k Hi Hs Hdot Hk1) as (j & Hj & Hjk).
    destruct (proxySet_written w a key x i s Hi Hs Hdot) as (Hsch & Hinst & _).
    destruct (Hinst _ Hi) as (j' & Hj' & E & _).
    assert (j' = j) as -> by congruence.
    destruct (Hsch _ _ Hs) as (s' & Hs' & Hext & _).
    destruct (IH (proxySet w a key x).1 j s') as (j2 & Hj2 & Hj2k); try done.
    - unfold schemaOf. by rewrite E.
    - destruct Hext as [-> _]. done.
    - by eapply spared_extends.
    - exists j2. split; [done | congruence]. }
  simpl. destruct m as [|f|]; [exact Hstep | | by exists i].
  destruct (truthy (callFn f [VStr key])); [exact Hstep | by eapply IH].
Qed.

(** X21: [set] changes the raw value of no field but those it names, and
    of no [readOnly] field at all (without [dotNotation], and with plain
    fields under the names it writes): given a key, every other field and
    the field itself if it is [readOnly] keep their value; given a map, so
    does every field that is not a key of the map or is [readOnly].  A name
    that stands for a virtual is left out, since the setter of a virtual
    writes to other fields; so are alias fields, which the schemas of this
    model do not have. *)
Theorem set_changes_only_the_named_fields w a i s path v o k :
  instanceAt w a = Some i -> schemaOf w i = Some s ->
  dotNotation (s_options s) = false ->
  plainNames s (setNames w path v) ->
  set w a path v = Some o ->
  spared s (setNames w path v) k ->
  exists j, instanceAt (worldOf o) a = Some j
            /\ alookup k (_obj j) = alookup k (_obj i).
Proof.
  intros Hi Hs Hdot _. unfold set, setNames. destruct (isObject path && negb (truthy v)).
  - intros Hset Hk. apply bind_Some in Hset as (l & Hl & [= <-]). rewrite Hl in Hk.
    by eapply setEach_spares.
  - intros Hset Hk. apply bind_Some in Hset as (key & Hkey & [= <-]).
    rewrite Hkey in Hk. simpl. unfold tryCatch. rewrite worldOf_assign.
    by eapply proxySet_spares.
Qed.

(** X17: a field that one document adds to the shared schema cannot be
    written on a document of the same model that was built before.  After
    the document at [a] has set the undeclared field [name] (non-strict
    schema), the field is declared for the document at [b] as well, but [b]
    has no accessor for it: the [set] trap of [b] gives [false], so the
    assignment throws, [set] on [b] returns normally having stored nothing,
    and [b] reads the field as [undefined]. *)
Theorem field_added_by_sibling_is_not_writable w a b i j s name v v' :
  a <> b -> instanceAt w a = Some i -> instanceAt w b = Some j ->
  i_schema j = i_schema i -> schemaOf w i = Some s ->
  strict (s_options s) = false -> dotNotation (s_options s) = false ->
  alookup name (descriptor s) = None ->
  i_emitter i && inb name eventEmmiterInternals = false ->
  inb name (_getset j) = false ->
  exists w1,
    set w a (VStr name) v = Some (Returns w1)
    /\ get w1 a name = v
    /\ instanceAt w1 b = Some j
    /\ (exists p, schemaOf w1 j = Some p /\ name ∈ keys (descriptor p))
    /\ assign w1 b name v' = Throws w1
    /\ set w1 b (VStr name) v' = Some (Returns w1)
    /\ get w1 b name = VUndef.
Proof.
  intros Hab Hi Hj Hsid Hs Hstrict Hdot Hun Hint Hnoacc.
  set (s' := {| descriptor := descriptor s ++ [(name, anyProperties)];
                s_options := s_options s |}).
  set (w0 := _addToSchema w a name anyProperties).
  assert (instanceAt w0 a = Some (defineProperty name i)) as Hi0.
  { unfold w0, _addToSchema. rewrite Hi. eapply store_instance.
    unfold instanceAt in *. simpl. exact Hi. }
  assert (schemas w0 !! i_schema i = Some s') as Hs0.
  { unfold w0, _addToSchema. rewrite Hi. simpl.
    unfold schemaOf in Hs. rewrite list_lookup_alter_eq, Hs. simpl.
    unfold schemaAdd. by rewrite Hun. }
  assert (alookup name (descriptor s') = Some anyProperties) as Hdecl.
  { simpl. rewrite alookup_app_r by done. simpl. by rewrite String.eqb_refl. }
  set (w1 := store a (HModel (setRaw name v (defineProperty name i))) w0).
  assert (proxySet w a name v = (w1, true)) as Hp.
  { unfold proxySet. rewrite Hi, Hs, Hdot, Hun, Hint, Hstrict. simpl.
    fold w0. unfold accessorSet. rewrite Hi0. unfold schemaOf.
    change (i_schema (defineProperty name i)) with (i_schema i).
    rewrite Hs0, Hdecl, inb_defineProperty.
    by rewrite (writeField_any w0 a name anyProperties v _ Hi0). }
  assert (instanceAt w1 a = Some (setRaw name v (defineProperty name i))) as Hi1
    by (by eapply store_instance).
  assert (schemas w1 !! i_schema i = Some s') as Hs1 by done.
  assert (instanceAt w1 b = Some j) as Hj1.
  { unfold w1, w0, _addToSchema. rewrite Hi. unfold instanceAt in *. simpl.
    by rewrite !list_lookup_insert_ne. }
  assert (proxySet w1 b name v' = (w1, false)) as Hp'.
  { unfold proxySet. rewrite Hj1. unfold schemaOf. rewrite Hsid, Hs1. simpl.
    rewrite Hdot. simpl. rewrite alookup_app_r by done. simpl.
    rewrite String.eqb_refl. unfold accessorSet. rewrite Hj1. unfold schemaOf.
    rewrite Hsid, Hs1, Hdecl. by rewrite Hnoacc. }
  exists w1. split_and!.
  - unfold set, assign. simpl. by rewrite Hp.
  - unfold get. rewrite Hi1. unfold schemaOf.
    change (i_schema (setRaw name v (defineProperty name i))) with (i_schema i).
    rewrite Hs1, Hdecl. unfold proxyGet. simpl. rewrite Hdot. simpl.
    unfold readField.
    change (_getset (setRaw name v (defineProperty name i)))
      with (_getset (defineProperty name i)).
    rewrite inb_defineProperty. simpl. by rewrite alookup_aset_eq.
  - done.
  - exists s'. unfold schemaOf. rewrite Hsid. split; [done |].
    simpl. rewrite keys_app. apply elem_of_app. right. apply list_elem_of_here.
  - unfold assign. by rewrite Hp'.
  - unfold set, assign. simpl. by rewrite Hp'.
  - unfold get. rewrite Hj1. unfold schemaOf. rewrite Hsid, Hs1, Hdecl.
    unfold proxyGet. simpl. rewrite Hdot. simpl. unfold readField. by rewrite Hnoacc.
Qed.


(** X23: what the values given to the constructor leave alone (without
    [dotNotation], and with plain fields under the keys of the values).  A
    field that the values do not name, and a [readOnly] field whether they
    name it or not, ends up with the raw value it has in a document built
    without values: its default, if it has one.  Values that name a virtual
    are left out, since the setter of a virtual writes to other fields; so
    are alias fields, which the schemas of this model do not have. *)
Theorem constructor_values_spare_defaults dc w sid em s r l k :
  schemas w !! sid = Some s -> NoDup (keys (descriptor s)) ->
  dotNotation (s_options s) = false ->
  heap w !! r = Some (HObject l) ->
  plainNames s (keys l) ->
  spared s (keys l) k ->
  exists w0 j0 o j,
    construct dc w sid em VUndef false = Some (Returns w0, length (heap w))
    /\ instanceAt w0 (length (heap w)) = Some j0
    /\ construct dc w sid em (VRef r) false = Some (o, length (heap w))
    /\ instanceAt (worldOf o) (length (heap w)) = Some j
    /\ alookup k (_obj j) = alookup k (_obj j0).
Proof.
  intros Hs Hnd Hdot Hr _ Hk.
  destruct (construct_fresh dc w sid em false s Hs Hnd)
    as (w0 & j0 & Hc0 & Hj0 & Hsid & _ & Hsch & Hheap).
  assert (construct dc w sid em (VRef r) false
          = (o ← set w0 (length (heap w)) (VRef r) VUndef; Some (o, length (heap w)))) as Hc.
  { unfold construct in *. rewrite Hs in *. simpl in *. by injection Hc0 as <-. }
  assert (schemaOf w0 j0 = Some s) as Hs0.
  { unfold schemaOf. by rewrite Hsid, Hsch. }
  assert (set w0 (length (heap w)) (VRef r) VUndef
          = Some (setEach w0 (length (heap w)) (hasOwnPropertyOf w0 (VRef r)) l)) as Hset.
  { unfold set, forIn. simpl. by rewrite (Hheap _ _ Hr). }
  destruct (setEach_spares (length (heap w)) (hasOwnPropertyOf w0 (VRef r)) l k w0 j0 s
              Hj0 Hs0 Hdot Hk) as (j & Hj & Hjk).
  exists w0, j0, (setEach w0 (length (heap w)) (hasOwnPropertyOf w0 (VRef r)) l), j.
  split_and!; try done.
  rewrite Hc, Hset. reflexivity.
Qed.

End WritingMore.

(** ** A write, then a serialization *)

Section WriteThenSerialize.
Context `{Host}.

(** X19: what is set shows in the serialization.  After [set(index, raw)]
    on a declared field without getter whose pipeline stores the boolean,
    number or string [v], a serialization that visits the field (no
    transform function in play) has [v] under [index], with or without
    [minimize]. *)
Theorem set_then_toObject fuel w a i s index p raw v opts json w1 w' out :
  instanceAt w a = Some i -> schemaOf w i = Some s ->
  NoDup (keys (descriptor s)) ->
  alookup index (descriptor s) = Some p -> inb index (_getset i) = true ->
  p_readOnly p = false -> p_get p = None ->
  dotNotation (s_options s) && hasDot index = false ->
  accepts p (heap w) raw v -> isPrimitive v = true ->
  skipped (_prepareToObjectOptions s opts json) p = false ->
  isFunction (resolveTransform s (_prepareToObjectOptions s opts json)) = false ->
  set w a (VStr index) raw = Some (Returns w1) ->
  _toObject fuel w1 a opts json = Some (w', out) ->
  exists r ret,
    out = VRef r /\ heap w' !! r = Some (HObject ret)
    /\ alookup index ret = Some v.
Proof.
  intros Hi Hs Hnd Hp Hacc Hro Hget Hdot Hok Hprim Hsk Hnf Hset Hto.
  assert (w1 = store a (HModel (setRaw index v i)) w) as ->.
  { unfold set, assign, proxySet, accessorSet in Hset. simpl in Hset.
    rewrite Hi, Hs, Hdot, Hp, Hacc in Hset.
    rewrite (writeField_accepts w a index p raw v i Hi Hro Hok) in Hset.
    by injection Hset as <-. }
  assert (instanceAt (store a (HModel (setRaw index v i)) w) a
          = Some (setRaw index v i)) as Hj by (by eapply store_instance).
  assert (readField (setRaw index v i) index p = v) as Hread.
  { unfold readField. simpl. rewrite Hacc.
    assert (isVirtual p = false) as Hvirt by (by destruct Hok).
    unfold isVirtual in Hvirt. destruct (p_virtual p); [done |].
    by rewrite Hget, alookup_aset_eq. }
  destruct (primitive_in_result fuel _ a opts json _ s w' out index p Hj)
    as (r & ret & -> & Hret & Hk); try done.
  - by apply alookup_elem.
  - by rewrite Hread.
  - exists r, ret. by rewrite Hread in Hk.
Qed.

End WriteThenSerialize.

(** ** The theorems at work on the example documents *)

Import Examples.



Lemma date_field_holds_stored_date_witness :
  exists w' r ret,
    toObject 1 albumWorld 0 (Some isoOptions) = Some (w', VRef r)
    /\ heap albumWorld !! 2 = Some (HDate 0)
    /\ heap w' !! r = Some (HObject ret)
    /\ alookup "born" ret = Some (VRef 2).
Proof.
  epose proof (date_field_holds_stored_date (H := node) 1 albumWorld 0
                 (Some isoOptions) VUndef _ _ _ _ "born" (field TDate) 2 0%Z) as Hw.
  edestruct Hw as (r & ret & Hv & Hr & Hborn);
    [reflexivity | reflexivity | decided | reflexivity | declared
    | reflexivity | reflexivity | reflexivity | reflexivity
    | vm_compute; reflexivity |].
  injection Hv as <-. eexists _, _, ret. split; [vm_compute; reflexivity |].
  split; [reflexivity |]. split; [exact Hr | exact Hborn].
Defined.

Lemma toObject_empties_stored_array_witness :
  exists w' v,
    toObject 1 albumWorld 0 None = Some (w', v)
    /\ heap albumWorld !! 1 = Some (HArray [VStr "a"; VStr "b"])
    /\ heap w' !! 1 = Some (HArray []).
Proof.
  eexists _, _. split; [vm_compute; reflexivity |]. split; [reflexivity |].
  eapply (toObject_empties_stored_array (H := node) 1 albumWorld 0 None VUndef
            _ _ _ _ "tags" (field TAny) 1);
    [reflexivity | reflexivity | decided | declared | reflexivity
    | reflexivity | reflexivity | reflexivity | vm_compute; reflexivity].
Defined.

Lemma minimize_omits_empty_keeps_scalars_witness :
  exists w' r ret,
    toObject 1 cartWorld 0 None = Some (w', VRef r)
    /\ heap w' !! r = Some (HObject ret)
    /\ alookup "coupon" ret = None
    /\ alookup "items" ret = None
    /\ alookup "extra" ret = None
    /\ alookup "count" ret = Some (VNum 0)
    /\ alookup "paid" ret = Some (VBool false)
    /\ alookup "note" ret = Some (VStr "")
    /\ alookup "opened" ret = Some (VRef 3).
Proof.
  edestruct (minimize_omits_empty_keeps_scalars (H := node) 0 cartWorld 0 None VUndef)
    as (r & ret & Hv & Hr & Hall);
    [reflexivity | reflexivity | decided | reflexivity | reflexivity
    | vm_compute; reflexivity |].
  injection Hv as <-. eexists _, _, ret. split; [vm_compute; reflexivity |].
  split; [exact Hr |]. split_and!.
  - edestruct (Hall "coupon") as (Hnull & _); [declared | reflexivity | reflexivity |].
    by apply Hnull.
  - edestruct (Hall "items") as (_ & _ & Hempty & _);
      [declared | reflexivity | reflexivity |].
    apply (Hempty 1); [reflexivity | by right].
  - edestruct (Hall "extra") as (_ & _ & Hempty & _);
      [declared | reflexivity | reflexivity |].
    apply (Hempty 2); [reflexivity | by left].
  - edestruct (Hall "count") as (_ & _ & _ & Hprim & _);
      [declared | reflexivity | reflexivity |].
    by apply Hprim.
  - edestruct (Hall "paid") as (_ & _ & _ & Hprim & _);
      [declared | reflexivity | reflexivity |].
    by apply Hprim.
  - edestruct (Hall "note") as (_ & _ & _ & Hprim & _);
      [declared | reflexivity | reflexivity |].
    by apply Hprim.
  - edestruct (Hall "opened") as (_ & _ & _ & _ & Hdate);
      [declared | reflexivity | reflexivity |].
    by apply (Hdate 3 0%Z).
Defined.

Lemma prepared_options_precedence_witness :
  _prepareToObjectOptions virtualsSchema (Some isoOptions) VUndef =
    {| o_transform := VBool true; o_json := VUndef; o_minimize := VBool true;
       o_virtuals := VUndef; o_serializable := VUndef; o_dateToISO := VBool true;
       o_useSchemaOptions := VUndef |}
  /\ _prepareToObjectOptions virtualsSchema None VUndef =
    {| o_transform := VBool true; o_json := VBool false; o_minimize := VBool true;
       o_virtuals := VBool true; o_serializable := VUndef; o_dateToISO := VUndef;
       o_useSchemaOptions := VBool true |}
  /\ resolveTransform redactSchema
       (_prepareToObjectOptions redactSchema (Some noOptions) VUndef) = VFun 0
  /\ resolveTransform redactSchema
       (_prepareToObjectOptions redactSchema (Some untransformed) VUndef) = VBool false.
Proof.
  destruct (prepared_options_precedence virtualsSchema (Some isoOptions) VUndef)
    as (Hexplicit & _ & _).
  destruct (prepared_options_precedence virtualsSchema None VUndef) as (_ & Hschema & _).
  destruct (prepared_options_precedence redactSchema (Some noOptions) VUndef)
    as (_ & _ & Hleft).
  destruct (prepared_options_precedence redactSchema (Some untransformed) VUndef)
    as (_ & _ & Hfalse).
  split_and!.
  - apply (Hexplicit isoOptions); reflexivity.
  - apply Hschema. by left.
  - destruct (Hleft noOptions) as (_ & _ & Hfallback); [reflexivity | reflexivity |].
    apply Hfallback. by left.
  - destruct (Hfalse untransformed) as (_ & Hkept & _); [reflexivity | reflexivity |].
    by apply Hkept.
Defined.

(** C3, as the specification states it, fails: a schema-level [virtuals: true]
    is not seen when the caller passes options of its own, here [{}]. *)
Lemma schema_level_virtuals_not_merged :
  truthy (o_virtuals (_prepareToObjectOptions virtualsSchema (Some noOptions) VUndef))
  <> truthy (o_virtuals (specMergedOptions virtualsSchema (Some noOptions) VUndef)).
Proof. vm_compute. discriminate. Qed.

Lemma emitter_internal_write_is_noop_witness :
  strict (s_options albumSchema) = false
  /\ proxySet albumWorld 0 "_events" (VNum 1) = (albumWorld, true)
  /\ set albumWorld 0 (VStr "_events") (VNum 1) = Some (Returns albumWorld).
Proof.
  split; [reflexivity |].
  eapply (emitter_internal_write_is_noop (H := node) albumWorld 0);
    reflexivity.
Defined.

Lemma set_throws_on_shadowed_hasOwnProperty_witness :
  set shadowWorld 0 (VRef 4) VUndef = Some (Throws shadowWorld).
Proof.
  eapply (set_throws_on_shadowed_hasOwnProperty (H := node) shadowWorld 0 4
            "hasOwnProperty" (VNum 1) [] (VNum 1)); reflexivity.
Defined.

Lemma undeclared_write_witness :
  (exists w',
     set albumWorld 0 (VStr "rating") (VNum 5) = Some (Returns w')
     /\ (schema ← schemaOf w' (document 0 true []); alookup "rating" (descriptor schema))
        = Some anyProperties
     /\ (i ← instanceAt w' 0; alookup "rating" (_obj i)) = Some (VNum 5))
  /\ set cartWorld 0 (VStr "rating") (VNum 5) = Some (Returns cartWorld).
Proof.
  epose proof (undeclared_write (H := node) albumWorld 0 _ _ "rating" (VNum 5)
                 eq_refl eq_refl eq_refl eq_refl eq_refl) as [_ Hloose].
  epose proof (undeclared_write (H := node) cartWorld 0 _ _ "rating" (VNum 5)
                 eq_refl eq_refl eq_refl eq_refl eq_refl) as [Hstrict _].
  split.
  - destruct (Hloose eq_refl) as (w' & _ & Hset & Hschema & Hinst & _ & _).
    exists w'. split; [exact Hset |]. split.
    + change (schemaOf w' (document 0 true [])) with
        (schemaOf w' (document 0 true
                        [("tags", VRef 1); ("born", VRef 2); ("meta", VRef 3)])).
      rewrite Hschema. reflexivity.
    + rewrite Hinst. reflexivity.
  - apply (Hstrict eq_refl).
Defined.

(** C6, as the specification states it, fails: without [strict], a write to
    the undeclared name [_events] on a document that extends the event
    emitter does not add the field to the schema. *)
Lemma emitter_name_not_added_to_schema :
  strict (s_options albumSchema) = false
  /\ alookup "_events" (descriptor albumSchema) = None
  /\ exists w',
       set albumWorld 0 (VStr "_events") (VNum 1) = Some (Returns w')
       /\ schemas w' = [albumSchema]
       /\ (i ← instanceAt w' 0; alookup "_events" (_obj i)) = None.
Proof.
  split; [reflexivity |]. split; [reflexivity |].
  exists albumWorld. vm_compute. done.
Qed.

Lemma construct_defaults_then_values_witness :
  (exists w' i,
    construct noClone memberWorld 0 true (VRef 0) false = Some (Returns w', 1)
    /\ instanceAt w' 1 = Some i
    /\ _obj i = [("country", VStr "USA"); ("role", VStr "guest"); ("name", VStr "Bob")]
    /\ schemas w' = schemas memberWorld
    /\ set w' 1 (VStr "role") (VStr "admin") = Some (Returns w'))
  /\ exists w1 w2 i1 i2 r1 r2 vs1 vs2,
       construct noClone playlistWorld 0 false VUndef false = Some (Returns w1, 0)
       /\ construct noClone w1 0 false VUndef false = Some (Returns w2, length (heap w1))
       /\ instanceAt w2 0 = Some i1 /\ instanceAt w2 (length (heap w1)) = Some i2
       /\ alookup "tags" (_obj i1) = Some (VRef r1)
       /\ alookup "tags" (_obj i2) = Some (VRef r2)
       /\ r1 < length (heap w1) < r2
       /\ heap w2 !! r1 = Some (HArray vs1) /\ heap w2 !! r2 = Some (HArray vs2)
       /\ cloneOf (heap w2) (S (length (heap w1))) (LArr [LStr "new"; LObj [("seen", LArr [])]])
            (VRef r2).
Proof.
  split.
  - destruct (construct_defaults_then_values (H := node) noClone memberWorld 0 true
                (VRef 0) false memberSchema eq_refl)
      as (Hc & Hsch & Hdef & Hlit & Hro); [decided |].
    eexists _, _. split; [rewrite Hc; vm_compute; reflexivity |].
    split; [vm_compute; reflexivity |]. split; [reflexivity |].
    split; [reflexivity |].
    eapply Hro; reflexivity.
  - destruct (construct_defaults_then_values (H := node) noClone playlistWorld 0 false
                VUndef false playlistSchema eq_refl)
      as (Hc1 & _); [decided |].
    set (w1 := foldl (populateDefault 0 0)
                 (alloc (HModel {| i_schema := 0; i_emitter := false; _obj := [];
                                   _errors := [];
                                   _getset := keys (descriptor playlistSchema) |})
                         playlistWorld).1
                 (descriptor playlistSchema)).
    destruct (construct_defaults_then_values (H := node) noClone
                w1 0 false VUndef false playlistSchema eq_refl)
      as (Hc2 & _ & _ & Hlit & _); [decided |].
    edestruct (Hlit [] "tags") as (Hfresh & Hcopy & Hstored);
      [reflexivity | reflexivity | reflexivity |].
    destruct Hstored as (i2 & Hi2 & Htags); [vm_compute; done |].
    pose proof Hcopy as (r2 & vs2 & Hr2 & Hle & Hvs2 & _).
    eexists w1, _, _, i2, _, r2, _, vs2.
    split; [rewrite Hc1; reflexivity |].
    split; [rewrite Hc2; vm_compute; reflexivity |].
    split; [vm_compute; reflexivity |].
    split; [exact Hi2 |].
    split; [vm_compute; reflexivity |].
    split; [rewrite <- Hr2; exact Htags |].
    split; [split; [vm_compute; lia | vm_compute in Hle; vm_compute; lia] |].
    split; [vm_compute; reflexivity |].
    split; [exact Hvs2 |].
    rewrite <- Hr2. exact Hcopy.
Defined.





Lemma serialization_keeps_documents_witness :
  exists w' r,
    toObject 1 albumWorld 0 None = Some (w', VRef r)
    /\ schemas w' = schemas albumWorld
    /\ instanceAt w' 0 = instanceAt albumWorld 0
    /\ heap w' !! 2 = Some (HDate 0)
    /\ heap w' !! 3 = Some (HObject [("k", VNum 1)])
    /\ heap albumWorld !! r = None.
Proof.
  eexists _, _. split; [vm_compute; reflexivity |].
  edestruct (serialization_keeps_documents (H := node) 1 albumWorld 0 VUndef)
    as (Hsch & Hinst & _ & Hobj & r & ret & Hv & Hnew & _);
    [| vm_compute; reflexivity |].
  { intros [|sid] s o Hs Ho; [|done]. injection Hs as <-.
    destruct Ho as [Ho | Ho]; discriminate Ho. }
  split; [exact Hsch |]. split; [by apply Hinst |].
  split; [|split].
  - destruct (Hobj 2 (HDate 0) eq_refl) as [E | (l & E & _)]; [exact E | done].
  - destruct (Hobj 3 (HObject [("k", VNum 1)]) eq_refl) as [E | (l & E & _)];
      [exact E | done].
  - injection Hv as <-. exact Hnew.
Defined.

Lemma without_minimize_visited_fields_stay_witness :
  exists w' r ret,
    toObject 1 cartWorld 0 (Some unminimized) = Some (w', VRef r)
    /\ heap w' !! r = Some (HObject ret)
    /\ keys ret = ["count"; "paid"; "note"; "coupon"; "items"; "extra"; "opened"]
    /\ alookup "coupon" ret = Some VNull.
Proof.
  edestruct (without_minimize_visited_fields_stay (H := node) 1 cartWorld 0
               (Some unminimized) VUndef)
    as (r & ret & Hv & Hr & Hkeys & Hnull);
    [reflexivity | reflexivity | decided | reflexivity | reflexivity
    | vm_compute; reflexivity |].
  injection Hv as <-. eexists _, _, ret. split; [vm_compute; reflexivity |].
  split; [exact Hr |]. split.
  - exact Hkeys.
  - apply (Hnull "coupon" (field TString)); (declared || reflexivity).
Defined.




Lemma ownKeys_are_declared_fields_witness :
  exists w1,
    ownKeys 1 accountWorld 0 = Some (w1, ["first"; "last"])
    /\ sublist ["first"; "last"] (keys (descriptor accountSchema))
    /\ getOwnPropertyDescriptor w1 0 "last"
       = Some {| value := VStr "Jones"; writeable := true; enumerable := true;
                 configurable := true |}.
Proof.
  eexists. split; [vm_compute; reflexivity |].
  edestruct (ownKeys_are_declared_fields (H := node) 1 accountWorld 0)
    as (Hsub & Hdesc);
    [reflexivity | reflexivity | reflexivity | vm_compute; reflexivity |].
  split; [exact Hsub |].
  destruct (Hdesc "last") as (p & Hp & Hd); [declared |].
  injection Hp as <-. exact Hd.
Defined.


Lemma has_reports_truthiness_witness :
  has profileWorld 0 "age" = Some false
  /\ get profileWorld 0 "age" = VNum 0
  /\ has profileWorld 0 "name" = Some true
  /\ exists w',
       set profileWorld 0 (VStr "name") (VStr "") = Some (Returns w')
       /\ get w' 0 "name" = VStr "" /\ has w' 0 "name" = Some false.
Proof.
  destruct (has_reports_truthiness (H := node) profileWorld 0 _ _ "age" (field TNumber)
              eq_refl eq_refl eq_refl eq_refl eq_refl) as [Hage _].
  destruct (has_reports_truthiness (H := node) profileWorld 0 _ _ "name" (field TString)
              eq_refl eq_refl eq_refl eq_refl eq_refl) as [Hname Hset].
  split; [exact Hage |]. split; [reflexivity |]. split; [exact Hname |].
  apply (Hset (VStr "") (VStr "")); try reflexivity. by vm_compute.
Defined.

Lemma strict_set_ignores_undeclared_keys_witness :
  exists w' i,
    set updateWorld 0 (VRef 4) VUndef = Some (Returns w')
    /\ instanceAt w' 0 = Some i
    /\ alookup "count" (_obj i) = Some (VNum 2)
    /\ alookup "note" (_obj i) = Some (VStr "x")
    /\ alookup "bogus" (_obj i) = None
    /\ schemas w' = schemas updateWorld.
Proof.
  destruct (strict_set_ignores_undeclared_keys (H := node) updateWorld 0 _ _ 4
              [("count", VNum 2); ("bogus", VNum 1); ("note", VStr "x")]
              eq_refl eq_refl eq_refl eq_refl eq_refl eq_refl) as [Hset _].
  eexists _, _. split; [rewrite Hset; vm_compute; reflexivity |].
  vm_compute. done.
Defined.


Lemma set_touches_only_its_document_witness :
  exists w',
    set updateWorld 0 (VRef 4) VUndef = Some (Returns w')
    /\ heap w' !! 4 = heap updateWorld !! 4
    /\ heap w' !! 1 = Some (HArray []).
Proof.
  epose proof (set_touches_only_its_document (H := node) updateWorld 0 (VRef 4) VUndef
                 _ _ _ eq_refl eq_refl eq_refl) as Hw.
  edestruct Hw
    as [Hheap _]; [plainly | vm_compute; reflexivity |].
  eexists. split; [vm_compute; reflexivity |]. split.
  - by apply (Hheap 4).
  - by apply (Hheap 1).
Defined.

Lemma set_never_drops_an_error_witness :
  exists w1 w2,
    set profileWorld 0 (VStr "age") (VStr "old") = Some (Returns w1)
    /\ hasErrors w1 0 = true
    /\ set w1 0 (VStr "age") (VNum 41) = Some (Returns w2)
    /\ get w2 0 "age" = VNum 41
    /\ getErrors w1 0 `prefix_of` getErrors w2 0
    /\ hasErrors w2 0 = true.
Proof.
  pose (w1 := tryCatch (assign profileWorld 0 "age" (VStr "old"))).
  pose (w2 := tryCatch (assign w1 0 "age" (VNum 41))).
  pose proof (set_never_drops_an_error (H := node) w1 0 (VStr "age") (VNum 41)
                (Returns w2) (default (document 0 true []) (instanceAt w1 0)) profileSchema
                eq_refl eq_refl eq_refl eq_refl)
    as [Hpre Hhas].
  exists w1, w2.
  split_and!; [reflexivity | reflexivity | reflexivity | reflexivity | exact Hpre
              | by apply Hhas].
Defined.

Lemma clearErrors_resets_the_log_only_witness :
  exists w1,
    set profileWorld 0 (VStr "age") (VStr "old") = Some (Returns w1)
    /\ hasErrors w1 0 = true
    /\ hasErrors (clearErrors w1 0) 0 = false
    /\ get (clearErrors w1 0) 0 "name" = VStr "Jim".
Proof.
  pose (w1 := tryCatch (assign profileWorld 0 "age" (VStr "old"))).
  pose proof (clearErrors_resets_the_log_only w1 0
                (default (document 0 true []) (instanceAt w1 0)) eq_refl)
    as (_ & Hhas & _ & _ & Hget & _).
  exists w1. split_and!; [reflexivity | reflexivity | exact Hhas |].
  by rewrite (Hget "name" profileSchema).
Defined.

Lemma field_added_by_sibling_is_not_writable_witness :
  exists w1,
    set twinsWorld 0 (VStr "rating") (VNum 5) = Some (Returns w1)
    /\ get w1 0 "rating" = VNum 5
    /\ assign w1 1 "rating" (VNum 4) = Throws w1
    /\ set w1 1 (VStr "rating") (VNum 4) = Some (Returns w1)
    /\ get w1 1 "rating" = VUndef.
Proof.
  epose proof (field_added_by_sibling_is_not_writable (H := node) twinsWorld 0 1 _ _ _
                 "rating" (VNum 5) (VNum 4)) as Hw.
  edestruct Hw
    as (w1 & Hset & Hget & _ & _ & Hthrow & Hset' & Hget');
    [done | reflexivity | reflexivity | reflexivity | reflexivity | reflexivity
    | reflexivity | reflexivity | reflexivity | reflexivity |].
  by exists w1.
Defined.


Lemma set_then_toObject_witness :
  exists w1 w' r ret,
    set profileWorld 0 (VStr "age") (VNum 41) = Some (Returns w1)
    /\ toObject 1 w1 0 None = Some (w', VRef r)
    /\ heap w' !! r = Some (HObject ret)
    /\ alookup "age" ret = Some (VNum 41).
Proof.
  pose (w1 := tryCatch (assign profileWorld 0 "age" (VNum 41))).
  epose proof (set_then_toObject (H := node) 1 profileWorld 0 _ _ "age" (field TNumber)
                 (VNum 41) (VNum 41) None VUndef w1 _ _ eq_refl eq_refl) as Hw.
  edestruct Hw as (r & ret & Hv & Hret & Hk);
    [decided | reflexivity | reflexivity | reflexivity | reflexivity | reflexivity
    | by vm_compute | reflexivity | reflexivity | reflexivity | reflexivity
    | vm_compute; reflexivity |].
  injection Hv as <-. exists w1. eexists _, _, ret.
  split; [reflexivity |]. split; [vm_compute; reflexivity |]. by split.
Defined.

Lemma schema_options_reach_nested_documents_witness :
  _toObject 1 orderWorld 1 (Some (_prepareToObjectOptions orderSchema None VUndef)) VUndef
  = toObject 1 orderWorld 1 None
  /\ exists w' r, toObject 1 orderWorld 1 None = Some (w', VRef r).
Proof.
  split; [|eexists _, _; vm_compute; reflexivity].
  apply (schema_options_reach_nested_documents (H := node) orderSchema VUndef 1
           orderWorld 1).
Defined.

Lemma self_containing_document_is_not_serialized_witness :
  get loopWorld 0 "buyer" = VRef 0
  /\ forall fuel, toObject fuel loopWorld 0 None = None.
Proof.
  split; [reflexivity |]. intros fuel.
  eapply (self_containing_document_is_not_serialized (H := node) loopWorld 0 _ _
            "buyer" (field TAny) None VUndef);
    [reflexivity | reflexivity | declared | reflexivity | reflexivity | reflexivity].
Defined.

Lemma set_changes_only_the_named_fields_witness :
  exists w1 w2 j,
    construct noClone memberWorld 0 true VUndef false = Some (Returns w1, 1)
    /\ set w1 1 (VRef 0) VUndef = Some (Returns w2)
    /\ instanceAt w2 1 = Some j
    /\ alookup "name" (_obj j) = Some (VStr "Bob")
    /\ alookup "role" (_obj j) = Some (VStr "guest")
    /\ alookup "country" (_obj j) = Some (VStr "USA").
Proof.
  pose (w1 := worldOf (default (Returns memberWorld)
                         (fst <$> construct noClone memberWorld 0 true VUndef false))).
  pose (i := default (document 0 true []) (instanceAt w1 1)).
  pose (w2 := worldOf (default (Returns w1) (set w1 1 (VRef 0) VUndef))).
  assert (plainNames memberSchema (setNames w1 (VRef 0) VUndef)) as Hplain by plainly.
  destruct (set_changes_only_the_named_fields (H := node) w1 1 i memberSchema (VRef 0)
              VUndef (Returns w2) "role" eq_refl eq_refl eq_refl Hplain eq_refl)
    as (j & Hj & Hrole).
  { right. by eexists. }
  destruct (set_changes_only_the_named_fields (H := node) w1 1 i memberSchema (VRef 0)
              VUndef (Returns w2) "country" eq_refl eq_refl eq_refl Hplain eq_refl)
    as (j' & Hj' & Hcountry).
  { left. intros Hin. apply list_elem_of_In in Hin. simpl in Hin.
    destruct Hin as [E | [E | []]]; discriminate E. }
  assert (j' = j) as -> by congruence.
  exists w1, w2, j.
  split_and!; [reflexivity | reflexivity | exact Hj | | exact Hrole | exact Hcountry].
  vm_compute in Hj. injection Hj as <-. reflexivity.
Defined.

Lemma constructor_values_spare_defaults_witness :
  exists w0 j0 w1 j,
    construct noClone memberWorld 0 true VUndef false = Some (Returns w0, 1)
    /\ instanceAt w0 1 = Some j0
    /\ construct noClone memberWorld 0 true (VRef 0) false = Some (Returns w1, 1)
    /\ instanceAt w1 1 = Some j
    /\ alookup "role" (_obj j0) = Some (VStr "guest")
    /\ alookup "role" (_obj j) = Some (VStr "guest")
    /\ alookup "country" (_obj j) = Some (VStr "USA")
    /\ alookup "name" (_obj j) = Some (VStr "Bob").
Proof.
  destruct (constructor_values_spare_defaults (H := node) noClone memberWorld 0 true
              memberSchema 0 [("name", VStr "Bob"); ("role", VStr "admin")] "role"
              eq_refl)
    as (w0 & j0 & o & j & Hc0 & Hj0 & Hc & Hj & Hrole);
    [decided | reflexivity | reflexivity | plainly | right; by eexists |].
  destruct (constructor_values_spare_defaults (H := node) noClone memberWorld 0 true
              memberSchema 0 [("name", VStr "Bob"); ("role", VStr "admin")] "country"
              eq_refl)
    as (w0' & j0' & o' & j' & Hc0' & Hj0' & Hc' & Hj' & Hcountry);
    [decided | reflexivity | reflexivity | plainly | |].
  { left. intros Hin. apply list_elem_of_In in Hin. simpl in Hin.
    destruct Hin as [E | [E | []]]; discriminate E. }
  assert (w0' = w0) as -> by congruence. assert (j0' = j0) as -> by congruence.
  assert (o' = o) as -> by congruence. assert (j' = j) as -> by congruence.
  vm_compute in Hc0. injection Hc0 as <-.
  vm_compute in Hj0. injection Hj0 as <-.
  vm_compute in Hc. injection Hc as <-.
  eexists _, _, _, j.
  split; [reflexivity |]. split; [reflexivity |]. split; [reflexivity |].
  split; [exact Hj |]. split; [reflexivity |].
  split; [rewrite Hrole; reflexivity |].
  split; [rewrite Hcountry; reflexivity |].
  vm_compute in Hj. by injection Hj as <-.
Defined.
